(** * The protobuf.js wire-format writer (src/writer.js)

    A shallow embedding of the deferred-write operation queue of
    [src/writer.js] and of the emit functions it schedules, with theorems
    about the byte sequences the writer produces.

    Numbers are JavaScript numbers restricted to integers and are modelled
    as [Z]; the 32-bit coercions that the bitwise operators of the source
    perform are written out.  Op objects live in a heap (a list indexed by
    address), because the writer links, shares and mutates them through
    [tail.next].  The plain [Writer] over [Uint8Array] is modelled, and the
    [finish] of [BufferWriter]; its other overrides and the float and
    double writers are not. *)

From Stdlib Require Import ZArith Lia.
From stdpp Require Import base decidable option list list_numbers.

Open Scope Z_scope.

(** ** JavaScript integer operators *)

Module JS.

(** [ToUint32]: what [x >>> 0] yields for an integer [x]. *)
Definition ToUint32 (x : Z) : Z := x mod 2 ^ 32.

(** [ToInt32]: the signed 32-bit reading every bitwise operator applies to
    its operands. *)
Definition ToInt32 (x : Z) : Z := (x + 2 ^ 31) mod 2 ^ 32 - 2 ^ 31.

(** [x << n] *)
Definition shl (x n : Z) : Z := ToInt32 (Z.shiftl (ToInt32 x) (n mod 32)).

(** [x >> n], arithmetic *)
Definition sar (x n : Z) : Z := Z.shiftr (ToInt32 x) (n mod 32).

(** [x >>> n], logical *)
Definition shr (x n : Z) : Z := Z.shiftr (ToUint32 x) (n mod 32).

(** [x & y] *)
Definition band (x y : Z) : Z := Z.land (ToInt32 x) (ToInt32 y).

(** [x | y] *)
Definition bor (x y : Z) : Z := Z.lor (ToInt32 x) (ToInt32 y).

(** [x ^ y] *)
Definition bxor (x y : Z) : Z := Z.lxor (ToInt32 x) (ToInt32 y).

(** [s.charCodeAt(i)] on a string given by its UTF-16 code units; [None]
    stands for the [NaN] returned past the end of the string. *)
Definition charCodeAt (s : list Z) (i : nat) : option Z := s !! i.

(** [c & m] where [c] may be [NaN]: [ToInt32(NaN)] is [0]. *)
Definition band_nan (c : option Z) (m : Z) : Z := band (default 0 c) m.

End JS.

Import JS.

(** ** Output buffers

    The plain writer allocates [new Uint8Array(len)]: zero filled, of fixed
    length; a store keeps the low 8 bits of the value and a store outside
    the array is ignored. *)

Abbreviation Buf := (list Z).

Definition new_buf (n : Z) : Buf := replicate (Z.to_nat n) 0.

(** [buf[pos] = v] *)
Definition buf_set (buf : Buf) (pos v : Z) : Buf :=
  if bool_decide (0 <= pos) then <[Z.to_nat pos := v mod 256]> buf else buf.

(** An emit function never reads the buffer: what it does is the sequence
    of stores [buf[pos] = v] it performs, in order. *)
Abbreviation Stores := (list (Z * Z)).

Definition apply_stores (st : Stores) (buf : Buf) : Buf :=
  foldl (fun b pv => buf_set b (fst pv) (snd pv)) buf st.

(** ** LongBits (util/longbits, not part of the sources at hand) *)

Module LongBits.

Record t := mk { lo : Z; hi : Z }.

(** Modelled from the spec: [LongBits.fromNumber] / [LongBits.from] on a
    number is defined in util/longbits, which is missing; the spec says a
    non-negative number is split by division and remainder by 2^32 and a
    signed number is taken in two's complement into 64 bits. *)
Definition fromNumber (v : Z) : t :=
  let u := v mod 2 ^ 64 in mk (u mod 2 ^ 32) (u / 2 ^ 32).

Definition from (v : Z) : t := fromNumber v.

(** Modelled from the spec: [zzEncode] is defined in util/longbits, which
    is missing; the spec says it is the zig-zag transform
    [(n << 1) XOR (n >> 63)] on the 64-bit pair. *)
Definition zzEncode (b : t) : t :=
  let u := hi b * 2 ^ 32 + lo b in
  let s := (u + 2 ^ 63) mod 2 ^ 64 - 2 ^ 63 in
  let z := Z.lxor (Z.shiftl s 1) (Z.shiftr s 63) mod 2 ^ 64 in
  mk (z mod 2 ^ 32) (z / 2 ^ 32).

(** Modelled from the spec: [length] is defined in util/longbits, which is
    missing; the spec says it is [min(10, ceil(bits_needed / 7))], and [1]
    for the value zero. *)
Definition length (b : t) : Z :=
  let u := hi b * 2 ^ 32 + lo b in
  if bool_decide (u = 0) then 1
  else Z.min 10 ((Z.log2 u + 1 + 6) / 7).

End LongBits.

(** ** Emit functions *)

(** [function writeByte(buf, pos, val) { buf[pos] = val & 255; }] *)
Definition writeByte (pos val : Z) : Stores := [(pos, band val 255)].

(** The loop of [writeVarint32]. *)
Fixpoint writeVarint32_loop (fuel : nat) (pos val : Z) : Stores :=
  if bool_decide (val > 127) then
    match fuel with
    | O => []
    | S fuel' =>
        (pos, bor (band val 127) 128) :: writeVarint32_loop fuel' (pos + 1) (shr val 7)
    end
  else [(pos, val)].

(** [writeVarint32]: [val >>>= 7] leaves fewer than 25 bits after the first
    round, so the loop body runs at most five times. *)
Definition writeVarint32 (pos val : Z) : Stores := writeVarint32_loop 5 pos val.

(** The first loop of [writeVarint64], [while (val.hi)]; it returns the
    stores together with the position and the [val] it leaves. *)
Fixpoint writeVarint64_hi (fuel : nat) (pos : Z) (val : LongBits.t)
  : Stores * Z * LongBits.t :=
  if bool_decide (LongBits.hi val <> 0) then
    match fuel with
    | O => ([], pos, val)
    | S fuel' =>
        let b := bor (band (LongBits.lo val) 127) 128 in
        let lo' := shr (bor (shr (LongBits.lo val) 7) (shl (LongBits.hi val) 25)) 0 in
        let hi' := shr (LongBits.hi val) 7 in
        let '(st, pos', val') := writeVarint64_hi fuel' (pos + 1) (LongBits.mk lo' hi') in
        ((pos, b) :: st, pos', val')
    end
  else ([], pos, val).

(** The second loop of [writeVarint64], [while (val.lo > 127)]. *)
Fixpoint writeVarint64_lo (fuel : nat) (pos : Z) (val : LongBits.t)
  : Stores * Z * LongBits.t :=
  if bool_decide (LongBits.lo val > 127) then
    match fuel with
    | O => ([], pos, val)
    | S fuel' =>
        let b := bor (band (LongBits.lo val) 127) 128 in
        let lo' := shr (bor (shr (LongBits.lo val) 7) (shl (LongBits.hi val) 25)) 0 in
        let '(st, pos', val') := writeVarint64_lo fuel' (pos + 1) (LongBits.mk lo' (LongBits.hi val)) in
        ((pos, b) :: st, pos', val')
    end
  else ([], pos, val).

(** [writeVarint64]; the halves of a LongBits are unsigned 32-bit, so each
    loop runs at most five times. *)
Definition writeVarint64 (pos : Z) (val : LongBits.t) : Stores :=
  let '(st1, pos1, val1) := writeVarint64_hi 5 pos val in
  let '(st2, pos2, val2) := writeVarint64_lo 5 pos1 val1 in
  st1 ++ st2 ++ [(pos2, LongBits.lo val2)].

(** [writeFixed32] *)
Definition writeFixed32 (pos val : Z) : Stores :=
  [ (pos, band val 255);
    (pos + 1, band (shr val 8) 255);
    (pos + 2, band (shr val 16) 255);
    (pos + 3, shr val 24) ].

(** [writeBytes], in its [writeBytes_for] form:
    [for (i = 0; i < val.length; ++i) buf[pos + i] = val[i]].  Where
    [Uint8Array.prototype.set] exists the source takes [writeBytes_set],
    [buf.set(val, pos)], instead: the same stores when [val] fits in
    [buf] from [pos] on, and a [RangeError] when it does not, where the
    loop, and so this model, drops the stores past the end. *)
Definition writeBytes (pos : Z) (val : list Z) : Stores :=
  imap (fun i b => (pos + Z.of_nat i, b)) val.

(** The loop of [writeString] over the code units of [val], from index [i]
    and buffer position [pos].  The loop test [i < val.length] is the
    lookup [val !! i]. *)
Fixpoint writeString_loop (fuel : nat) (val : list Z) (i : nat) (pos : Z) : Stores :=
  match fuel with
  | O => []
  | S fuel' =>
      match charCodeAt val i with
      | None => []
      | Some c1 =>
          if bool_decide (c1 < 128) then
            (pos, c1) :: writeString_loop fuel' val (i + 1) (pos + 1)
          else if bool_decide (c1 < 2048) then
            (pos, bor (sar c1 6) 192)
            :: (pos + 1, bor (band c1 63) 128)
            :: writeString_loop fuel' val (i + 1) (pos + 2)
          else if bool_decide (band c1 0xFC00 = 0xD800)
                  && bool_decide (band_nan (charCodeAt val (i + 1)) 0xFC00 = 0xDC00) then
            let c2 := default 0 (charCodeAt val (i + 1)) in
            let c1 := 0x10000 + shl (band c1 0x03FF) 10 + band c2 0x03FF in
            (pos, bor (sar c1 18) 240)
            :: (pos + 1, bor (band (sar c1 12) 63) 128)
            :: (pos + 2, bor (band (sar c1 6) 63) 128)
            :: (pos + 3, bor (band c1 63) 128)
            :: writeString_loop fuel' val (i + 1 + 1) (pos + 4)
          else
            (pos, bor (sar c1 12) 224)
            :: (pos + 1, bor (band (sar c1 6) 63) 128)
            :: (pos + 2, bor (band c1 63) 128)
            :: writeString_loop fuel' val (i + 1) (pos + 3)
      end
  end.

(** [writeString]: [i] grows in every round, so [val.length + 1] rounds
    reach the end of the string. *)
Definition writeString (pos : Z) (val : list Z) : Stores :=
  writeString_loop (S (length val)) val 0 pos.

(** The loop of [byteLength], with [strlen = val.length >>> 0]. *)
Fixpoint byteLength_loop (fuel : nat) (val : list Z) (strlen : Z) (i : nat) (len : Z) : Z :=
  match fuel with
  | O => len
  | S fuel' =>
      if bool_decide (Z.of_nat i < strlen) then
        match charCodeAt val i with
        | Some c1 =>
            if bool_decide (c1 < 128) then
              byteLength_loop fuel' val strlen (i + 1) (len + 1)
            else if bool_decide (c1 < 2048) then
              byteLength_loop fuel' val strlen (i + 1) (len + 2)
            else if bool_decide (band c1 0xFC00 = 0xD800)
                    && bool_decide (band_nan (charCodeAt val (i + 1)) 0xFC00 = 0xDC00) then
              byteLength_loop fuel' val strlen (i + 1 + 1) (len + 4)
            else
              byteLength_loop fuel' val strlen (i + 1) (len + 3)
        | None =>
            (* c1 is NaN: every comparison fails and NaN & 0xFC00 is 0 *)
            byteLength_loop fuel' val strlen (i + 1) (len + 3)
        end
      else len
  end.

Definition byteLength (val : list Z) : Z :=
  byteLength_loop (S (length val)) val (ToUint32 (Z.of_nat (length val))) 0 0.

(** ** Operations, states and the writer *)

(** The functions an Op can hold. *)
Inductive Fn :=
  | noop | fn_writeByte | fn_writeVarint32 | fn_writeVarint64
  | fn_writeFixed32 | fn_writeBytes | fn_writeString.

(** The values an Op can hold. *)
Inductive Value :=
  | VNum (n : Z)
  | VLong (b : LongBits.t)
  | VBytes (b : list Z)
  | VString (s : list Z).

(** [head.fn(buf, pos, head.val)].  The writer only ever pairs a function
    with a value of the kind it expects; other pairs store nothing here. *)
Definition call (f : Fn) (pos : Z) (v : Value) : Stores :=
  match f, v with
  | fn_writeByte, VNum n => writeByte pos n
  | fn_writeVarint32, VNum n => writeVarint32 pos n
  | fn_writeVarint64, VLong b => writeVarint64 pos b
  | fn_writeFixed32, VNum n => writeFixed32 pos n
  | fn_writeBytes, VBytes b => writeBytes pos b
  | fn_writeString, VString s => writeString pos s
  | _, _ => []
  end.

(** An address of an Op object in the heap. *)
Abbreviation addr := nat.

Record Op := mkOp { op_fn : Fn; op_val : Value; op_len : Z; op_next : option addr }.

(** [State]: the saved head, tail and len; [State.next] is the rest of the
    list of states the writer holds. *)
Record State := mkState { st_head : addr; st_tail : addr; st_len : Z }.

Record Writer := mkWriter {
  heap : list Op;
  len : Z;
  head : addr;
  tail : addr;
  states : list State
}.

(** [o.next = n] on the Op at address [a]. *)
Definition set_next (h : list Op) (a : addr) (n : option addr) : list Op :=
  alter (fun o => mkOp (op_fn o) (op_val o) (op_len o) n) a h.

(** [new Writer()] *)
Definition Writer_new : Writer :=
  mkWriter [mkOp noop (VNum 0) 0 None] 0 0%nat 0%nat [].

(** [push(fn, len, val)] *)
Definition push (f : Fn) (l : Z) (v : Value) (w : Writer) : Writer :=
  let op := length (heap w) in
  let h := heap w ++ [mkOp f v l None] in
  mkWriter (set_next h (tail w) (Some op)) (len w + l) (head w) op (states w).

(** [tag(id, wireType)] *)
Definition tag (id wireType : Z) (w : Writer) : Writer :=
  push fn_writeByte 1 (VNum (bor (shl id 3) (band wireType 7))) w.

(** [uint32(value)] *)
Definition uint32 (value : Z) (w : Writer) : Writer :=
  let value := shr value 0 in
  if bool_decide (value < 128) then push fn_writeByte 1 (VNum value) w
  else push fn_writeVarint32
         (if bool_decide (value < 16384) then 2
          else if bool_decide (value < 2097152) then 3
          else if bool_decide (value < 268435456) then 4
          else 5)
         (VNum value) w.

(** [int32(value)] *)
Definition int32 (value : Z) (w : Writer) : Writer :=
  if bool_decide (value < 0)
  then push fn_writeVarint64 10 (VLong (LongBits.fromNumber value)) w
  else uint32 value w.

(** [sint32(value)] *)
Definition sint32 (value : Z) (w : Writer) : Writer :=
  uint32 (bxor (shl value 1) (sar value 31)) w.

(** [uint64(value)], also [int64] *)
Definition uint64 (value : Z) (w : Writer) : Writer :=
  let bits := LongBits.from value in
  push fn_writeVarint64 (LongBits.length bits) (VLong bits) w.

Definition int64 := uint64.

(** [sint64(value)] *)
Definition sint64 (value : Z) (w : Writer) : Writer :=
  let bits := LongBits.zzEncode (LongBits.from value) in
  push fn_writeVarint64 (LongBits.length bits) (VLong bits) w.

(** [bool(value)] *)
Definition bool_ (value : bool) (w : Writer) : Writer :=
  push fn_writeByte 1 (VNum (if value then 1 else 0)) w.

(** [fixed32(value)] *)
Definition fixed32 (value : Z) (w : Writer) : Writer :=
  push fn_writeFixed32 4 (VNum (shr value 0)) w.

(** [sfixed32(value)] *)
Definition sfixed32 (value : Z) (w : Writer) : Writer :=
  push fn_writeFixed32 4 (VNum (bxor (shl value 1) (sar value 31))) w.

(** [fixed64(value)], on the LongBits that [LongBits.from(value)] returned:
    [this.push(writeFixed32, 4, bits.hi).push(writeFixed32, 4, bits.lo)],
    the push of [bits.hi] first. *)
Definition fixed64_bits (bits : LongBits.t) (w : Writer) : Writer :=
  push fn_writeFixed32 4 (VNum (LongBits.lo bits))
    (push fn_writeFixed32 4 (VNum (LongBits.hi bits)) w).

Definition fixed64 (value : Z) (w : Writer) : Writer :=
  fixed64_bits (LongBits.from value) w.

(** [sfixed64(value)] *)
Definition sfixed64 (value : Z) (w : Writer) : Writer :=
  fixed64_bits (LongBits.zzEncode (LongBits.from value)) w.

(** [bytes(value)] *)
Definition bytes (value : list Z) (w : Writer) : Writer :=
  let l := shr (Z.of_nat (length value)) 0 in
  if bool_decide (l <> 0) then push fn_writeBytes l (VBytes value) (uint32 l w)
  else push fn_writeByte 1 (VNum 0) w.

(** [string(value)] *)
Definition string (value : list Z) (w : Writer) : Writer :=
  let l := byteLength value in
  if bool_decide (l <> 0) then push fn_writeString l (VString value) (uint32 l w)
  else push fn_writeByte 1 (VNum 0) w.

(** [fork()] *)
Definition fork (w : Writer) : Writer :=
  let op := length (heap w) in
  mkWriter (heap w ++ [mkOp noop (VNum 0) 0 None]) 0 op op
    (mkState (head w) (tail w) (len w) :: states w).

(** [reset()] *)
Definition reset (w : Writer) : Writer :=
  match states w with
  | s :: rest => mkWriter (heap w) (st_len s) (st_head s) (st_tail s) rest
  | [] =>
      let op := length (heap w) in
      mkWriter (heap w ++ [mkOp noop (VNum 0) 0 None]) 0 op op []
  end.

(** [head.next] of the Op at [a] *)
Definition next_of (h : list Op) (a : addr) : option addr :=
  h !! a ≫= op_next.

(** [ldelim(id)]; [None] is a call without an id. *)
Definition ldelim (id : option Z) (w : Writer) : Writer :=
  let head0 := head w in
  let tail0 := tail w in
  let len0 := len w in
  let w := reset w in
  let w := match id with Some id => tag id 2 w | None => w end in
  let w := uint32 len0 w in
  mkWriter (set_next (heap w) (tail w) (next_of (heap w) head0))
    (len w + len0) (head w) tail0 (states w).

(** [finish_internal(head, buf)]: the walk over the queue.  A walk that is
    still inside the queue after as many steps as there are Ops in the heap
    is on a cycle and never returns; that is [None]. *)
Fixpoint finish_internal (fuel : nat) (h : list Op) (hd : option addr)
    (pos : Z) (buf : Buf) : option Buf :=
  match hd with
  | None => Some buf
  | Some a =>
      match fuel with
      | O => None
      | S fuel' =>
          match h !! a with
          | None => None
          | Some op =>
              finish_internal fuel' h (op_next op) (pos + op_len op)
                (apply_stores (call (op_fn op) pos (op_val op)) buf)
          end
      end
  end.

(** [finish()]: the buffer, and the writer as [reset] leaves it. *)
Definition finish (w : Writer) : option Buf * Writer :=
  let hd := next_of (heap w) (head w) in
  let buf := new_buf (len w) in
  let w' := reset w in
  (finish_internal (length (heap w')) (heap w') hd 0 buf, w').

(** ** Sequences of calls *)

(** The public operations of a writer, [finish] apart.  [float] and
    [double] are left out: their emit functions reinterpret IEEE-754
    values, which this development does not model. *)
Inductive Cmd :=
  | CTag (id wireType : Z)
  | CUint32 (v : Z) | CInt32 (v : Z) | CSint32 (v : Z)
  | CUint64 (v : Z) | CInt64 (v : Z) | CSint64 (v : Z)
  | CBool (b : bool)
  | CFixed32 (v : Z) | CSfixed32 (v : Z)
  | CFixed64 (v : Z) | CSfixed64 (v : Z)
  | CBytes (b : list Z) | CString (s : list Z)
  | CFork | CReset | CLdelim (id : option Z).

Definition step (c : Cmd) (w : Writer) : Writer :=
  match c with
  | CTag id wt => tag id wt w
  | CUint32 v => uint32 v w
  | CInt32 v => int32 v w
  | CSint32 v => sint32 v w
  | CUint64 v => uint64 v w
  | CInt64 v => int64 v w
  | CSint64 v => sint64 v w
  | CBool b => bool_ b w
  | CFixed32 v => fixed32 v w
  | CSfixed32 v => sfixed32 v w
  | CFixed64 v => fixed64 v w
  | CSfixed64 v => sfixed64 v w
  | CBytes b => bytes b w
  | CString s => string s w
  | CFork => fork w
  | CReset => reset w
  | CLdelim id => ldelim id w
  end.

(** The calls of [cs] in order, on [w]. *)
Definition run (cs : list Cmd) (w : Writer) : Writer :=
  foldl (fun w c => step c w) w cs.

(** The calls that only enqueue: every one but [fork], [reset], [ldelim]. *)
Definition scalar (c : Cmd) : bool :=
  match c with
  | CFork | CReset | CLdelim _ => false
  | _ => true
  end.

(** What [push] is given: the function, the length and the value. *)
Definition Entry := (Fn * Z * Value)%type.

Definition push_entry (w : Writer) (e : Entry) : Writer :=
  push (fst (fst e)) (snd (fst e)) (snd e) w.

Definition pushes (es : list Entry) (w : Writer) : Writer := foldl push_entry w es.

(** ** Reading the output

    What follows is used to state what the writer's output is; none of it
    is code of the writer. *)

(** The bytes a sequence of stores leaves in a [Uint8Array], in order, and
    the indices they go to. *)
Definition stored (st : Stores) : list Z := map (fun pv => snd pv mod 256) st.

Definition positions (st : Stores) : list Z := map fst st.

(** The number of 7-bit groups of an unsigned 32-bit value. *)
Definition varint_size (u : Z) : Z :=
  if bool_decide (u < 2 ^ 7) then 1
  else if bool_decide (u < 2 ^ 14) then 2
  else if bool_decide (u < 2 ^ 21) then 3
  else if bool_decide (u < 2 ^ 28) then 4
  else 5.

(** Group [k] of an [n]-byte varint of [u]: seven payload bits, least
    significant group first, and the continuation bit on every byte but
    the last. *)
Definition varint_group (u : Z) (n k : nat) : Z :=
  (u / 2 ^ (7 * Z.of_nat k)) mod 128 + (if bool_decide (k + 1 < n)%nat then 128 else 0).

Definition varint_stores (pos u : Z) (n : nat) : Stores :=
  map (fun k => (pos + Z.of_nat k, varint_group u n k)) (seq 0 n).

(** Modelled from the spec: the reader is not among the sources; a varint
    is decoded by adding up the 7-bit payloads, least significant first,
    until a byte without the continuation bit. *)
Fixpoint decode_varint (bs : list Z) : Z :=
  match bs with
  | [] => 0
  | b :: rest => if bool_decide (b < 128) then b else (b - 128) + 128 * decode_varint rest
  end.

(** Modelled from the spec: the reader is not among the sources; the
    inverse of the 32-bit zig-zag map is [(n >>> 1) ^ -(n & 1)]. *)
Definition zigzag_decode32 (n : Z) : Z := bxor (shr n 1) (- band n 1).

(** The four bytes of an unsigned 32-bit value, least significant first. *)
Definition le32 (x : Z) : list Z :=
  [x mod 256; x / 2 ^ 8 mod 256; x / 2 ^ 16 mod 256; x / 2 ^ 24 mod 256].

(** ** The queue as a list

    Used to state what a queue holds and what [finish] makes of it. *)

(** The Op objects that [es] become when pushed one after the other from
    address [a] on: each is linked to the next address, the last to
    nothing. *)
Fixpoint chain (a : addr) (es : list Entry) : list Op :=
  match es with
  | [] => []
  | e :: r =>
      mkOp (fst (fst e)) (snd e) (snd (fst e))
        (match r with [] => None | _ :: _ => Some (S a) end)
      :: chain (S a) r
  end.

(** The head sentinel, [new Op(noop, 0, 0)], as an entry. *)
Definition sentinel : Entry := (noop, 0, VNum 0).

(** The stores of the ops of [es] called in order from position [pos],
    each op advancing the position by its length. *)
Fixpoint emit_stores (pos : Z) (es : list Entry) : Stores :=
  match es with
  | [] => []
  | e :: r => call (fst (fst e)) pos (snd e) ++ emit_stores (pos + snd (fst e)) r
  end.

(** The sum of the lengths of [es]. *)
Definition total_len (es : list Entry) : Z := foldr (fun e s => snd (fst e) + s) 0 es.

(** A writer whose current frame is a chain at the end of the heap, after
    the Ops [h]: the sentinel, then the ops [es]. *)
Definition on_chain (w : Writer) (h : list Op) (es : list Entry) (l0 : Z) : Prop :=
  heap w = h ++ chain (length h) (sentinel :: es)
  /\ head w = length h
  /\ tail w = (length h + length es)%nat
  /\ len w = l0 + total_len es.

(** The Ops of [es] sit at the consecutive addresses from [a] on, each
    linked to the next, and the last one to [nxt]. *)
Definition seg (h : list Op) (a : addr) (es : list Entry) (nxt : option addr) : Prop :=
  forall (i : nat) (e : Entry),
    es !! i = Some e ->
    h !! (a + i)%nat
    = Some (mkOp (fst (fst e)) (snd e) (snd (fst e))
              (if decide (S i < length es)%nat then Some (a + S i)%nat else nxt)).

(** An op that stores exactly its length: [len] bytes at the positions
    [pos, pos + 1, ...], the same bytes wherever it is called. *)
Definition exact (e : Entry) : Prop :=
  1 <= snd (fst e)
  /\ forall pos,
       positions (call (fst (fst e)) pos (snd e)) = seqZ pos (snd (fst e))
       /\ stored (call (fst (fst e)) pos (snd e)) = stored (call (fst (fst e)) 0 (snd e)).

(** Arguments within the types the calls are documented for: a signed
    32-bit number for [int32], and byte arrays and strings shorter than
    2^32. *)
Definition in_range (c : Cmd) : Prop :=
  match c with
  | CInt32 v => - 2 ^ 31 <= v < 2 ^ 31
  | CBytes b => Z.of_nat (length b) < 2 ^ 32
  | CString s => Z.of_nat (length s) < 2 ^ 32
  | _ => True
  end.

(** What [uint32(v)] pushes. *)
Definition uint32_entry (v : Z) : Entry :=
  (if bool_decide (ToUint32 v < 128) then fn_writeByte else fn_writeVarint32,
   varint_size (ToUint32 v), VNum (ToUint32 v)).

(** What [ldelim(id)] pushes before it splices a frame of length [l]: the
    tag, when there is an id, and the length. *)
Definition prefix_entries (id : option Z) (l : Z) : list Entry :=
  match id with
  | Some id => [(fn_writeByte, 1, VNum (bor (shl id 3) (band 2 7)))]
  | None => []
  end ++ [uint32_entry l].

(** The ops reachable from [hd] by [next], in order; [None] when the walk
    does not end within [fuel] steps or leaves the heap. *)
Fixpoint ops_from (fuel : nat) (h : list Op) (hd : option addr) : option (list Op) :=
  match hd with
  | None => Some []
  | Some a =>
      match fuel with
      | O => None
      | S fuel' =>
          match h !! a with
          | None => None
          | Some op => cons op <$> ops_from fuel' h (op_next op)
          end
      end
  end.

(** The ops reachable from [head.next]. *)
Definition queue (w : Writer) : option (list Op) :=
  ops_from (length (heap w)) (heap w) (next_of (heap w) (head w)).

(** The sum of [op.len] over the ops reachable from [head.next]. *)
Definition queue_len (w : Writer) : option Z :=
  (fun ops => foldr (fun o s => op_len o + s) 0 ops) <$> queue w.

(** Invariant 1 of the spec: [len] is the sum of the lengths of the ops
    reachable from [head.next]. *)
Definition len_invariant (w : Writer) : Prop := queue_len w = Some (len w).

(** The buffer [finish] would return for the frame with head [hd] and
    length [l] in heap [h]. *)
Definition frame_buffer (h : list Op) (hd : addr) (l : Z) : option Buf :=
  finish_internal (length h) h (next_of h hd) 0 (new_buf l).

(** The other way to write a sub-message, as the spec words it: serialize
    the inner calls [inner] on a writer of their own to a buffer [B], then
    emit on the outer writer [tag(id, 2)] when there is an id, [uint32] of
    the length of [B] and the bytes of [B] (that pair is what [bytes(B)]
    enqueues). *)
Definition ldelim_by_buffer (id : option Z) (inner : list Cmd) (w : Writer) : option Writer :=
  match fst (finish (run inner Writer_new)) with
  | None => None
  | Some B =>
      let w := match id with Some id => tag id 2 w | None => w end in
      Some (bytes B w)
  end.

(** A sub-message written with [fork(); inner; ldelim(id)], between the
    calls [before] and [after], finished. *)
Definition via_fork (before inner after : list Cmd) (id : option Z) : option Buf :=
  fst (finish (run after (ldelim id (run inner (fork (run before Writer_new)))))).

(** The same sub-message written through a buffer of its own. *)
Definition via_buffer (before inner after : list Cmd) (id : option Z) : option Buf :=
  match ldelim_by_buffer id inner (run before Writer_new) with
  | Some w => fst (finish (run after w))
  | None => None
  end.

(** What the spec allows [finish] to do while a fork is open: fail, or
    return the outer frame alone; and never the current frame alone. *)
Definition unbalanced_finish_outer_or_fail (w : Writer) : Prop :=
  match states w with
  | [] => True
  | s :: _ =>
      (fst (finish w) = None
       \/ fst (finish w) = frame_buffer (heap w) (st_head s) (st_len s))
      /\ fst (finish w) <> frame_buffer (heap w) (head w) (len w)
  end.

(** ** More of the writer, and more ways to read its output *)

(** [BufferWriter.prototype.finish] ([finish_buffer]): as [finish], but on
    the buffer that [util.Buffer.allocUnsafe(this.len)] returns, which is
    not cleared: [alloc] is that buffer, with whatever it holds. *)
Definition finish_buffer (alloc : Buf) (w : Writer) : option Buf * Writer :=
  let hd := next_of (heap w) (head w) in
  let buf := alloc in
  let w' := reset w in
  (finish_internal (length (heap w')) (heap w') hd 0 buf, w').

(** The scalar writes a [BufferWriter] inherits unchanged from [Writer]:
    all but [string], which it overrides.  ([bytes] is overridden only
    where Buffer has no [set], by a function that copies the same bytes.) *)
Definition inherited (c : Cmd) : bool :=
  scalar c && match c with CString _ => false | _ => true end.

(** The buffer that the calls [cs] give on a fresh writer. *)
Definition output (cs : list Cmd) : option Buf := fst (finish (run cs Writer_new)).

(** An unsigned 32-bit value from its four bytes, least significant
    first. *)
Definition decode_le32 (bs : list Z) : Z := foldr (fun b acc => b + 256 * acc) 0 bs.

(** The code points of a string given by its UTF-16 code units: a high
    surrogate followed by a low surrogate is one code point above
    [0xFFFF]; every other code unit, a lone surrogate too, stands for
    itself. *)
Fixpoint code_points (s : list Z) : list Z :=
  match s with
  | [] => []
  | c1 :: r =>
      match r with
      | c2 :: r' =>
          if bool_decide (0xD800 <= c1 < 0xDC00) && bool_decide (0xDC00 <= c2 < 0xE000)
          then 0x10000 + (c1 - 0xD800) * 1024 + (c2 - 0xDC00) :: code_points r'
          else c1 :: code_points r
      | [] => [c1]
      end
  end.

(** Modelled from the spec: the reader is not among the sources; this is
    the UTF-8 table of the spec read backwards, the lead byte telling how
    many bytes make the code point. *)
Fixpoint utf8_decode (bs : list Z) : list Z :=
  match bs with
  | [] => []
  | b0 :: r0 =>
      if bool_decide (b0 < 0x80) then b0 :: utf8_decode r0
      else
        match r0 with
        | [] => []
        | b1 :: r1 =>
            if bool_decide (b0 < 0xE0) then
              (b0 - 0xC0) * 64 + (b1 - 0x80) :: utf8_decode r1
            else
              match r1 with
              | [] => []
              | b2 :: r2 =>
                  if bool_decide (b0 < 0xF0) then
                    (b0 - 0xE0) * 4096 + (b1 - 0x80) * 64 + (b2 - 0x80) :: utf8_decode r2
                  else
                    match r2 with
                    | [] => []
                    | b3 :: r3 =>
                        (b0 - 0xF0) * 262144 + (b1 - 0x80) * 4096
                        + (b2 - 0x80) * 64 + (b3 - 0x80) :: utf8_decode r3
                    end
              end
        end
  end.

(** A varint as a reader wants it: every byte but the last has the
    continuation bit, the last has not, and the last is not zero unless it
    is the only byte. *)
Definition canonical_varint (bs : list Z) : Prop :=
  exists front l,
    bs = front ++ [l]
    /\ Forall (fun b => 128 <= b < 256) front
    /\ 0 <= l < 128
    /\ (front <> [] -> l <> 0).

(** The bytes in front of a length-delimited field of [l] bytes: the tag
    byte of wire type 2, when there is an id, and the varint of [l]. *)
Definition delimiter (id : option Z) (l : Z) : list Z :=
  match id with Some id => [(id * 8 + 2) mod 256] | None => [] end
  ++ stored (varint_stores 0 l (Z.to_nat (varint_size l))).

(** ** Frames as linked lists

    Used to state what the queue holds once [ldelim] has spliced frames
    into one another, when the Ops of a frame no longer sit at consecutive
    addresses. *)

(** The ops of a frame behind its head: the address and the entry of
    each, in order. *)
Abbreviation Nodes := (list (addr * Entry)).

(** A frame: the address of its head and the ops behind it. *)
Abbreviation Frame := (addr * Nodes)%type.

(** From the Op at [a], following [next], the heap holds the ops [ns] at
    their addresses, and the last of them (the Op at [a] when there is
    none) has [nxt] as its [next]. *)
Fixpoint lseg (h : list Op) (a : addr) (ns : Nodes) (nxt : option addr) : Prop :=
  match ns with
  | [] => exists o, h !! a = Some o /\ op_next o = nxt
  | (b, e) :: r =>
      (exists o, h !! a = Some o /\ op_next o = Some b)
      /\ (exists n, h !! b = Some (mkOp (fst (fst e)) (snd e) (snd (fst e)) n))
      /\ lseg h b r nxt
  end.

(** The address of the last Op of a frame: its tail. *)
Definition last_addr (a : addr) (ns : Nodes) : addr := List.last (map fst ns) a.

Definition frame_addrs (f : Frame) : list addr := fst f :: map fst (snd f).

Definition frame_entries (f : Frame) : list Entry := map snd (snd f).

Definition all_addrs (fs : list Frame) : list addr := concat (map frame_addrs fs).

(** The heap holds the frames [fs], each a list ending in [null], and no
    Op belongs to two of them or twice to one. *)
Definition heap_ok (h : list Op) (fs : list Frame) : Prop :=
  Forall (fun f => lseg h (fst f) (snd f) None) fs /\ NoDup (all_addrs fs).

(** [head], [tail] and [len] of the writer are those of the frame [f]. *)
Definition current (w : Writer) (f : Frame) : Prop :=
  head w = fst f /\ tail w = last_addr (fst f) (snd f)
  /\ len w = total_len (frame_entries f).

(** The [State] that [fork] saves for the frame [f]. *)
Definition saved (f : Frame) : State :=
  mkState (fst f) (last_addr (fst f) (snd f)) (total_len (frame_entries f)).

(** The writer holds the frames [fs], the current one first, then the
    forked ones from the innermost out. *)
Definition holds (w : Writer) (fs : list Frame) : Prop :=
  match fs with
  | [] => False
  | f :: rest => current w f /\ states w = map saved rest /\ heap_ok (heap w) fs
  end.

(** ** Nested sub-messages: what the calls should produce *)

(** One call on the byte strings of the open frames, the current one
    first: a scalar write appends its bytes; [fork] opens an empty frame;
    [reset] drops the current frame, or empties the only one; [ldelim]
    closes the current frame into the one that was forked, by tag, length
    and bytes.  [None] where this development says nothing: [ldelim] with
    no fork open, or on a frame without a byte, or of 2^32 bytes or
    more. *)
Definition ref_step (c : Cmd) (fs : list (list Z)) : option (list (list Z)) :=
  match c with
  | CFork => Some ([] :: fs)
  | CReset =>
      match fs with
      | _ :: outer :: rest => Some (outer :: rest)
      | _ => Some [[]]
      end
  | CLdelim id =>
      match fs with
      | inner :: outer :: rest =>
          if bool_decide (inner <> [] /\ Z.of_nat (length inner) < 2 ^ 32)
          then Some ((outer ++ delimiter id (Z.of_nat (length inner)) ++ inner) :: rest)
          else None
      | _ => None
      end
  | _ =>
      match fs, output [c] with
      | cur :: rest, Some b => Some ((cur ++ b) :: rest)
      | _, _ => None
      end
  end.

Fixpoint ref_run (cs : list Cmd) (fs : list (list Z)) : option (list (list Z)) :=
  match cs with
  | [] => Some fs
  | c :: r =>
      match ref_step c fs with
      | Some fs' => ref_run r fs'
      | None => None
      end
  end.

(** The frames [fs] of ops store the byte strings [bs], frame by frame. *)
Definition frames_store (fs : list Frame) (bs : list (list Z)) : Prop :=
  Forall2 (fun f b => Forall exact (frame_entries f)
                      /\ stored (emit_stores 0 (frame_entries f)) = b) fs bs.

(** ** Enqueueing one op *)

(** The call [k] enqueues exactly the one op [e].  On a writer that holds
    frames, in whatever state, the current frame gets [e] as its new last
    op, in a new Op object, and the other frames and the saved states
    stay as they are.  On a fresh writer the queue that [finish] walks is
    that op alone.  And behind any scalar writes in range, [finish]
    returns their bytes followed by the bytes that [e] stores, and [len]
    has grown by the length of [e]. *)
Definition enqueues_one (k : Writer -> Writer) (e : Entry) : Prop :=
  (forall w hd ns fs,
     holds w ((hd, ns) :: fs) ->
     holds (k w) ((hd, ns ++ [(length (heap w), e)]) :: fs))
  /\ queue (k Writer_new) = Some [mkOp (fst (fst e)) (snd e) (snd (fst e)) None]
  /\ (forall cs b,
        forallb scalar cs = true -> Forall in_range cs -> output cs = Some b ->
        fst (finish (k (run cs Writer_new)))
        = Some (b ++ stored (call (fst (fst e)) 0 (snd e)))
        /\ len (k (run cs Writer_new)) = Z.of_nat (length b) + snd (fst e)).

(** ** Facts about the integer operators *)

Section js_facts.

Local Ltac pow_consts :=
  change (2 ^ 32) with 4294967296 in *;
  change (2 ^ 31) with 2147483648 in *.

Lemma ToInt32_id (x : Z) : - 2 ^ 31 <= x < 2 ^ 31 -> ToInt32 x = x.
Proof. unfold ToInt32. pow_consts. intros H. Z.div_mod_to_equations. lia. Qed.

Lemma ToUint32_id (x : Z) : 0 <= x < 2 ^ 32 -> ToUint32 x = x.
Proof. unfold ToUint32. intros H. apply Z.mod_small. lia. Qed.

Lemma ToUint32_range (x : Z) : 0 <= ToUint32 x < 2 ^ 32.
Proof. unfold ToUint32. apply Z.mod_pos_bound. lia. Qed.

Lemma ToInt32_range (x : Z) : - 2 ^ 31 <= ToInt32 x < 2 ^ 31.
Proof. unfold ToInt32. pow_consts. Z.div_mod_to_equations. lia. Qed.

(** [ToInt32] changes a number by a multiple of 2^32. *)
Lemma ToInt32_eqm (x : Z) : exists q, ToInt32 x = x + 2 ^ 32 * q.
Proof.
  exists (- ((x + 2 ^ 31) / 2 ^ 32)). unfold ToInt32. pow_consts.
  Z.div_mod_to_equations. lia.
Qed.

Lemma ToInt32_mod_pow2 (x k : Z) :
  0 <= k <= 32 -> ToInt32 x mod 2 ^ k = x mod 2 ^ k.
Proof.
  intros Hk. destruct (ToInt32_eqm x) as [q ->].
  replace (2 ^ 32) with (2 ^ (32 - k) * 2 ^ k)
    by (rewrite <- Z.pow_add_r by lia; f_equal; lia).
  replace (x + 2 ^ (32 - k) * 2 ^ k * q) with (x + 2 ^ (32 - k) * q * 2 ^ k) by ring.
  apply Z.mod_add. apply Z.pow_nonzero; lia.
Qed.

Lemma ToUint32_ToInt32 (x : Z) : ToUint32 (ToInt32 x) = ToUint32 x.
Proof. unfold ToUint32. apply ToInt32_mod_pow2. lia. Qed.

(** Masking with [2^k - 1] keeps the low [k] bits, whatever the sign. *)
Lemma band_ones (x k : Z) : 0 <= k < 32 -> band x (Z.ones k) = x mod 2 ^ k.
Proof.
  intros Hk. unfold band.
  rewrite (ToInt32_id (Z.ones k)).
  - rewrite Z.land_ones by lia. apply ToInt32_mod_pow2. lia.
  - rewrite Z.ones_equiv.
    assert (0 < 2 ^ k) by (apply Z.pow_pos_nonneg; lia).
    assert (2 ^ k <= 2 ^ 31) by (apply Z.pow_le_mono_r; lia).
    lia.
Qed.

Lemma band_255 (x : Z) : band x 255 = x mod 256.
Proof. apply (band_ones x 8). lia. Qed.

Lemma band_127 (x : Z) : band x 127 = x mod 128.
Proof. apply (band_ones x 7). lia. Qed.

Lemma band_7 (x : Z) : band x 7 = x mod 8.
Proof. apply (band_ones x 3). lia. Qed.

Lemma band_1 (x : Z) : band x 1 = x mod 2.
Proof. apply (band_ones x 1). lia. Qed.

(** Two numbers without a common bit: [|] is [+]. *)
Lemma lor_disjoint_add (a b : Z) : Z.land a b = 0 -> Z.lor a b = a + b.
Proof. intros H. pose proof (Z.add_lor_land a b). lia. Qed.

Lemma land_low_high (a b k : Z) :
  0 <= k -> 0 <= a < 2 ^ k -> Z.land a (2 ^ k * b) = 0.
Proof.
  intros Hk Ha. apply Z.bits_inj'. intros n Hn.
  rewrite Z.land_spec, Z.bits_0.
  destruct (Z.lt_ge_cases n k) as [Hlt | Hge].
  - rewrite (Z.mul_comm (2 ^ k)), Z.mul_pow2_bits_low by lia.
    apply andb_false_r.
  - replace a with (a mod 2 ^ k) by (apply Z.mod_small; lia).
    rewrite Z.mod_pow2_bits_high by lia. reflexivity.
Qed.

(** Setting the continuation bit on a 7-bit group. *)
Lemma bor_128 (a : Z) : 0 <= a < 128 -> bor a 128 = a + 128.
Proof.
  intros Ha. unfold bor.
  rewrite !ToInt32_id by (change (2 ^ 31) with 2147483648; lia).
  apply lor_disjoint_add. apply (land_low_high a 1 7); lia.
Qed.

Lemma shr_div (x n : Z) : 0 <= n < 32 -> shr x n = ToUint32 x / 2 ^ n.
Proof.
  intros Hn. unfold shr. rewrite Z.mod_small by lia.
  apply Z.shiftr_div_pow2. lia.
Qed.

Lemma shr_0 (x : Z) : shr x 0 = ToUint32 x.
Proof. rewrite shr_div by lia. apply Z.div_1_r. Qed.

Lemma sar_div (x n : Z) : 0 <= n < 32 -> sar x n = ToInt32 x / 2 ^ n.
Proof.
  intros Hn. unfold sar. rewrite Z.mod_small by lia.
  apply Z.shiftr_div_pow2. lia.
Qed.

Lemma shl_mul (x n : Z) : 0 <= n < 32 -> shl x n = ToInt32 (ToInt32 x * 2 ^ n).
Proof.
  intros Hn. unfold shl. rewrite Z.mod_small by lia.
  rewrite Z.shiftl_mul_pow2 by lia. reflexivity.
Qed.

End js_facts.

(** ** Tags *)

(** The low eight bits of [id << 3 | wireType & 7]. *)
Lemma tag_value_low8 (id wt : Z) :
  band (bor (shl id 3) (band wt 7)) 255 = (id * 8 + wt mod 8) mod 256.
Proof.
  rewrite band_255, band_7. unfold bor.
  rewrite <- (Z.land_ones _ 8) by lia.
  rewrite Z.land_lor_distr_l, !Z.land_ones by lia.
  rewrite !(ToInt32_mod_pow2 _ 8) by lia.
  rewrite shl_mul by lia. rewrite (ToInt32_mod_pow2 _ 8) by lia.
  change (2 ^ 3) with 8. change (2 ^ 8) with 256.
  assert (Hlo : (wt mod 8) mod 256 = wt mod 8)
    by (apply Z.mod_small; pose proof (Z.mod_pos_bound wt 8); lia).
  assert (Hhi : exists m, 0 <= m < 32 /\ (ToInt32 id * 8) mod 256 = 2 ^ 3 * m
                          /\ (id * 8 + wt mod 8) mod 256 = 8 * m + wt mod 8).
  { exists (id mod 32). destruct (ToInt32_eqm id) as [q ->].
    change (2 ^ 32) with 4294967296. change (2 ^ 3) with 8.
    pose proof (Z.mod_pos_bound wt 8).
    repeat split; Z.div_mod_to_equations; lia. }
  destruct Hhi as (m & Hm & -> & ->). rewrite Hlo.
  rewrite Z.lor_comm, lor_disjoint_add.
  - change (2 ^ 3) with 8. lia.
  - apply land_low_high; [lia|]. change (2 ^ 3) with 8. apply Z.mod_pos_bound. lia.
Qed.

(** What [tag(id, wt)] hands to [push], and the byte that op stores: the
    low eight bits of [(id << 3) | (wt & 7)], for every id and wire type;
    for [id < 16] and [wt < 8] the byte is [(id << 3) | wt] itself. *)
Lemma tag_push_byte (w : Writer) (id wt pos : Z) :
  let v := bor (shl id 3) (band wt 7) in
  let b := (id * 8 + wt mod 8) mod 256 in
  tag id wt w = push fn_writeByte 1 (VNum v) w
  /\ len (tag id wt w) = len w + 1
  /\ length (heap (tag id wt w)) = S (length (heap w))
  /\ call fn_writeByte pos (VNum v) = [(pos, b)]
  /\ stored (call fn_writeByte pos (VNum v)) = [b]
  /\ (0 <= id < 16 -> 0 <= wt < 8 -> b = Z.lor (Z.shiftl id 3) wt).
Proof.
  cbv zeta. split; [reflexivity|]. split; [reflexivity|].
  split.
  { unfold tag, push, set_next. cbn [heap].
    rewrite length_alter, length_app. cbn. lia. }
  split; [cbn [call]; unfold writeByte; by rewrite tag_value_low8|].
  split.
  { cbn [call]. unfold writeByte, stored. cbn [map snd].
    rewrite tag_value_low8, Z.mod_mod by lia. reflexivity. }
  intros Hid Hwt. rewrite Z.shiftl_mul_pow2 by lia. change (2 ^ 3) with 8.
  rewrite lor_disjoint_add.
  - rewrite (Z.mod_small wt 8) by lia. apply Z.mod_small. lia.
  - rewrite Z.land_comm, Z.mul_comm. apply (land_low_high wt id 3); lia.
Qed.

(** ** 32-bit varints *)

Lemma writeVarint32_loop_more (fuel : nat) (pos val : Z) :
  val > 127 ->
  writeVarint32_loop (S fuel) pos val
  = (pos, val mod 128 + 128) :: writeVarint32_loop fuel (pos + 1) (ToUint32 val / 128).
Proof.
  intros Hv. cbn [writeVarint32_loop]. rewrite bool_decide_eq_true_2 by done.
  rewrite band_127, bor_128 by (apply Z.mod_pos_bound; lia).
  rewrite shr_div by lia. reflexivity.
Qed.

Lemma writeVarint32_loop_last (fuel : nat) (pos val : Z) :
  val <= 127 -> writeVarint32_loop fuel pos val = [(pos, val)].
Proof.
  intros Hv. destruct fuel; cbn [writeVarint32_loop];
    rewrite bool_decide_eq_false_2 by lia; reflexivity.
Qed.

Lemma writeVarint32_loop_fuel (n fuel : nat) (pos val : Z) :
  (n <= fuel)%nat -> 0 <= val < 2 ^ 32 -> val < 128 * 128 ^ Z.of_nat n ->
  writeVarint32_loop fuel pos val = writeVarint32_loop n pos val.
Proof.
  revert fuel pos val. induction n as [|n IH]; intros fuel pos val Hf Hv Hb.
  - change (128 ^ Z.of_nat 0) with 1 in Hb.
    by rewrite !writeVarint32_loop_last by lia.
  - destruct (Z_le_gt_dec val 127) as [Hle | Hgt];
      [by rewrite !writeVarint32_loop_last|].
    destruct fuel as [|fuel]; [lia|].
    rewrite (writeVarint32_loop_more fuel), (writeVarint32_loop_more n) by done.
    f_equal. rewrite ToUint32_id by done.
    assert (0 <= val / 128 <= val)
      by (split; [apply Z.div_pos; lia | apply Z.div_le_upper_bound; lia]).
    apply IH; [lia | lia |].
    apply Z.div_lt_upper_bound; [lia|].
    rewrite Nat2Z.inj_succ, Z.pow_succ_r in Hb by lia. lia.
Qed.

(** Five rounds are enough for every number: more fuel changes nothing. *)
Lemma writeVarint32_fuel (k : nat) (pos val : Z) :
  writeVarint32_loop (5 + k) pos val = writeVarint32 pos val.
Proof.
  unfold writeVarint32.
  destruct (Z_le_gt_dec val 127) as [Hle | Hgt];
    [by rewrite !writeVarint32_loop_last|].
  change (5 + k)%nat with (S (4 + k)).
  rewrite (writeVarint32_loop_more (4 + k)), (writeVarint32_loop_more 4) by done.
  f_equal. pose proof (ToUint32_range val) as Hx.
  change (2 ^ 32) with 4294967296 in Hx.
  apply writeVarint32_loop_fuel; [lia | | ];
    change (2 ^ 32) with 4294967296; change (128 ^ Z.of_nat 4) with 268435456;
    Z.div_mod_to_equations; lia.
Qed.

Lemma varint_group_shift (u : Z) (n k : nat) :
  0 <= u -> varint_group u (S n) (S k) = varint_group (u / 128) n k.
Proof.
  intros Hu. unfold varint_group. f_equal.
  - f_equal. rewrite Z.div_div by (try apply Z.pow_pos_nonneg; lia).
    f_equal. replace (7 * Z.of_nat (S k)) with (7 + 7 * Z.of_nat k) by lia.
    rewrite Z.pow_add_r by lia. reflexivity.
  - repeat case_bool_decide; lia.
Qed.

Lemma varint_stores_S (pos u : Z) (n : nat) :
  0 <= u ->
  varint_stores pos u (S (S n))
  = (pos, u mod 128 + 128) :: varint_stores (pos + 1) (u / 128) (S n).
Proof.
  intros Hu. unfold varint_stores.
  change (seq 0 (S (S n))) with (0%nat :: seq 1 (S n)).
  rewrite <- (seq_shift (S n) 0), map_cons, map_map. f_equal.
  - unfold varint_group. rewrite bool_decide_eq_true_2 by lia.
    change (2 ^ (7 * Z.of_nat 0)) with 1. rewrite Z.div_1_r.
    f_equal; lia.
  - apply map_ext. intros k. rewrite varint_group_shift by lia. f_equal; lia.
Qed.

(** The loop stores the groups of its argument, least significant first. *)
Lemma writeVarint32_loop_groups (n fuel : nat) (pos u : Z) :
  (n <= fuel)%nat -> 0 <= u < 2 ^ 32 ->
  (n <> 0%nat -> 128 ^ Z.of_nat n <= u) -> u < 128 * 128 ^ Z.of_nat n ->
  writeVarint32_loop fuel pos u = varint_stores pos u (S n).
Proof.
  revert fuel pos u. induction n as [|n IH]; intros fuel pos u Hf Hu Hlo Hhi.
  - change (128 ^ Z.of_nat 0) with 1 in Hhi.
    rewrite writeVarint32_loop_last by lia.
    unfold varint_stores, varint_group. cbn [seq map].
    rewrite bool_decide_eq_false_2 by lia.
    change (2 ^ (7 * Z.of_nat 0)) with 1. rewrite Z.div_1_r, Z.mod_small by lia.
    f_equal. f_equal; lia.
  - specialize (Hlo ltac:(lia)).
    rewrite Nat2Z.inj_succ, Z.pow_succ_r in Hlo, Hhi by lia.
    assert (0 < 128 ^ Z.of_nat n) by (apply Z.pow_pos_nonneg; lia).
    destruct fuel as [|fuel]; [lia|].
    rewrite writeVarint32_loop_more by lia.
    rewrite ToUint32_id by done.
    assert (0 <= u / 128 <= u)
      by (split; [apply Z.div_pos; lia | apply Z.div_le_upper_bound; lia]).
    rewrite (IH fuel (pos + 1) (u / 128)); [ | lia | lia | | ].
    + by rewrite varint_stores_S by lia.
    + intros _. apply Z.div_le_lower_bound; lia.
    + apply Z.div_lt_upper_bound; lia.
Qed.

(** What [uint32] schedules for an unsigned 32-bit value: [writeByte] for
    one group, [writeVarint32] for more, and the groups either stores. *)
Lemma varint32_stores (pos u : Z) :
  0 <= u < 2 ^ 32 ->
  (if bool_decide (u < 128) then writeByte pos u else writeVarint32 pos u)
  = varint_stores pos u (Z.to_nat (varint_size u)).
Proof.
  intros Hu. unfold varint_size, writeVarint32, writeByte.
  change (2 ^ 7) with 128. change (2 ^ 14) with 16384.
  change (2 ^ 21) with 2097152. change (2 ^ 28) with 268435456.
  case_bool_decide.
  { rewrite band_255, Z.mod_small by lia.
    change (Z.to_nat 1) with 1%nat.
    unfold varint_stores, varint_group. cbn [seq map].
    rewrite bool_decide_eq_false_2 by lia.
    change (2 ^ (7 * Z.of_nat 0)) with 1. rewrite Z.div_1_r, Z.mod_small by lia.
    f_equal. f_equal; lia. }
  change (2 ^ 32) with 4294967296 in Hu.
  repeat case_bool_decide.
  - apply (writeVarint32_loop_groups 1); [lia | done | |]; cbn; lia.
  - apply (writeVarint32_loop_groups 2); [lia | done | |]; cbn; lia.
  - apply (writeVarint32_loop_groups 3); [lia | done | |]; cbn; lia.
  - apply (writeVarint32_loop_groups 4); [lia | done | |]; cbn; lia.
Qed.

(** Decoding the groups gives the value back. *)
Lemma decode_varint_stores (n : nat) (pos u : Z) :
  0 <= u < 128 * 128 ^ Z.of_nat n ->
  decode_varint (stored (varint_stores pos u (S n))) = u.
Proof.
  revert pos u. induction n as [|n IH]; intros pos u Hu.
  - change (128 ^ Z.of_nat 0) with 1 in Hu.
    unfold varint_stores, varint_group, stored. cbn [seq map snd decode_varint].
    rewrite (bool_decide_eq_false_2 (0 + 1 < 1)%nat) by lia.
    change (2 ^ (7 * Z.of_nat 0)) with 1.
    rewrite Z.div_1_r, Z.add_0_r, (Z.mod_small u 128), (Z.mod_small u 256) by lia.
    rewrite bool_decide_eq_true_2 by lia. reflexivity.
  - rewrite Nat2Z.inj_succ, Z.pow_succ_r in Hu by lia.
    assert (0 < 128 ^ Z.of_nat n) by (apply Z.pow_pos_nonneg; lia).
    rewrite varint_stores_S by lia. unfold stored at 1.
    cbn [map snd decode_varint]. fold (stored (varint_stores (pos + 1) (u / 128) (S n))).
    pose proof (Z.mod_pos_bound u 128 ltac:(lia)).
    rewrite (Z.mod_small (_ + 128) 256) by lia.
    rewrite bool_decide_eq_false_2 by lia.
    rewrite IH.
    + Z.div_mod_to_equations. lia.
    + split; [apply Z.div_pos; lia | apply Z.div_lt_upper_bound; lia].
Qed.

Lemma varint_size_range (u : Z) : 1 <= varint_size u <= 5.
Proof. unfold varint_size. repeat case_bool_decide; lia. Qed.

Lemma varint_stores_positions (pos u : Z) (n : nat) :
  positions (varint_stores pos u n) = seqZ pos (Z.of_nat n).
Proof.
  unfold positions, varint_stores, seqZ. rewrite map_map, Nat2Z.id.
  apply map_ext. intros k. cbn [fst]. lia.
Qed.

Lemma uint32_push (v : Z) (w : Writer) :
  uint32 v w
  = push (if bool_decide (ToUint32 v < 128) then fn_writeByte else fn_writeVarint32)
      (varint_size (ToUint32 v)) (VNum (ToUint32 v)) w.
Proof.
  unfold uint32, varint_size. rewrite shr_0.
  change (2 ^ 7) with 128. change (2 ^ 14) with 16384.
  change (2 ^ 21) with 2097152. change (2 ^ 28) with 268435456.
  case_bool_decide; reflexivity.
Qed.

Lemma uint32_call (pos u : Z) :
  0 <= u < 2 ^ 32 ->
  call (if bool_decide (u < 128) then fn_writeByte else fn_writeVarint32) pos (VNum u)
  = varint_stores pos u (Z.to_nat (varint_size u)).
Proof.
  intros Hu. rewrite <- (varint32_stores pos u Hu). case_bool_decide; reflexivity.
Qed.

Lemma varint_size_bound (u : Z) :
  0 <= u < 2 ^ 32 -> u < 128 * 128 ^ (varint_size u - 1).
Proof.
  intros Hu. change (2 ^ 32) with 4294967296 in Hu. unfold varint_size.
  change (2 ^ 7) with 128. change (2 ^ 14) with 16384.
  change (2 ^ 21) with 2097152. change (2 ^ 28) with 268435456.
  repeat case_bool_decide; cbn; lia.
Qed.

Lemma uint32_decode (pos u : Z) :
  0 <= u < 2 ^ 32 ->
  decode_varint
    (stored (call (if bool_decide (u < 128) then fn_writeByte else fn_writeVarint32)
               pos (VNum u))) = u.
Proof.
  intros Hu. rewrite uint32_call by done.
  pose proof (varint_size_range u) as Hn.
  pose proof (varint_size_bound _ Hu) as Hb.
  destruct (Z.to_nat (varint_size u)) as [|n] eqn:En; [lia|].
  apply decode_varint_stores. replace (Z.of_nat n) with (varint_size u - 1) by lia.
  lia.
Qed.

(** What [uint32(v)] hands to [push]: [v] coerced to the unsigned 32-bit
    [u], with a length of 1, 2, 3, 4 or 5 by the magnitude of [u]; the
    function of that op ([writeByte] below 128, [writeVarint32] above)
    stores exactly that many bytes at consecutive positions: the 7-bit
    groups of [u], least significant first, each with the continuation
    bit except the last. *)
Lemma uint32_push_stores (w : Writer) (v pos : Z) :
  let u := ToUint32 v in
  let n := varint_size u in
  let f := if bool_decide (u < 128) then fn_writeByte else fn_writeVarint32 in
  n = (if bool_decide (u < 128) then 1
       else if bool_decide (u < 2 ^ 14) then 2
       else if bool_decide (u < 2 ^ 21) then 3
       else if bool_decide (u < 2 ^ 28) then 4 else 5)
  /\ uint32 v w = push f n (VNum u) w
  /\ len (uint32 v w) = len w + n
  /\ call f pos (VNum u) = varint_stores pos u (Z.to_nat n)
  /\ Z.of_nat (length (call f pos (VNum u))) = n
  /\ positions (call f pos (VNum u)) = seqZ pos n
  /\ decode_varint (stored (call f pos (VNum u))) = u.
Proof.
  cbv zeta. pose proof (ToUint32_range v) as Hu.
  pose proof (varint_size_range (ToUint32 v)) as Hn.
  split; [reflexivity|].
  split; [apply uint32_push|].
  split; [rewrite uint32_push; reflexivity|].
  split; [by apply uint32_call|].
  split; [|split; [|by apply uint32_decode]]; rewrite uint32_call by done.
  - unfold varint_stores. rewrite length_map, length_seq. lia.
  - rewrite varint_stores_positions. f_equal. lia.
Qed.

(** ** Zig-zag, 32 bits *)

Lemma lxor_m1 (a : Z) : Z.lxor a (-1) = - a - 1.
Proof. rewrite Z.lxor_m1_r. unfold Z.lnot. lia. Qed.

(** The zig-zag value [sint32] hands to [uint32]: [2v] for [v >= 0] and
    [-2v - 1] for [v < 0]. *)
Lemma zigzag32_value (v : Z) :
  - 2 ^ 31 <= v < 2 ^ 31 ->
  ToUint32 (bxor (shl v 1) (sar v 31))
  = if bool_decide (v < 0) then - 2 * v - 1 else 2 * v.
Proof.
  intros Hv. unfold bxor.
  rewrite shl_mul, sar_div by lia. rewrite (ToInt32_id v) by done.
  rewrite (ToInt32_id (ToInt32 _)) by apply ToInt32_range.
  change (2 ^ 1) with 2. change (2 ^ 31) with 2147483648 in *.
  destruct (ToInt32_eqm (v * 2)) as [q Hq]. rewrite Hq.
  change (2 ^ 32) with 4294967296. unfold ToUint32. change (2 ^ 32) with 4294967296.
  case_bool_decide.
  - replace (v / 2147483648) with (-1) by (Z.div_mod_to_equations; lia).
    rewrite (ToInt32_id (-1)) by (change (2 ^ 31) with 2147483648; lia).
    rewrite lxor_m1. Z.div_mod_to_equations. lia.
  - replace (v / 2147483648) with 0 by (Z.div_mod_to_equations; lia).
    rewrite (ToInt32_id 0) by (change (2 ^ 31) with 2147483648; lia).
    rewrite Z.lxor_0_r. Z.div_mod_to_equations. lia.
Qed.

(** The inverse map on an unsigned 32-bit value: half of an even number,
    minus the half minus one for an odd one. *)
Lemma zigzag_decode32_value (u : Z) :
  0 <= u < 2 ^ 32 ->
  zigzag_decode32 u = if bool_decide (u mod 2 = 0) then u / 2 else - (u / 2) - 1.
Proof.
  intros Hu. unfold zigzag_decode32, bxor.
  rewrite band_1, shr_div, ToUint32_id by lia. change (2 ^ 1) with 2.
  change (2 ^ 32) with 4294967296 in Hu.
  rewrite (ToInt32_id (u / 2))
    by (change (2 ^ 31) with 2147483648; Z.div_mod_to_equations; lia).
  pose proof (Z.mod_pos_bound u 2 ltac:(lia)).
  case_bool_decide as Hpar.
  - rewrite Hpar. change (- 0) with 0.
    rewrite (ToInt32_id 0) by (change (2 ^ 31) with 2147483648; lia).
    apply Z.lxor_0_r.
  - replace (- (u mod 2)) with (-1) by lia.
    rewrite (ToInt32_id (-1)) by (change (2 ^ 31) with 2147483648; lia).
    apply lxor_m1.
Qed.

Lemma zigzag32_decode_encode (v : Z) :
  - 2 ^ 31 <= v < 2 ^ 31 ->
  zigzag_decode32 (ToUint32 (bxor (shl v 1) (sar v 31))) = v.
Proof.
  intros Hv. rewrite zigzag_decode32_value by apply ToUint32_range.
  rewrite zigzag32_value by done. change (2 ^ 31) with 2147483648 in Hv.
  repeat case_bool_decide; Z.div_mod_to_equations; lia.
Qed.

Lemma zigzag32_encode_decode (u : Z) :
  0 <= u < 2 ^ 32 ->
  - 2 ^ 31 <= zigzag_decode32 u < 2 ^ 31
  /\ ToUint32 (bxor (shl (zigzag_decode32 u) 1) (sar (zigzag_decode32 u) 31)) = u.
Proof.
  intros Hu. rewrite zigzag_decode32_value by done.
  change (2 ^ 32) with 4294967296 in Hu.
  assert (Hr : - 2 ^ 31 <= (if bool_decide (u mod 2 = 0) then u / 2 else - (u / 2) - 1) < 2 ^ 31).
  { change (2 ^ 31) with 2147483648. case_bool_decide; Z.div_mod_to_equations; lia. }
  split; [exact Hr|]. rewrite zigzag32_value by exact Hr. clear Hr.
  repeat case_bool_decide; Z.div_mod_to_equations; lia.
Qed.

(** What [sint32(v)] hands to [push], through [uint32]: the unsigned
    32-bit zig-zag value [(v << 1) ^ (v >> 31)]; decoding the bytes its op
    stores and undoing the zig-zag map gives [v] back; and the map is onto
    the unsigned 32-bit values, the inverse map being its inverse on that
    side too. *)
Lemma sint32_push_stores (w : Writer) (v pos : Z) :
  - 2 ^ 31 <= v < 2 ^ 31 ->
  let z := ToUint32 (bxor (shl v 1) (sar v 31)) in
  let f := if bool_decide (z < 128) then fn_writeByte else fn_writeVarint32 in
  sint32 v w = uint32 (bxor (shl v 1) (sar v 31)) w
  /\ sint32 v w = push f (varint_size z) (VNum z) w
  /\ call f pos (VNum z) = varint_stores pos z (Z.to_nat (varint_size z))
  /\ decode_varint (stored (call f pos (VNum z))) = z
  /\ zigzag_decode32 z = v
  /\ zigzag_decode32 (decode_varint (stored (call f pos (VNum z)))) = v
  /\ (forall u, 0 <= u < 2 ^ 32 ->
        - 2 ^ 31 <= zigzag_decode32 u < 2 ^ 31
        /\ ToUint32 (bxor (shl (zigzag_decode32 u) 1) (sar (zigzag_decode32 u) 31)) = u).
Proof.
  intros Hv. cbv zeta.
  pose proof (ToUint32_range (bxor (shl v 1) (sar v 31))) as Hz.
  pose proof (uint32_push (bxor (shl v 1) (sar v 31)) w) as Hpush.
  pose proof (uint32_call pos _ Hz) as Hcall.
  pose proof (uint32_decode pos _ Hz) as Hdec.
  pose proof (zigzag32_decode_encode v Hv) as Hinv.
  split; [reflexivity|]. split; [exact Hpush|]. split; [exact Hcall|].
  split; [exact Hdec|]. split; [exact Hinv|]. split; [by rewrite Hdec|].
  apply zigzag32_encode_decode.
Qed.

(** ** 64-bit varints *)

(** One round of either loop of [writeVarint64] shifts the pair right by
    seven bits: the new [lo] takes the low seven bits of [hi] on top. *)
Lemma varint64_shift_lo (lo hi : Z) :
  0 <= lo < 2 ^ 32 ->
  shr (bor (shr lo 7) (shl hi 25)) 0 = lo / 128 + 2 ^ 25 * (hi mod 128).
Proof.
  intros Hlo. rewrite shr_0. unfold bor, ToUint32.
  rewrite <- (Z.land_ones _ 32), Z.land_lor_distr_l, !Z.land_ones by lia.
  rewrite !(ToInt32_mod_pow2 _ 32) by lia.
  rewrite shr_div, ToUint32_id, shl_mul by lia.
  rewrite (ToInt32_mod_pow2 _ 32) by lia.
  change (2 ^ 7) with 128. change (2 ^ 32) with 4294967296 in *.
  change (2 ^ 25) with 33554432.
  assert (Ha : 0 <= lo / 128 < 33554432) by (Z.div_mod_to_equations; lia).
  rewrite (Z.mod_small (lo / 128)) by lia.
  assert (Hb : (ToInt32 hi * 33554432) mod 4294967296 = 2 ^ 25 * (hi mod 128)).
  { destruct (ToInt32_eqm hi) as [q ->]. change (2 ^ 32) with 4294967296.
    change (2 ^ 25) with 33554432. Z.div_mod_to_equations. lia. }
  rewrite Hb. rewrite lor_disjoint_add; [reflexivity|].
  apply land_low_high; [lia|]. change (2 ^ 25) with 33554432. lia.
Qed.

Lemma varint64_group (lo : Z) : bor (band lo 127) 128 = lo mod 128 + 128.
Proof. rewrite band_127. apply bor_128. apply Z.mod_pos_bound. lia. Qed.

(** The second loop, then the last store: the groups of [lo]. *)
Lemma writeVarint64_lo_groups (n fuel : nat) (pos lo : Z) :
  (n <= fuel)%nat -> 0 <= lo < 2 ^ 32 ->
  (n <> 0%nat -> 128 ^ Z.of_nat n <= lo) -> lo < 128 * 128 ^ Z.of_nat n ->
  forall st p v,
    writeVarint64_lo fuel pos (LongBits.mk lo 0) = (st, p, v) ->
    st ++ [(p, LongBits.lo v)] = varint_stores pos lo (S n).
Proof.
  revert fuel pos lo. induction n as [|n IH]; intros fuel pos lo Hf Hlo Hge Hlt st p v Hrun.
  - change (128 ^ Z.of_nat 0) with 1 in Hlt.
    destruct fuel; cbn [writeVarint64_lo LongBits.lo] in Hrun;
      rewrite bool_decide_eq_false_2 in Hrun by lia;
      injection Hrun as <- <- <-; cbn [app LongBits.lo];
      unfold varint_stores, varint_group; cbn [seq map];
      rewrite bool_decide_eq_false_2 by lia;
      change (2 ^ (7 * Z.of_nat 0)) with 1; rewrite Z.div_1_r, Z.mod_small by lia;
      f_equal; f_equal; lia.
  - specialize (Hge ltac:(lia)).
    rewrite Nat2Z.inj_succ, Z.pow_succ_r in Hge, Hlt by lia.
    assert (0 < 128 ^ Z.of_nat n) by (apply Z.pow_pos_nonneg; lia).
    destruct fuel as [|fuel]; [lia|].
    cbn [writeVarint64_lo LongBits.lo LongBits.hi] in Hrun.
    rewrite bool_decide_eq_true_2 in Hrun by lia.
    rewrite varint64_shift_lo, varint64_group in Hrun by done.
    change (0 mod 128) with 0 in Hrun. rewrite Z.mul_0_r, Z.add_0_r in Hrun.
    destruct (writeVarint64_lo fuel (pos + 1) (LongBits.mk (lo / 128) 0))
      as [[st' p'] v'] eqn:Hrec.
    injection Hrun as <- <- <-.
    assert (0 <= lo / 128 <= lo)
      by (split; [apply Z.div_pos; lia | apply Z.div_le_upper_bound; lia]).
    rewrite varint_stores_S by lia. cbn [app]. f_equal.
    apply (IH fuel (pos + 1) (lo / 128)); [lia | lia | | | exact Hrec].
    + intros _. apply Z.div_le_lower_bound; lia.
    + apply Z.div_lt_upper_bound; lia.
Qed.

(** Both loops and the last store: the groups of the 64-bit value. *)
Lemma writeVarint64_hi_groups (fuel n : nat) (pos lo hi : Z) :
  0 <= lo < 2 ^ 32 -> 0 <= hi < 128 ^ Z.of_nat fuel -> hi < 2 ^ 32 ->
  (n <> 0%nat -> 128 ^ Z.of_nat n <= hi * 2 ^ 32 + lo) ->
  hi * 2 ^ 32 + lo < 128 * 128 ^ Z.of_nat n ->
  forall st1 p1 v1 st2 p2 v2,
    writeVarint64_hi fuel pos (LongBits.mk lo hi) = (st1, p1, v1) ->
    writeVarint64_lo 5 p1 v1 = (st2, p2, v2) ->
    st1 ++ st2 ++ [(p2, LongBits.lo v2)] = varint_stores pos (hi * 2 ^ 32 + lo) (S n).
Proof.
  revert n pos lo hi.
  induction fuel as [|fuel IH];
    intros n pos lo hi Hlo Hhi Hhi32 Hge Hlt st1 p1 v1 st2 p2 v2 Hrun1 Hrun2.
  - change (128 ^ Z.of_nat 0) with 1 in Hhi. assert (hi = 0) as -> by lia.
    cbn [writeVarint64_hi LongBits.hi] in Hrun1.
    rewrite bool_decide_eq_false_2 in Hrun1 by lia.
    injection Hrun1 as <- <- <-. cbn [app]. rewrite Z.mul_0_l, Z.add_0_l in *.
    apply (writeVarint64_lo_groups n 5 pos lo); try done.
    destruct (decide (n <= 4)%nat) as [|Hn]; [lia|].
    specialize (Hge ltac:(lia)).
    assert (128 ^ 5 <= 128 ^ Z.of_nat n) by (apply Z.pow_le_mono_r; lia).
    change (128 ^ 5) with 34359738368 in *. change (2 ^ 32) with 4294967296 in *. lia.
  - destruct (decide (hi = 0)) as [-> | Hnz].
    + cbn [writeVarint64_hi LongBits.hi] in Hrun1.
      rewrite bool_decide_eq_false_2 in Hrun1 by lia.
      injection Hrun1 as <- <- <-. cbn [app]. rewrite Z.mul_0_l, Z.add_0_l in *.
      apply (writeVarint64_lo_groups n 5 pos lo); try done.
      destruct (decide (n <= 4)%nat) as [|Hn]; [lia|].
      specialize (Hge ltac:(lia)).
      assert (128 ^ 5 <= 128 ^ Z.of_nat n) by (apply Z.pow_le_mono_r; lia).
      change (128 ^ 5) with 34359738368 in *. change (2 ^ 32) with 4294967296 in *. lia.
    + cbn [writeVarint64_hi LongBits.lo LongBits.hi] in Hrun1.
      rewrite bool_decide_eq_true_2 in Hrun1 by done.
      rewrite varint64_shift_lo, varint64_group in Hrun1 by done.
      rewrite shr_div, ToUint32_id in Hrun1 by lia. change (2 ^ 7) with 128 in Hrun1.
      destruct (writeVarint64_hi fuel (pos + 1)
                  (LongBits.mk (lo / 128 + 2 ^ 25 * (hi mod 128)) (hi / 128)))
        as [[st' p'] v'] eqn:Hrec.
      injection Hrun1 as <- <- <-.
      rewrite Nat2Z.inj_succ, Z.pow_succ_r in Hhi by lia.
      change (2 ^ 32) with 4294967296 in *. change (2 ^ 25) with 33554432 in *.
      assert (Hu : (hi * 4294967296 + lo) / 128
                   = hi / 128 * 4294967296 + (lo / 128 + 33554432 * (hi mod 128)))
        by (Z.div_mod_to_equations; lia).
      assert (Hm : (hi * 4294967296 + lo) mod 128 = lo mod 128)
        by (Z.div_mod_to_equations; lia).
      destruct n as [|n]; [change (128 ^ Z.of_nat 0) with 1 in Hlt; lia|].
      specialize (Hge ltac:(lia)).
      rewrite Nat2Z.inj_succ, Z.pow_succ_r in Hge, Hlt by lia.
      assert (0 < 128 ^ Z.of_nat n) by (apply Z.pow_pos_nonneg; lia).
      rewrite varint_stores_S by lia. rewrite Hm, Hu. cbn [app]. f_equal.
      apply (IH n (pos + 1) _ (hi / 128)) with (p1 := p') (v1 := v');
        [ | | | | | exact Hrec | exact Hrun2].
      * Z.div_mod_to_equations. lia.
      * split; [apply Z.div_pos; lia | apply Z.div_lt_upper_bound; lia].
      * Z.div_mod_to_equations. lia.
      * intros _. rewrite <- Hu. apply Z.div_le_lower_bound; lia.
      * rewrite <- Hu. apply Z.div_lt_upper_bound; lia.
Qed.

(** [writeVarint64] on a pair of unsigned 32-bit halves stores the groups
    of the 64-bit value [hi * 2^32 + lo], as many as the value needs. *)
Lemma writeVarint64_groups (n : nat) (pos lo hi : Z) :
  0 <= lo < 2 ^ 32 -> 0 <= hi < 2 ^ 32 ->
  (n <> 0%nat -> 128 ^ Z.of_nat n <= hi * 2 ^ 32 + lo) ->
  hi * 2 ^ 32 + lo < 128 * 128 ^ Z.of_nat n ->
  writeVarint64 pos (LongBits.mk lo hi) = varint_stores pos (hi * 2 ^ 32 + lo) (S n).
Proof.
  intros Hlo Hhi Hge Hlt. unfold writeVarint64.
  destruct (writeVarint64_hi 5 pos (LongBits.mk lo hi)) as [[st1 p1] v1] eqn:H1.
  destruct (writeVarint64_lo 5 p1 v1) as [[st2 p2] v2] eqn:H2.
  apply (writeVarint64_hi_groups 5 n pos lo hi) with (p1 := p1) (v1 := v1);
    try done; [|lia].
  change (128 ^ Z.of_nat 5) with 34359738368. change (2 ^ 32) with 4294967296 in Hhi. lia.
Qed.

(** Every non-negative value has a number of groups. *)
Lemma varint_groups_exist (u : Z) :
  0 <= u ->
  exists n : nat, (n <> 0%nat -> 128 ^ Z.of_nat n <= u) /\ u < 128 * 128 ^ Z.of_nat n
                  /\ Z.of_nat n = Z.log2 u / 7.
Proof.
  intros Hu. exists (Z.to_nat (Z.log2 u / 7)).
  pose proof (Z.log2_nonneg u) as Hl.
  assert (Hq : 0 <= Z.log2 u / 7) by (apply Z.div_pos; lia).
  rewrite Z2Nat.id by lia.
  assert (Hpow : forall k, 0 <= k -> 128 ^ k = 2 ^ (7 * k)).
  { intros k Hk. change 128 with (2 ^ 7). rewrite <- Z.pow_mul_r by lia. reflexivity. }
  rewrite Hpow by lia.
  destruct (Z.eq_dec u 0) as [-> | Hnz].
  { change (Z.log2 0 / 7) with 0. change (Z.to_nat 0) with 0%nat.
    change (2 ^ (7 * 0)) with 1. split; [done|]. split; [lia | reflexivity]. }
  destruct (Z.log2_spec u ltac:(lia)) as [Hlo Hhi].
  split; [|split; [|reflexivity]].
  - intros _. etransitivity; [|exact Hlo].
    apply Z.pow_le_mono_r; [lia|]. Z.div_mod_to_equations. lia.
  - eapply Z.lt_le_trans; [exact Hhi|].
    change 128 with (2 ^ 7) at 1. rewrite <- Z.pow_add_r by lia.
    apply Z.pow_le_mono_r; [lia|]. Z.div_mod_to_equations. lia.
Qed.

(** [writeVarint64] in full: for every pair of unsigned 32-bit halves the
    two loops end within their five rounds, the bytes stored decode to the
    64-bit value, and their number is what [LongBits.length] announces. *)
Lemma writeVarint64_decode (pos lo hi : Z) :
  0 <= lo < 2 ^ 32 -> 0 <= hi < 2 ^ 32 ->
  decode_varint (stored (writeVarint64 pos (LongBits.mk lo hi))) = hi * 2 ^ 32 + lo
  /\ Z.of_nat (length (writeVarint64 pos (LongBits.mk lo hi)))
     = LongBits.length (LongBits.mk lo hi)
  /\ positions (writeVarint64 pos (LongBits.mk lo hi))
     = seqZ pos (LongBits.length (LongBits.mk lo hi)).
Proof.
  intros Hlo Hhi.
  assert (Hu : 0 <= hi * 2 ^ 32 + lo < 2 ^ 64)
    by (change (2 ^ 32) with 4294967296 in *; change (2 ^ 64) with 18446744073709551616; lia).
  destruct (varint_groups_exist (hi * 2 ^ 32 + lo) ltac:(lia)) as (n & Hge & Hlt & Hn).
  rewrite (writeVarint64_groups n) by done.
  assert (Hlen : Z.of_nat (S n) = LongBits.length (LongBits.mk lo hi)).
  { unfold LongBits.length. cbn [LongBits.lo LongBits.hi].
    case_bool_decide as Hz.
    - rewrite Hz in Hn. change (Z.log2 0 / 7) with 0 in Hn. lia.
    - assert (Z.log2 (hi * 2 ^ 32 + lo) < 64)
        by (apply Z.log2_lt_pow2; lia).
      pose proof (Z.log2_nonneg (hi * 2 ^ 32 + lo)).
      rewrite Nat2Z.inj_succ, Hn. Z.div_mod_to_equations. lia. }
  split; [|split].
  - apply decode_varint_stores. lia.
  - rewrite <- Hlen. unfold varint_stores. by rewrite length_map, length_seq.
  - rewrite <- Hlen. apply varint_stores_positions.
Qed.

(** The LongBits of a negative 32-bit number: the sign fills [hi]. *)
Lemma fromNumber_negative (v : Z) :
  - 2 ^ 31 <= v < 0 ->
  LongBits.fromNumber v = LongBits.mk (v + 2 ^ 32) (2 ^ 32 - 1).
Proof.
  intros Hv. unfold LongBits.fromNumber.
  change (2 ^ 31) with 2147483648 in Hv. change (2 ^ 32) with 4294967296.
  change (2 ^ 64) with 18446744073709551616.
  f_equal; Z.div_mod_to_equations; lia.
Qed.

(** What [int32(v)] does for a signed 32-bit [v]: it is [uint32(v)] when
    [v >= 0]; when [v < 0] it hands to [push] a length of 10 and the
    sign-extended LongBits of [v], and [writeVarint64] on that value
    stores exactly 10 bytes, at consecutive positions: the ten groups of
    the 64-bit two's complement of [v]. *)
Lemma int32_push_stores (w : Writer) (v pos : Z) :
  - 2 ^ 31 <= v < 2 ^ 31 ->
  (0 <= v -> int32 v w = uint32 v w)
  /\ (v < 0 ->
      let bits := LongBits.fromNumber v in
      int32 v w = push fn_writeVarint64 10 (VLong bits) w
      /\ len (int32 v w) = len w + 10
      /\ bits = LongBits.mk (v + 2 ^ 32) (2 ^ 32 - 1)
      /\ call fn_writeVarint64 pos (VLong bits) = varint_stores pos (v + 2 ^ 64) 10
      /\ length (call fn_writeVarint64 pos (VLong bits)) = 10%nat
      /\ positions (call fn_writeVarint64 pos (VLong bits)) = seqZ pos 10
      /\ decode_varint (stored (call fn_writeVarint64 pos (VLong bits))) = v + 2 ^ 64).
Proof.
  intros Hv. split.
  - intros Hpos. unfold int32. by rewrite bool_decide_eq_false_2 by lia.
  - intros Hneg. cbv zeta.
    assert (Hpush : int32 v w = push fn_writeVarint64 10 (VLong (LongBits.fromNumber v)) w)
      by (unfold int32; by rewrite bool_decide_eq_true_2 by lia).
    assert (Hcall : call fn_writeVarint64 pos (VLong (LongBits.fromNumber v))
                    = varint_stores pos (v + 2 ^ 64) 10).
    { cbn [call]. rewrite fromNumber_negative by lia.
      change (2 ^ 31) with 2147483648 in Hv.
      rewrite (writeVarint64_groups 9);
        change (2 ^ 32) with 4294967296; change (128 ^ Z.of_nat 9) with 9223372036854775808;
        change (2 ^ 64) with 18446744073709551616; try lia.
      f_equal. lia. }
    split; [exact Hpush|]. split; [by rewrite Hpush|].
    split; [apply fromNumber_negative; lia|]. split; [exact Hcall|].
    rewrite Hcall. split; [|split].
    + unfold varint_stores. by rewrite length_map, length_seq.
    + apply (varint_stores_positions pos (v + 2 ^ 64) 10).
    + apply (decode_varint_stores 9).
      change (2 ^ 31) with 2147483648 in Hv.
      change (128 ^ Z.of_nat 9) with 9223372036854775808.
      change (2 ^ 64) with 18446744073709551616. lia.
Qed.

(** ** Strings *)

Lemma seqZ_step (pos n : Z) : 0 <= n -> seqZ pos (1 + n) = pos :: seqZ (pos + 1) n.
Proof.
  intros Hn. rewrite seqZ_cons by lia. f_equal. f_equal; lia.
Qed.

(** The two loops go through the string in step: whatever [writeString]
    stores from index [i] on, [byteLength] counts from index [i] on, and
    the stores go to consecutive positions. *)
Lemma string_loops_in_step (fuel : nat) (val : list Z) (i : nat) (pos len : Z) :
  byteLength_loop fuel val (Z.of_nat (length val)) i len
  = len + Z.of_nat (length (writeString_loop fuel val i pos))
  /\ positions (writeString_loop fuel val i pos)
     = seqZ pos (Z.of_nat (length (writeString_loop fuel val i pos))).
Proof.
  revert i pos len. induction fuel as [|fuel IH]; intros i pos len.
  { cbn. split; [lia | reflexivity]. }
  cbn [byteLength_loop writeString_loop]. unfold charCodeAt.
  destruct (val !! i) as [c1|] eqn:Hc.
  - apply lookup_lt_Some in Hc. rewrite bool_decide_eq_true_2 by lia.
    repeat match goal with
           | |- context [if ?b then _ else _] => destruct b
           end;
      match goal with
      | |- context [writeString_loop fuel val ?j ?p] =>
          destruct (IH j p 0) as [_ Hp];
          split; [rewrite (proj1 (IH j p _)); cbn [length]; lia|];
          cbn [positions map fst length] in *; fold (positions (writeString_loop fuel val j p));
          rewrite Hp
      end.
    + rewrite Nat2Z.inj_succ, <- Z.add_1_l. rewrite seqZ_step by lia. reflexivity.
    + rewrite !Nat2Z.inj_succ, <- !Z.add_1_l. repeat (rewrite seqZ_step by lia).
      rewrite <- !Z.add_assoc. reflexivity.
    + rewrite !Nat2Z.inj_succ, <- !Z.add_1_l. repeat (rewrite seqZ_step by lia).
      rewrite <- !Z.add_assoc. reflexivity.
    + rewrite !Nat2Z.inj_succ, <- !Z.add_1_l. repeat (rewrite seqZ_step by lia).
      rewrite <- !Z.add_assoc. reflexivity.
  - apply lookup_ge_None in Hc. rewrite bool_decide_eq_false_2 by lia.
    cbn. split; [lia | reflexivity].
Qed.

(** The fuel given to the loops is enough: any larger amount leads to the
    same result. *)
Lemma writeString_loop_fuel (fuel fuel' : nat) (val : list Z) (i : nat) (pos : Z) :
  (length val < fuel + i)%nat -> (length val < fuel' + i)%nat ->
  writeString_loop fuel val i pos = writeString_loop fuel' val i pos.
Proof.
  revert fuel' i pos. induction fuel as [|fuel IH]; intros fuel' i pos Hf Hf'.
  - destruct fuel'; [reflexivity|]. cbn [writeString_loop]. unfold charCodeAt.
    by rewrite (lookup_ge_None_2 val i) by lia.
  - destruct fuel' as [|fuel'].
    { cbn [writeString_loop]. unfold charCodeAt.
      by rewrite (lookup_ge_None_2 val i) by lia. }
    cbn [writeString_loop]. unfold charCodeAt.
    destruct (val !! i) as [c1|]; [|reflexivity].
    repeat match goal with
           | |- context [if ?b then _ else _] => destruct b
           end;
      repeat (apply (f_equal2 cons); [reflexivity|]); apply IH; lia.
Qed.

Lemma byteLength_loop_fuel (fuel fuel' : nat) (val : list Z) (strlen : Z) (i : nat) (len : Z) :
  strlen <= Z.of_nat (length val) ->
  (length val < fuel + i)%nat -> (length val < fuel' + i)%nat ->
  byteLength_loop fuel val strlen i len = byteLength_loop fuel' val strlen i len.
Proof.
  intros Hs. revert fuel' i len. induction fuel as [|fuel IH]; intros fuel' i len Hf Hf'.
  - destruct fuel'; [reflexivity|]. cbn [byteLength_loop].
    by rewrite bool_decide_eq_false_2 by lia.
  - destruct fuel' as [|fuel'].
    { cbn [byteLength_loop]. by rewrite bool_decide_eq_false_2 by lia. }
    cbn [byteLength_loop]. unfold charCodeAt.
    case_bool_decide; [|reflexivity].
    destruct (val !! i) as [c1|]; [|apply IH; lia].
    repeat match goal with
           | |- context [if ?b then _ else _] => destruct b
           end; apply IH; lia.
Qed.

(** Stores leave every other index of the buffer alone. *)
Lemma apply_stores_outside (st : Stores) (buf : Buf) (i : nat) :
  Z.of_nat i ∉ positions st -> apply_stores st buf !! i = buf !! i.
Proof.
  revert buf. induction st as [|[p v] st IH]; intros buf Hi; [reflexivity|].
  unfold apply_stores in *. cbn [foldl positions map fst snd] in *.
  apply not_elem_of_cons in Hi as [Hne Hi].
  rewrite IH by exact Hi. unfold buf_set. case_bool_decide; [|reflexivity].
  apply list_lookup_insert_ne. lia.
Qed.

Lemma apply_stores_length (st : Stores) (buf : Buf) :
  length (apply_stores st buf) = length buf.
Proof.
  revert buf. induction st as [|[p v] st IH]; intros buf; [reflexivity|].
  unfold apply_stores in *. cbn [foldl]. rewrite IH. unfold buf_set.
  case_bool_decide; [apply length_insert | reflexivity].
Qed.

(** C5: for every string [s] (any code units, paired or unpaired
    surrogates anywhere, also a lone high surrogate at the end),
    [writeString(buf, pos, s)] performs exactly [byteLength(s)] stores, at
    the positions [pos, pos + 1, ...]; [byteLength(s)] is the length
    [string(s)] enqueues with the [writeString] op; so every index written
    lies in [pos, pos + byteLength(s)) and the buffer is untouched outside
    that range. *)
Theorem writeString_within_byteLength (w : Writer) (s : list Z) (pos : Z) (buf : Buf) :
  Z.of_nat (length s) < 2 ^ 32 ->
  Z.of_nat (length (writeString pos s)) = byteLength s
  /\ positions (writeString pos s) = seqZ pos (byteLength s)
  /\ (forall p b, (p, b) ∈ writeString pos s -> pos <= p < pos + byteLength s)
  /\ (byteLength s <> 0 ->
      string s w = push fn_writeString (byteLength s) (VString s) (uint32 (byteLength s) w))
  /\ (byteLength s = 0 -> s = [] /\ string s w = push fn_writeByte 1 (VNum 0) w)
  /\ (forall i : nat, ~ (pos <= Z.of_nat i < pos + byteLength s) ->
        apply_stores (call fn_writeString pos (VString s)) buf !! i = buf !! i).
Proof.
  intros Hlen.
  assert (Hcount : Z.of_nat (length (writeString pos s)) = byteLength s).
  { unfold byteLength, writeString. rewrite ToUint32_id by lia.
    rewrite (proj1 (string_loops_in_step _ s 0 pos 0)). lia. }
  assert (Hpos : positions (writeString pos s) = seqZ pos (byteLength s)).
  { rewrite <- Hcount. apply (proj2 (string_loops_in_step _ s 0 pos 0)). }
  assert (Hin : forall p b, (p, b) ∈ writeString pos s -> pos <= p < pos + byteLength s).
  { intros p b Hpb. apply elem_of_seqZ. rewrite <- Hpos.
    unfold positions. apply (list_elem_of_fmap_2 fst _ _ Hpb). }
  split; [exact Hcount|]. split; [exact Hpos|]. split; [exact Hin|].
  split; [|split].
  - intros Hnz. unfold string. by rewrite bool_decide_eq_true_2.
  - intros Hz. split.
    + rewrite Hz in Hcount. destruct s as [|c s]; [reflexivity|]. exfalso.
      revert Hcount. unfold writeString. cbn [length writeString_loop].
      unfold charCodeAt. cbn [lookup list_lookup].
      repeat match goal with
             | |- context [if ?b then _ else _] => destruct b
             end; cbn [length]; lia.
    + unfold string. by rewrite bool_decide_eq_false_2 by lia.
  - intros i Hi. apply apply_stores_outside. cbn [call]. rewrite Hpos.
    rewrite elem_of_seqZ. lia.
Qed.

(** The string ["A"] followed by an unpaired high surrogate: one store and
    three more. *)
Lemma writeString_within_byteLength_witness :
  Z.of_nat (length [0x41; 0xD800]) < 2 ^ 32
  /\ Z.of_nat (length (writeString 0 [0x41; 0xD800])) = byteLength [0x41; 0xD800]
  /\ byteLength [0x41; 0xD800] = 4.
Proof.
  split; [cbn; lia|]. split; [|reflexivity].
  apply (writeString_within_byteLength Writer_new [0x41; 0xD800] 0 []). cbn. lia.
Defined.

(** ** The model on the byte streams of the format *)

Example scenario_varint_150 :
  fst (finish (run [CTag 1 0; CUint32 150] Writer_new)) = Some [0x08; 0x96; 0x01].
Proof. reflexivity. Qed.

Example scenario_string_testing :
  fst (finish (run [CTag 1 2; CString [0x74; 0x65; 0x73; 0x74; 0x69; 0x6E; 0x67]] Writer_new))
  = Some [0x0A; 0x07; 0x74; 0x65; 0x73; 0x74; 0x69; 0x6E; 0x67].
Proof. reflexivity. Qed.

Example scenario_sint32 :
  fst (finish (run [CTag 1 0; CSint32 (-1); CTag 2 0; CSint32 1] Writer_new))
  = Some [0x08; 0x01; 0x10; 0x02].
Proof. reflexivity. Qed.

Example scenario_fixed32 :
  fst (finish (run [CTag 1 5; CFixed32 0xDEADBEEF] Writer_new))
  = Some [0x0D; 0xEF; 0xBE; 0xAD; 0xDE].
Proof. reflexivity. Qed.

Example scenario_empty_submessage :
  fst (finish (run [CFork; CLdelim (Some 1)] Writer_new)) = Some [0x0A; 0x00].
Proof. reflexivity. Qed.

Example scenario_submessage :
  fst (finish (run [CFork; CTag 1 0; CUint32 150; CLdelim (Some 3); CBool true] Writer_new))
  = Some [0x1A; 0x03; 0x08; 0x96; 0x01; 0x01].
Proof. reflexivity. Qed.

Example scenario_int32_negative :
  fst (finish (run [CInt32 (-1)] Writer_new))
  = Some [0xFF; 0xFF; 0xFF; 0xFF; 0xFF; 0xFF; 0xFF; 0xFF; 0xFF; 0x01].
Proof. reflexivity. Qed.

Example scenario_surrogates :
  fst (finish (run [CString [0xD834; 0xDD1E; 0xD800]] Writer_new))
  = Some [0x07; 0xF0; 0x9D; 0x84; 0x9E; 0xED; 0xA0; 0x80].
Proof. reflexivity. Qed.

(** ** Empty sub-messages

    [ldelim] sets [this.tail = tail] also when the forked frame is empty,
    where [tail] is the sentinel of that frame, an Op that is not linked
    into the outer queue: whatever is pushed next is chained to the
    sentinel and never reached from [head]. *)

(** C2: [fork(); ldelim(1)] three times and then [finish()].  The writer
    counts six bytes and allocates six, but only the first tag and length
    are reachable from the head: the buffer is [0A 00 00 00 00 00], not
    [0A 00 0A 00 0A 00]. *)
Theorem three_empty_submessages :
  let w := run [CFork; CLdelim (Some 1); CFork; CLdelim (Some 1);
                CFork; CLdelim (Some 1)] Writer_new in
  len w = 6
  /\ fst (finish w) = Some [10; 0; 0; 0; 0; 0]
  /\ fst (finish w) <> Some [10; 0; 10; 0; 10; 0]
  /\ queue w = Some [mkOp fn_writeByte (VNum 10) 1 (Some 3%nat);
                     mkOp fn_writeByte (VNum 0) 1 None]
  /\ next_of (heap w) (tail w) = None
  /\ tail w = 7%nat.
Proof. vm_compute. repeat split; congruence. Qed.

(** C3: after [fork(); ldelim(1)] the invariant still holds, with the
    tail on the unlinked sentinel; the next write, [uint32(5)], adds to
    [len] an op that is not reachable from [head.next]: [len] is 3 and the
    reachable lengths sum to 2. *)
Theorem len_invariant_broken_after_empty_ldelim :
  let w1 := run [CFork; CLdelim (Some 1)] Writer_new in
  let w2 := run [CFork; CLdelim (Some 1); CUint32 5] Writer_new in
  len_invariant w1
  /\ w2 = uint32 5 w1
  /\ len w2 = 3
  /\ queue_len w2 = Some 2
  /\ ~ len_invariant w2
  /\ ~ (forall cs : list Cmd, len_invariant (run cs Writer_new)).
Proof.
  cbv zeta. split; [reflexivity|]. split; [reflexivity|]. split; [reflexivity|].
  split; [reflexivity|].
  assert (Hbad : ~ len_invariant (run [CFork; CLdelim (Some 1); CUint32 5] Writer_new))
    by (vm_compute; congruence).
  split; [exact Hbad|]. intros Hall. exact (Hbad (Hall _)).
Qed.

(** C4: with an empty inner sequence, id 1 and [uint32(5)] after the
    sub-message, [fork(); ldelim(1)] loses the later write, [0A 00 00],
    while writing through a buffer gives [0A 00 05]. *)
Theorem fork_ldelim_empty_inner_differs :
  via_fork [] [] [CUint32 5] (Some 1) = Some [10; 0; 0]
  /\ via_buffer [] [] [CUint32 5] (Some 1) = Some [10; 0; 5]
  /\ via_fork [] [] [CUint32 5] (Some 1) <> via_buffer [] [] [CUint32 5] (Some 1)
  /\ ~ (forall (before inner after : list Cmd) (id : option Z),
          via_fork before inner after id = via_buffer before inner after id).
Proof.
  assert (Hne : via_fork [] [] [CUint32 5] (Some 1) <> via_buffer [] [] [CUint32 5] (Some 1))
    by (vm_compute; congruence).
  split; [reflexivity|]. split; [reflexivity|]. split; [exact Hne|].
  intros Hall. exact (Hne (Hall _ _ _ _)).
Qed.

(** ** [finish] while a fork is open *)

(** C9, as stated, fails: after [uint32(1); fork(); uint32(2)], [finish]
    does not fail and returns [02], the current (inner) frame alone, where
    the outer frame alone would be [01]. *)
Lemma unbalanced_finish_returns_inner :
  let w := run [CUint32 1; CFork; CUint32 2] Writer_new in
  states w <> []
  /\ fst (finish w) = Some [2]
  /\ frame_buffer (heap w) (head w) (len w) = Some [2]
  /\ frame_buffer (heap w) 0%nat 1 = Some [1]
  /\ ~ unbalanced_finish_outer_or_fail w.
Proof.
  vm_compute. repeat split; try congruence.
  intros [[H | H] _]; congruence.
Qed.

(** ** Queues built by [push] alone

    From a fresh sentinel on, [push] allocates consecutive addresses and
    links each Op to the next: the heap grows by a [chain]. *)

Section chains.

Implicit Types (es : list Entry) (e : Entry) (h : list Op) (a : addr).

Lemma length_chain a es : length (chain a es) = length es.
Proof. revert a. induction es as [|e es IH]; intros a; cbn; [|rewrite IH]; reflexivity. Qed.

Lemma chain_lookup a es (i : nat) e :
  es !! i = Some e ->
  chain a es !! i
  = Some (mkOp (fst (fst e)) (snd e) (snd (fst e))
            (if decide (S i < length es)%nat then Some (a + S i)%nat else None)).
Proof.
  revert a i. induction es as [|e0 es IH]; intros a i Hi; [done|].
  destruct i as [|i].
  - injection Hi as ->. cbn [chain]. change ((?x :: ?l) !! 0%nat) with (Some x).
    f_equal. f_equal.
    destruct es; cbn [length]; case_decide; try lia; f_equal; lia.
  - cbn [chain]. change ((?x :: ?l) !! S i) with (l !! i) in *.
    rewrite (IH (S a) i Hi).
    f_equal. f_equal. cbn [length]. repeat case_decide; try lia; f_equal; lia.
Qed.

(** Pushing onto a chain: the last Op gets its [next], the new one follows. *)
Lemma chain_snoc a es e :
  es <> [] ->
  set_next (chain a es ++ [mkOp (fst (fst e)) (snd e) (snd (fst e)) None])
    (length es - 1)%nat (Some (a + length es)%nat)
  = chain a (es ++ [e]).
Proof.
  revert a. induction es as [|x es IH]; intros a Hne; [done|].
  destruct es as [|y es].
  - cbn. unfold set_next. cbn. do 3 f_equal. lia.
  - specialize (IH (S a) ltac:(done)).
    change ((x :: y :: es) ++ [e]) with (x :: ((y :: es) ++ [e])).
    cbn [chain]. rewrite <- IH. unfold set_next.
    replace (length (x :: y :: es) - 1)%nat with (S (length (y :: es) - 1))
      by (cbn [length]; lia).
    replace (a + length (x :: y :: es))%nat with (S a + length (y :: es))%nat
      by (cbn [length]; lia).
    cbn [app]. change (alter ?f (S ?i) (?o :: ?l)) with (o :: alter f i l).
    f_equal.
Qed.

Lemma total_len_app es1 es2 : total_len (es1 ++ es2) = total_len es1 + total_len es2.
Proof. unfold total_len. induction es1 as [|e es1 IH]; cbn; [|rewrite IH]; lia. Qed.

Lemma push_on_chain w h es l0 e :
  on_chain w h es l0 ->
  on_chain (push_entry w e) h (es ++ [e]) l0
  /\ states (push_entry w e) = states w.
Proof.
  intros (Hh & Hhd & Htl & Hlen). split; [|reflexivity].
  unfold on_chain, push_entry, push. cbn [heap head tail len].
  rewrite Hh, Htl, Hhd, Hlen, total_len_app. repeat split.
  - rewrite <- app_assoc. unfold set_next. rewrite alter_app_r.
    f_equal. rewrite length_app, length_chain.
    change (sentinel :: es ++ [e]) with ((sentinel :: es) ++ [e]).
    rewrite <- chain_snoc by done. unfold set_next.
    cbn [length]. rewrite Nat.sub_succ, Nat.sub_0_r. reflexivity.
  - rewrite !length_app, length_chain. cbn [length]. lia.
  - unfold total_len. cbn. lia.
Qed.

Lemma pushes_on_chain es' w h es l0 :
  on_chain w h es l0 ->
  on_chain (pushes es' w) h (es ++ es') l0
  /\ states (pushes es' w) = states w.
Proof.
  revert w es. induction es' as [|e es' IH]; intros w es Hw.
  - rewrite app_nil_r. done.
  - unfold pushes. cbn [foldl]. fold (pushes es' (push_entry w e)).
    destruct (push_on_chain w h es l0 e Hw) as [Hw' Hst].
    destruct (IH _ _ Hw') as [Hw'' Hst'].
    rewrite <- app_assoc in Hw''. split; [exact Hw''|congruence].
Qed.

Lemma Writer_new_on_chain : on_chain Writer_new [] [] 0.
Proof. repeat split. Qed.

Lemma fork_on_chain w : on_chain (fork w) (heap w) [] 0.
Proof. repeat split. unfold fork. cbn. lia. Qed.

Lemma apply_stores_app (st1 st2 : Stores) (buf : Buf) :
  apply_stores (st1 ++ st2) buf = apply_stores st2 (apply_stores st1 buf).
Proof. unfold apply_stores. apply foldl_app. Qed.

(** The walk of [finish_internal] along a chain calls its ops in order. *)
Lemma finish_internal_chain h es1 es2 (h1 : list Op) (fuel : nat) (pos : Z) (buf : Buf) :
  (length es2 <= fuel)%nat ->
  finish_internal fuel (h ++ chain (length h) (es1 ++ es2) ++ h1)
    (match es2 with [] => None | _ :: _ => Some (length h + length es1)%nat end)
    pos buf
  = Some (apply_stores (emit_stores pos es2) buf).
Proof.
  revert es1 fuel pos buf. induction es2 as [|e es2 IH]; intros es1 fuel pos buf Hf.
  - destruct fuel; reflexivity.
  - destruct fuel as [|fuel]; [cbn in Hf; lia|].
    cbn [finish_internal].
    rewrite lookup_app_r by lia.
    replace (length h + length es1 - length h)%nat with (length es1) by lia.
    rewrite lookup_app_l by (rewrite length_chain, length_app; cbn; lia).
    rewrite (chain_lookup _ _ _ e) by (by rewrite list_lookup_middle).
    cbn [op_next op_len op_fn op_val emit_stores].
    rewrite apply_stores_app.
    specialize (IH (es1 ++ [e]) fuel (pos + snd (fst e))
                  (apply_stores (call (fst (fst e)) pos (snd e)) buf)
                  ltac:(cbn in Hf; lia)).
    rewrite <- app_assoc in IH. cbn [app] in IH. rewrite <- IH.
    f_equal. rewrite !length_app.
    destruct es2; cbn [length]; case_decide; try lia; [reflexivity|]. f_equal. lia.
Qed.

End chains.

(** ** Scalar writes are pushes *)

Lemma scalar_step_pushes (c : Cmd) :
  scalar c = true -> exists es, es <> [] /\ forall w, step c w = pushes es w.
Proof.
  destruct c; intros Hc; try discriminate Hc; cbn [step].
  - eexists [(_, _, _)]. split; [done | reflexivity].
  - exists [(if bool_decide (ToUint32 v < 128) then fn_writeByte else fn_writeVarint32,
             varint_size (ToUint32 v), VNum (ToUint32 v))].
    split; [done|]. intros w. apply uint32_push.
  - exists [if bool_decide (v < 0)
            then (fn_writeVarint64, 10, VLong (LongBits.fromNumber v))
            else (if bool_decide (ToUint32 v < 128) then fn_writeByte else fn_writeVarint32,
                  varint_size (ToUint32 v), VNum (ToUint32 v))].
    split; [done|].
    intros w. unfold int32. case_bool_decide; [reflexivity | apply uint32_push].
  - eexists [(_, _, _)]. split; [done|]. intros w. unfold sint32. apply uint32_push.
  - eexists [(_, _, _)]. split; [done | reflexivity].
  - eexists [(_, _, _)]. split; [done | reflexivity].
  - eexists [(_, _, _)]. split; [done | reflexivity].
  - eexists [(_, _, _)]. split; [done | reflexivity].
  - eexists [(_, _, _)]. split; [done | reflexivity].
  - eexists [(_, _, _)]. split; [done | reflexivity].
  - eexists [(_, _, _); (_, _, _)]. split; [done | reflexivity].
  - eexists [(_, _, _); (_, _, _)]. split; [done | reflexivity].
  - exists (if bool_decide (shr (Z.of_nat (length b)) 0 <> 0)
            then [(if bool_decide (ToUint32 (shr (Z.of_nat (length b)) 0) < 128)
                   then fn_writeByte else fn_writeVarint32,
                   varint_size (ToUint32 (shr (Z.of_nat (length b)) 0)),
                   VNum (ToUint32 (shr (Z.of_nat (length b)) 0)));
                  (fn_writeBytes, shr (Z.of_nat (length b)) 0, VBytes b)]
            else [(fn_writeByte, 1, VNum 0)]).
    split; [by case_bool_decide|].
    intros w. unfold bytes. case_bool_decide; [|reflexivity].
    rewrite uint32_push. reflexivity.
  - exists (if bool_decide (byteLength s <> 0)
            then [(if bool_decide (ToUint32 (byteLength s) < 128)
                   then fn_writeByte else fn_writeVarint32,
                   varint_size (ToUint32 (byteLength s)),
                   VNum (ToUint32 (byteLength s)));
                  (fn_writeString, byteLength s, VString s)]
            else [(fn_writeByte, 1, VNum 0)]).
    split; [by case_bool_decide|].
    intros w. unfold string. case_bool_decide; [|reflexivity].
    rewrite uint32_push. reflexivity.
Qed.

Lemma pushes_app (es1 es2 : list Entry) (w : Writer) :
  pushes (es1 ++ es2) w = pushes es2 (pushes es1 w).
Proof. unfold pushes. apply foldl_app. Qed.

Lemma scalar_run_pushes (cs : list Cmd) :
  forallb scalar cs = true ->
  exists es, (cs <> [] -> es <> []) /\ forall w, run cs w = pushes es w.
Proof.
  induction cs as [|c cs IH]; intros Hcs.
  - exists []. split; [done | reflexivity].
  - cbn [forallb] in Hcs. apply andb_prop in Hcs as [Hc Hcs].
    destruct (scalar_step_pushes c Hc) as (es1 & Hne1 & H1).
    destruct (IH Hcs) as (es2 & _ & H2).
    exists (es1 ++ es2). split.
    + intros _. destruct es1; [done | discriminate].
    + intros w. unfold run. cbn [foldl].
      fold (run cs (step c w)). rewrite H2, H1, pushes_app. reflexivity.
Qed.

(** [finish] on a frame that is a chain somewhere in the heap. *)
Lemma finish_chain_frame (w : Writer) (h h1 : list Op) (es : list Entry) :
  heap w = h ++ chain (length h) (sentinel :: es) ++ h1 ->
  head w = length h ->
  len w = total_len es ->
  fst (finish w) = Some (apply_stores (emit_stores 0 es) (new_buf (total_len es))).
Proof.
  intros Hh Hhd Hlen. unfold finish. cbn [fst].
  assert (Hnext : next_of (heap w) (head w)
                  = match es with [] => None | _ :: _ => Some (length h + 1)%nat end).
  { unfold next_of. rewrite Hh, Hhd, lookup_app_r by lia.
    rewrite Nat.sub_diag. destruct es; cbn; [reflexivity|]. f_equal. lia. }
  assert (Hheap : exists h2, heap (reset w) = h ++ chain (length h) ([sentinel] ++ es) ++ h2).
  { unfold reset. destruct (states w); cbn [heap].
    - eexists. rewrite Hh, <- !app_assoc. reflexivity.
    - exists h1. rewrite Hh. reflexivity. }
  destruct Hheap as [h2 Hheap]. rewrite Hnext, Hheap, Hlen.
  apply (finish_internal_chain h [sentinel] es h2).
  rewrite !length_app, length_chain, length_app. cbn [length]. lia.
Qed.

(** The writer [finish] leaves when a fork is open: the saved state. *)
Lemma finish_pops (w : Writer) (s : State) (rest : list State) :
  states w = s :: rest ->
  snd (finish w) = mkWriter (heap w) (st_len s) (st_head s) (st_tail s) rest.
Proof. intros Hs. unfold finish, reset. rewrite Hs. reflexivity. Qed.

(** C9, amended: when [finish] is called with a fork open, scalar writes
    [inner] having followed the [fork] on any writer [w0], it does not
    fail; it returns the current (inner) frame alone, the very buffer
    [inner] gives on a writer of its own; it pops the fork: head, tail,
    len and states are those of [w0] again, and the Ops of [w0] are as
    they were; so the outer frame is kept, and when [w0] was itself built
    by scalar writes [outer], the next [finish] returns their buffer. *)
Theorem finish_while_forked (w0 : Writer) (outer inner : list Cmd) :
  forallb scalar inner = true ->
  let w := run inner (fork w0) in
  let w' := snd (finish w) in
  states w = mkState (head w0) (tail w0) (len w0) :: states w0
  /\ is_Some (fst (finish w))
  /\ fst (finish w) = fst (finish (run inner Writer_new))
  /\ fst (finish w) = frame_buffer (heap w) (head w) (len w)
  /\ head w' = head w0 /\ tail w' = tail w0 /\ len w' = len w0
  /\ states w' = states w0
  /\ take (length (heap w0)) (heap w') = heap w0
  /\ (forallb scalar outer = true -> w0 = run outer Writer_new ->
      fst (finish w') = fst (finish (run outer Writer_new))).
Proof.
  intros Hi. cbv zeta.
  destruct (scalar_run_pushes inner Hi) as (ei & _ & Hei). rewrite !Hei.
  destruct (pushes_on_chain ei _ _ _ _ (fork_on_chain w0)) as [Hin Hin_st].
  destruct (pushes_on_chain ei _ _ _ _ Writer_new_on_chain) as [Halone _].
  cbn [app] in *. set (w := pushes ei (fork w0)) in *.
  assert (Hst : states w = mkState (head w0) (tail w0) (len w0) :: states w0)
    by (by rewrite Hin_st).
  assert (Hfin : fst (finish w)
                 = Some (apply_stores (emit_stores 0 ei) (new_buf (total_len ei)))).
  { destruct Hin as (Hh & Hhd & _ & Hlen).
    apply (finish_chain_frame w (heap w0) []); [by rewrite app_nil_r | done | by rewrite Hlen]. }
  split; [exact Hst|]. split; [by rewrite Hfin|].
  split.
  { rewrite Hfin. symmetry. destruct Halone as (Hh & Hhd & _ & Hlen).
    apply (finish_chain_frame _ [] []); [by rewrite app_nil_r | done | by rewrite Hlen]. }
  split.
  { unfold finish, frame_buffer. cbn [fst]. unfold reset. rewrite Hst. reflexivity. }
  rewrite (finish_pops w _ _ Hst). cbn [st_len st_head st_tail head tail len states heap].
  destruct Hin as (Hh & _).
  do 4 (split; [reflexivity|]).
  split; [by rewrite Hh, take_app_length|].
  intros Ho Hw0.
  destruct (scalar_run_pushes outer Ho) as (eo & _ & Heo). rewrite Heo in *.
  destruct (pushes_on_chain eo _ _ _ _ Writer_new_on_chain) as [Hout _].
  cbn [app] in Hout. rewrite <- Hw0 in Hout. destruct Hout as (Hh0 & Hhd0 & _ & Hlen0).
  transitivity (Some (apply_stores (emit_stores 0 eo) (new_buf (total_len eo)))).
  - apply (finish_chain_frame _ [] (chain (length (heap w0)) (sentinel :: ei)));
      cbn [heap head len app length]; [|done|by rewrite Hlen0].
    rewrite Hh. rewrite Hh0 at 1. reflexivity.
  - symmetry. rewrite <- Hw0.
    apply (finish_chain_frame _ [] []); [by rewrite app_nil_r | done | by rewrite Hlen0].
Qed.

(** [uint32(1); fork(); uint32(2); finish()] returns [02]. *)
Lemma finish_while_forked_witness :
  forallb scalar [CUint32 2] = true
  /\ forallb scalar [CUint32 1] = true
  /\ fst (finish (run [CUint32 2] (fork (run [CUint32 1] Writer_new))))
     = fst (finish (run [CUint32 2] Writer_new))
  /\ fst (finish (run [CUint32 2] Writer_new)) = Some [2]
  /\ fst (finish (snd (finish (run [CUint32 2] (fork (run [CUint32 1] Writer_new))))))
     = fst (finish (run [CUint32 1] Writer_new))
  /\ fst (finish (run [CUint32 1] Writer_new)) = Some [1].
Proof.
  pose proof (finish_while_forked (run [CUint32 1] Writer_new) [CUint32 1] [CUint32 2]
                ltac:(reflexivity)) as H.
  cbv zeta in H. destruct H as (_ & _ & Hinner & _ & _ & _ & _ & _ & _ & Houter).
  split; [reflexivity|]. split; [reflexivity|]. split; [exact Hinner|].
  split; [reflexivity|]. split; [|reflexivity].
  apply Houter; reflexivity.
Defined.

(** ** Fixed-width values *)

(** Stores at consecutive positions overwrite a stretch of the buffer with
    the bytes stored. *)
Lemma apply_stores_seq (st : Stores) (pre mid post : Buf) :
  positions st = seqZ (Z.of_nat (length pre)) (Z.of_nat (length st)) ->
  length mid = length st ->
  apply_stores st (pre ++ mid ++ post) = pre ++ stored st ++ post.
Proof.
  revert pre mid. induction st as [|[p v] st IH]; intros pre mid Hpos Hmid.
  - destruct mid; [reflexivity | discriminate Hmid].
  - destruct mid as [|m mid]; [discriminate Hmid|].
    cbn [length] in Hpos. rewrite Nat2Z.inj_succ, <- Z.add_1_l in Hpos.
    rewrite seqZ_step in Hpos by lia. cbn [positions map fst] in Hpos.
    injection Hpos as -> Hpos.
    unfold apply_stores in *. cbn [foldl fst snd stored map].
    unfold buf_set at 2. rewrite bool_decide_eq_true_2 by lia.
    rewrite Nat2Z.id, insert_app_r_alt, Nat.sub_diag by lia.
    cbn [app]. change (<[0%nat:=?x]> (?y :: ?l)) with (x :: l).
    rewrite (cons_middle (v mod 256) pre), app_assoc.
    rewrite (IH (pre ++ [v mod 256]) mid).
    + rewrite <- app_assoc. reflexivity.
    + rewrite length_app, Nat2Z.inj_add. exact Hpos.
    + by injection Hmid.
Qed.

(** [writeFixed32] stores the four bytes of an unsigned 32-bit value,
    least significant first. *)
Lemma writeFixed32_le32 (pos x : Z) :
  0 <= x < 2 ^ 32 ->
  stored (writeFixed32 pos x) = le32 x
  /\ positions (writeFixed32 pos x) = seqZ pos 4.
Proof.
  intros Hx. split.
  2:{ change 4 with (1 + (1 + (1 + (1 + 0)))).
      repeat (rewrite seqZ_step by lia). rewrite <- !Z.add_assoc. reflexivity. }
  unfold writeFixed32, stored, le32. cbn [map snd].
  rewrite !band_255, !shr_div, !ToUint32_id by lia.
  rewrite !Z.mod_mod by lia.
  change (2 ^ 32) with 4294967296 in Hx. change (2 ^ 24) with 16777216.
  rewrite (Z.mod_small (x / 16777216) 256) by (Z.div_mod_to_equations; lia).
  reflexivity.
Qed.

(** What [fixed64] and [sfixed64] do with the LongBits they are given: two
    ops of four bytes, [hi] first and [lo] second. *)
Lemma fixed64_bits_finish (bits : LongBits.t) :
  0 <= LongBits.lo bits < 2 ^ 32 -> 0 <= LongBits.hi bits < 2 ^ 32 ->
  fst (finish (fixed64_bits bits Writer_new))
  = Some (le32 (LongBits.hi bits) ++ le32 (LongBits.lo bits)).
Proof.
  intros Hlo Hhi.
  change (fixed64_bits bits Writer_new)
    with (pushes [(fn_writeFixed32, 4, VNum (LongBits.hi bits));
                  (fn_writeFixed32, 4, VNum (LongBits.lo bits))] Writer_new).
  destruct (pushes_on_chain
              [(fn_writeFixed32, 4, VNum (LongBits.hi bits));
               (fn_writeFixed32, 4, VNum (LongBits.lo bits))]
              _ _ _ _ Writer_new_on_chain) as [(Hh & Hhd & _ & Hlen) _].
  cbn [app] in Hh, Hlen.
  rewrite (finish_chain_frame _ [] []
             [(fn_writeFixed32, 4, VNum (LongBits.hi bits));
              (fn_writeFixed32, 4, VNum (LongBits.lo bits))]);
    [| by rewrite app_nil_r | done | by rewrite Hlen].
  cbn [app emit_stores call fst snd]. f_equal.
  destruct (writeFixed32_le32 0 _ Hhi) as [Hs1 Hp1].
  destruct (writeFixed32_le32 (0 + 4) _ Hlo) as [Hs2 Hp2].
  change (new_buf (total_len _)) with ([] ++ replicate 8 0 ++ [] : list Z).
  rewrite apply_stores_seq.
  - unfold stored in *. rewrite app_nil_r, app_nil_l, map_app, app_nil_r, Hs1, Hs2.
    reflexivity.
  - reflexivity.
  - reflexivity.
Qed.

Lemma from_halves (v : Z) :
  0 <= LongBits.lo (LongBits.from v) < 2 ^ 32
  /\ 0 <= LongBits.hi (LongBits.from v) < 2 ^ 32.
Proof.
  unfold LongBits.from, LongBits.fromNumber. cbn [LongBits.lo LongBits.hi].
  change (2 ^ 32) with 4294967296. change (2 ^ 64) with 18446744073709551616.
  split; Z.div_mod_to_equations; lia.
Qed.

Lemma zzEncode_halves (b : LongBits.t) :
  0 <= LongBits.lo (LongBits.zzEncode b) < 2 ^ 32
  /\ 0 <= LongBits.hi (LongBits.zzEncode b) < 2 ^ 32.
Proof.
  unfold LongBits.zzEncode. cbn [LongBits.lo LongBits.hi].
  generalize (Z.lxor
                (Z.shiftl ((LongBits.hi b * 2 ^ 32 + LongBits.lo b + 2 ^ 63) mod 2 ^ 64 - 2 ^ 63) 1)
                (Z.shiftr ((LongBits.hi b * 2 ^ 32 + LongBits.lo b + 2 ^ 63) mod 2 ^ 64 - 2 ^ 63) 63)).
  intros z. change (2 ^ 32) with 4294967296. change (2 ^ 64) with 18446744073709551616.
  split; Z.div_mod_to_equations; lia.
Qed.

(** C1, on the code: [fixed64(v)] enqueues the [hi] half of
    [LongBits.from(v)] first and the [lo] half second, each as four
    little-endian bytes, and so does [sfixed64(v)] after [zzEncode]: the
    eight bytes are [hi] then [lo], not the little-endian 64-bit layout
    [lo] then [hi].  For [v = 1] the writer returns
    [00 00 00 00 01 00 00 00]. *)
Theorem fixed64_emits_hi_before_lo (v : Z) :
  let bits := LongBits.from v in
  let zz := LongBits.zzEncode (LongBits.from v) in
  fst (finish (fixed64 v Writer_new)) = Some (le32 (LongBits.hi bits) ++ le32 (LongBits.lo bits))
  /\ fst (finish (sfixed64 v Writer_new)) = Some (le32 (LongBits.hi zz) ++ le32 (LongBits.lo zz))
  /\ fst (finish (fixed64 1 Writer_new)) = Some [0; 0; 0; 0; 1; 0; 0; 0]
  /\ fst (finish (fixed64 1 Writer_new))
     <> Some (le32 (LongBits.lo (LongBits.from 1)) ++ le32 (LongBits.hi (LongBits.from 1)))
  /\ fst (finish (sfixed64 1 Writer_new)) = Some [0; 0; 0; 0; 2; 0; 0; 0]
  /\ fst (finish (sfixed64 1 Writer_new))
     <> Some (le32 (LongBits.lo (LongBits.zzEncode (LongBits.from 1)))
              ++ le32 (LongBits.hi (LongBits.zzEncode (LongBits.from 1)))).
Proof.
  cbv zeta. split; [|split].
  - apply fixed64_bits_finish; apply from_halves.
  - apply fixed64_bits_finish; apply zzEncode_halves.
  - vm_compute. repeat split; congruence.
Qed.

(** ** The length invariant on queues built by [push] alone *)

Lemma ops_from_chain (h : list Op) (es1 es2 : list Entry) (h1 : list Op) (fuel : nat) :
  (length es2 <= fuel)%nat ->
  ops_from fuel (h ++ chain (length h) (es1 ++ es2) ++ h1)
    (match es2 with [] => None | _ :: _ => Some (length h + length es1)%nat end)
  = Some (chain (length h + length es1)%nat es2).
Proof.
  revert es1 fuel. induction es2 as [|e es2 IH]; intros es1 fuel Hf.
  - destruct fuel; reflexivity.
  - destruct fuel as [|fuel]; [cbn in Hf; lia|].
    cbn [ops_from].
    rewrite lookup_app_r by lia.
    replace (length h + length es1 - length h)%nat with (length es1) by lia.
    rewrite lookup_app_l by (rewrite length_chain, length_app; cbn; lia).
    rewrite (chain_lookup _ _ _ e) by (by rewrite list_lookup_middle).
    cbn [op_next chain].
    specialize (IH (es1 ++ [e]) fuel ltac:(cbn in Hf; lia)).
    rewrite <- app_assoc in IH. cbn [app] in IH.
    rewrite !length_app in *. cbn [length] in *.
    replace (length h + (length es1 + 1))%nat with (S (length h + length es1)) in IH by lia.
    destruct es2 as [|e' es2].
    + rewrite decide_False by (cbn [length]; lia). destruct fuel; reflexivity.
    + rewrite decide_True by (cbn [length]; lia).
      replace (length h + S (length es1))%nat with (S (length h + length es1)) by lia.
      rewrite IH. reflexivity.
Qed.

Lemma chain_total_len (a : addr) (es : list Entry) :
  foldr (fun o s => op_len o + s) 0 (chain a es) = total_len es.
Proof.
  revert a. induction es as [|e es IH]; intros a; [reflexivity|].
  cbn [chain foldr op_len]. rewrite IH. reflexivity.
Qed.

(** On a frame that is a chain, [len] is the sum of the lengths of the ops
    reachable from [head.next]. *)
Lemma len_invariant_on_chain (w : Writer) (h : list Op) (es : list Entry) :
  on_chain w h es 0 -> len_invariant w.
Proof.
  intros (Hh & Hhd & _ & Hlen). unfold len_invariant, queue_len, queue.
  assert (Hnext : next_of (heap w) (head w)
                  = match es with [] => None | _ :: _ => Some (length h + 1)%nat end).
  { unfold next_of. rewrite Hh, Hhd, lookup_app_r by lia.
    rewrite Nat.sub_diag. destruct es; cbn; [reflexivity|]. f_equal. lia. }
  rewrite Hnext, Hh.
  rewrite <- (app_nil_r (chain _ _)).
  rewrite (ops_from_chain h [sentinel] es [])
    by (rewrite ?length_app, ?length_chain; cbn [length]; lia).
  cbn [fmap option_fmap option_map]. rewrite chain_total_len, Hlen. f_equal.
Qed.

(** Scalar writes alone, on a fresh writer or after a [fork], keep the
    invariant. *)
Lemma len_invariant_scalar (cs : list Cmd) (w0 : Writer) :
  forallb scalar cs = true ->
  len_invariant (run cs Writer_new) /\ len_invariant (run cs (fork w0)).
Proof.
  intros Hcs. destruct (scalar_run_pushes cs Hcs) as (es & _ & Hes). rewrite !Hes.
  split.
  - destruct (pushes_on_chain es _ _ _ _ Writer_new_on_chain) as [H _].
    exact (len_invariant_on_chain _ _ _ H).
  - destruct (pushes_on_chain es _ _ _ _ (fork_on_chain w0)) as [H _].
    exact (len_invariant_on_chain _ _ _ H).
Qed.

(** ** Ops that store exactly their length *)

Lemma stored_varint_stores (pos u : Z) (n : nat) :
  stored (varint_stores pos u n) = stored (varint_stores 0 u n).
Proof. unfold stored, varint_stores. rewrite !map_map. reflexivity. Qed.

Lemma exact_varint (f : Fn) (u : Z) (n : nat) :
  (1 <= n)%nat ->
  (forall pos, call f pos (VNum u) = varint_stores pos u n) ->
  exact (f, Z.of_nat n, VNum u).
Proof.
  intros Hn Hcall. split; [cbn; lia|]. intros pos. cbn [fst snd].
  rewrite !Hcall. split; [apply varint_stores_positions | apply stored_varint_stores].
Qed.

Lemma exact_uint32 (v : Z) :
  exact (if bool_decide (ToUint32 v < 128) then fn_writeByte else fn_writeVarint32,
         varint_size (ToUint32 v), VNum (ToUint32 v)).
Proof.
  pose proof (varint_size_range (ToUint32 v)) as Hn.
  rewrite <- (Z2Nat.id (varint_size (ToUint32 v))) by lia.
  apply exact_varint; [lia|]. intros pos. apply uint32_call, ToUint32_range.
Qed.

Lemma exact_writeByte (v : Z) : exact (fn_writeByte, 1, VNum v).
Proof. split; [cbn; lia|]. intros pos. split; reflexivity. Qed.

Lemma exact_writeFixed32 (v : Z) : exact (fn_writeFixed32, 4, VNum v).
Proof.
  split; [cbn; lia|]. intros pos. split; [|reflexivity].
  cbn [fst snd call]. unfold writeFixed32, positions. cbn [map fst].
  change 4 with (1 + (1 + (1 + (1 + 0)))).
  repeat (rewrite seqZ_step by lia). rewrite <- !Z.add_assoc. reflexivity.
Qed.

Lemma stored_writeVarint64 (pos lo hi : Z) :
  0 <= lo < 2 ^ 32 -> 0 <= hi < 2 ^ 32 ->
  stored (writeVarint64 pos (LongBits.mk lo hi)) = stored (writeVarint64 0 (LongBits.mk lo hi)).
Proof.
  intros Hlo Hhi.
  assert (Hu : 0 <= hi * 2 ^ 32 + lo) by lia.
  destruct (varint_groups_exist _ Hu) as (n & Hge & Hlt & _).
  rewrite !(writeVarint64_groups n) by done. apply stored_varint_stores.
Qed.

Lemma exact_writeVarint64 (b : LongBits.t) :
  0 <= LongBits.lo b < 2 ^ 32 -> 0 <= LongBits.hi b < 2 ^ 32 ->
  exact (fn_writeVarint64, LongBits.length b, VLong b).
Proof.
  destruct b as [lo hi]. cbn [LongBits.lo LongBits.hi]. intros Hlo Hhi. split.
  - cbn [fst snd]. unfold LongBits.length. cbn [LongBits.lo LongBits.hi].
    case_bool_decide; [lia|].
    assert (0 <= Z.log2 (hi * 2 ^ 32 + lo)) by apply Z.log2_nonneg.
    Z.div_mod_to_equations. lia.
  - intros pos. cbn [fst snd call]. split.
    + apply writeVarint64_decode; done.
    + by apply stored_writeVarint64.
Qed.

Lemma exact_int32_negative (v : Z) :
  - 2 ^ 31 <= v < 0 -> exact (fn_writeVarint64, 10, VLong (LongBits.fromNumber v)).
Proof.
  intros Hv. replace 10 with (LongBits.length (LongBits.fromNumber v)).
  - apply exact_writeVarint64; apply (from_halves v).
  - rewrite fromNumber_negative by done. unfold LongBits.length.
    cbn [LongBits.lo LongBits.hi]. change (2 ^ 31) with 2147483648 in Hv.
    change (2 ^ 32) with 4294967296.
    rewrite bool_decide_eq_false_2 by lia.
    assert (Hl : Z.log2 ((4294967296 - 1) * 4294967296 + (v + 4294967296)) = 63).
    { apply Z.log2_unique; [lia|]. change (2 ^ 63) with 9223372036854775808.
      change (2 ^ (63 + 1)) with 18446744073709551616. lia. }
    rewrite Hl. reflexivity.
Qed.

Lemma writeBytes_positions (pos : Z) (b : list Z) :
  positions (writeBytes pos b) = seqZ pos (Z.of_nat (length b)).
Proof.
  unfold writeBytes, positions. revert pos. induction b as [|x b IH]; intros pos; [reflexivity|].
  cbn [imap map fst length]. rewrite Nat2Z.inj_succ, <- Z.add_1_l, seqZ_step by lia.
  f_equal; [lia|]. rewrite <- IH. f_equal. apply imap_ext. intros i y _. cbn. f_equal. lia.
Qed.

Lemma writeBytes_stored (pos : Z) (b : list Z) :
  stored (writeBytes pos b) = map (fun x => x mod 256) b.
Proof.
  unfold writeBytes, stored. revert pos. induction b as [|x b IH]; intros pos; [reflexivity|].
  cbn [imap map snd]. f_equal. rewrite <- (IH (pos + 1)). f_equal.
  apply imap_ext. intros i y _. cbn. f_equal. lia.
Qed.

Lemma exact_writeBytes (b : list Z) :
  b <> [] -> exact (fn_writeBytes, Z.of_nat (length b), VBytes b).
Proof.
  intros Hb. split; [destruct b; [done | cbn [fst snd length]; lia]|].
  intros pos. cbn [fst snd call]. split; [apply writeBytes_positions|].
  by rewrite !writeBytes_stored.
Qed.

Lemma writeString_loop_stored (fuel : nat) (val : list Z) (i : nat) (pos : Z) :
  stored (writeString_loop fuel val i pos) = stored (writeString_loop fuel val i 0).
Proof.
  revert i pos. induction fuel as [|fuel IH]; intros i pos; [reflexivity|].
  cbn [writeString_loop]. destruct (charCodeAt val i) as [c1|]; [|reflexivity].
  repeat match goal with
         | |- context [if ?b then _ else _] => destruct b
         end;
    unfold stored in *; cbn [map snd];
    repeat (apply (f_equal2 cons); [reflexivity|]);
    rewrite IH; symmetry; apply IH.
Qed.

Lemma exact_writeString (s : list Z) :
  Z.of_nat (length s) < 2 ^ 32 -> byteLength s <> 0 ->
  exact (fn_writeString, byteLength s, VString s).
Proof.
  intros Hs Hnz.
  assert (Hcount : forall pos, Z.of_nat (length (writeString pos s)) = byteLength s).
  { intros pos. unfold byteLength, writeString. rewrite ToUint32_id by lia.
    rewrite (proj1 (string_loops_in_step _ s 0 pos 0)). lia. }
  split; [cbn [fst snd]; specialize (Hcount 0); lia|].
  intros pos. cbn [fst snd call]. split.
  - rewrite <- (Hcount pos). apply (proj2 (string_loops_in_step _ s 0 pos 0)).
  - apply writeString_loop_stored.
Qed.

(** Every scalar write, on arguments in range, enqueues one or two ops,
    each storing exactly its length. *)
Lemma scalar_step_exact (c : Cmd) :
  scalar c = true -> in_range c ->
  exists es, (forall w, step c w = pushes es w) /\ Forall exact es /\ es <> [].
Proof.
  destruct c; intros Hc Hr; try discriminate Hc; cbn [step in_range] in *.
  - eexists [(_, _, _)]. split; [reflexivity|]. split; [|done].
    constructor; [apply exact_writeByte | constructor].
  - eexists [(_, _, _)]. split; [intros w; apply uint32_push|]. split; [|done].
    constructor; [apply exact_uint32 | constructor].
  - destruct (decide (v < 0)) as [Hneg | Hpos].
    + eexists [(_, _, _)]. split; [|split; [|done]].
      * intros w. unfold int32. rewrite bool_decide_eq_true_2 by done. reflexivity.
      * constructor; [apply exact_int32_negative; lia | constructor].
    + eexists [(_, _, _)]. split; [|split; [|done]].
      * intros w. unfold int32. rewrite bool_decide_eq_false_2 by done. apply uint32_push.
      * constructor; [apply exact_uint32 | constructor].
  - eexists [(_, _, _)]. split; [intros w; unfold sint32; apply uint32_push|].
    split; [|done]. constructor; [apply exact_uint32 | constructor].
  - eexists [(_, _, _)]. split; [reflexivity|]. split; [|done].
    constructor; [apply exact_writeVarint64; apply from_halves | constructor].
  - eexists [(_, _, _)]. split; [reflexivity|]. split; [|done].
    constructor; [apply exact_writeVarint64; apply from_halves | constructor].
  - eexists [(_, _, _)]. split; [reflexivity|]. split; [|done].
    constructor; [apply exact_writeVarint64; apply zzEncode_halves | constructor].
  - eexists [(_, _, _)]. split; [reflexivity|]. split; [|done].
    constructor; [apply exact_writeByte | constructor].
  - eexists [(_, _, _)]. split; [reflexivity|]. split; [|done].
    constructor; [apply exact_writeFixed32 | constructor].
  - eexists [(_, _, _)]. split; [reflexivity|]. split; [|done].
    constructor; [apply exact_writeFixed32 | constructor].
  - eexists [(_, _, _); (_, _, _)]. split; [reflexivity|]. split; [|done].
    constructor; [apply exact_writeFixed32 | constructor; [apply exact_writeFixed32 | constructor]].
  - eexists [(_, _, _); (_, _, _)]. split; [reflexivity|]. split; [|done].
    constructor; [apply exact_writeFixed32 | constructor; [apply exact_writeFixed32 | constructor]].
  - assert (Hl : shr (Z.of_nat (length b)) 0 = Z.of_nat (length b))
      by (rewrite shr_0; apply ToUint32_id; lia).
    destruct b as [|x b].
    + eexists [(_, _, _)]. split; [reflexivity|]. split; [|done].
      constructor; [apply exact_writeByte | constructor].
    + exists [(if bool_decide (ToUint32 (Z.of_nat (length (x :: b))) < 128)
               then fn_writeByte else fn_writeVarint32,
               varint_size (ToUint32 (Z.of_nat (length (x :: b)))),
               VNum (ToUint32 (Z.of_nat (length (x :: b)))));
              (fn_writeBytes, Z.of_nat (length (x :: b)), VBytes (x :: b))].
      split; [|split; [|done]].
      * intros w. unfold bytes. rewrite Hl.
        rewrite bool_decide_eq_true_2 by (cbn [length]; lia).
        rewrite uint32_push. reflexivity.
      * constructor; [apply exact_uint32 | constructor; [by apply exact_writeBytes | constructor]].
  - destruct (decide (byteLength s = 0)) as [Hz | Hnz].
    + eexists [(_, _, _)]. split; [|split; [|done]].
      * intros w. unfold string. rewrite bool_decide_eq_false_2 by lia. reflexivity.
      * constructor; [apply exact_writeByte | constructor].
    + exists [(if bool_decide (ToUint32 (byteLength s) < 128)
               then fn_writeByte else fn_writeVarint32,
               varint_size (ToUint32 (byteLength s)), VNum (ToUint32 (byteLength s)));
              (fn_writeString, byteLength s, VString s)].
      split; [|split; [|done]].
      * intros w. unfold string. rewrite bool_decide_eq_true_2 by done.
        rewrite uint32_push. reflexivity.
      * constructor; [apply exact_uint32 | constructor; [by apply exact_writeString | constructor]].
Qed.

Lemma scalar_run_exact (cs : list Cmd) :
  forallb scalar cs = true -> Forall in_range cs ->
  exists es, (forall w, run cs w = pushes es w) /\ Forall exact es
             /\ (cs <> [] -> es <> []).
Proof.
  induction cs as [|c cs IH]; intros Hcs Hr.
  - exists []. split; [reflexivity|]. split; [constructor | done].
  - cbn [forallb] in Hcs. apply andb_prop in Hcs as [Hc Hcs].
    apply Forall_cons in Hr as [Hrc Hr].
    destruct (scalar_step_exact c Hc Hrc) as (es1 & H1 & He1 & Hne1).
    destruct (IH Hcs Hr) as (es2 & H2 & He2 & _).
    exists (es1 ++ es2). split; [|split].
    + intros w. unfold run. cbn [foldl].
      fold (run cs (step c w)). rewrite H2, H1, pushes_app. reflexivity.
    + by apply Forall_app.
    + intros _. destruct es1; [done | discriminate].
Qed.

Lemma total_len_exact (es : list Entry) :
  Forall exact es -> Z.of_nat (length es) <= total_len es.
Proof.
  induction 1 as [|e es [He _] _ IH]; [reflexivity|].
  unfold total_len in *. cbn [foldr length]. lia.
Qed.

Lemma emit_stores_app (pos : Z) (es1 es2 : list Entry) :
  emit_stores pos (es1 ++ es2)
  = emit_stores pos es1 ++ emit_stores (pos + total_len es1) es2.
Proof.
  revert pos. induction es1 as [|e es1 IH]; intros pos.
  - cbn. by rewrite Z.add_0_r.
  - cbn [app emit_stores]. rewrite IH, <- app_assoc. do 3 f_equal.
    unfold total_len. cbn [foldr]. lia.
Qed.

(** Exact ops, called in order, store exactly the sum of their lengths, at
    consecutive positions, and the same bytes wherever they start. *)
Lemma emit_stores_exact (pos : Z) (es : list Entry) :
  Forall exact es ->
  positions (emit_stores pos es) = seqZ pos (total_len es)
  /\ stored (emit_stores pos es) = stored (emit_stores 0 es).
Proof.
  intros Hes. revert pos. induction Hes as [|e es [Hl He] Hes IH]; intros pos.
  - split; reflexivity.
  - pose proof (total_len_exact es Hes) as Ht.
    cbn [emit_stores]. unfold positions, stored in *. rewrite !map_app.
    destruct (He pos) as [Hp Hs]. rewrite Hp, Hs.
    destruct (IH (pos + snd (fst e))) as [Hp' Hs']. rewrite Hp', Hs'.
    destruct (IH (0 + snd (fst e))) as [_ Hs0]. rewrite Hs0.
    split; [|reflexivity].
    change (total_len (e :: es)) with (snd (fst e) + total_len es).
    rewrite seqZ_app by lia. reflexivity.
Qed.

(** ** Segments of a queue *)

Section segments.

Implicit Types (es : list Entry) (e : Entry) (h : list Op) (a t : addr)
  (nxt : option addr).

Lemma seg_chain h es (h1 : list Op) : seg (h ++ chain (length h) es ++ h1) (length h) es None.
Proof.
  intros i e Hi. rewrite lookup_app_r by lia.
  replace (length h + i - length h)%nat with i by lia.
  rewrite lookup_app_l by (rewrite length_chain; by apply lookup_lt_Some in Hi).
  by apply chain_lookup.
Qed.

Lemma seg_app_heap h (h' : list Op) a es nxt : seg h a es nxt -> seg (h ++ h') a es nxt.
Proof. intros Hs i e Hi. apply lookup_app_l_Some. by apply Hs. Qed.

Lemma seg_set_next_other h a es nxt t n :
  seg h a es nxt -> (t < a \/ a + length es <= t)%nat -> seg (set_next h t n) a es nxt.
Proof.
  intros Hs Ht i e Hi. unfold set_next.
  rewrite list_lookup_alter_ne; [by apply Hs|].
  apply lookup_lt_Some in Hi. lia.
Qed.

Lemma seg_set_next_last h a es nxt t n :
  seg h a es nxt -> t = (a + length es - 1)%nat -> seg (set_next h t n) a es n.
Proof.
  intros Hs -> i e Hi. unfold set_next. pose proof (lookup_lt_Some _ _ _ Hi) as Hlt.
  destruct (decide ((a + length es - 1) = a + i)%nat) as [Heq | Hne].
  - rewrite Heq, list_lookup_alter_eq, (Hs i e Hi). cbn [fmap option_fmap option_map].
    cbn [op_fn op_val op_len]. rewrite decide_False by lia. reflexivity.
  - rewrite list_lookup_alter_ne by done. rewrite (Hs i e Hi).
    do 2 f_equal. repeat case_decide; try lia; reflexivity.
Qed.

Lemma seg_tail h a e es nxt : seg h a (e :: es) nxt -> seg h (S a) es nxt.
Proof.
  intros Hs i e' Hi. specialize (Hs (S i) e' Hi). cbn [length] in Hs.
  replace (S a + i)%nat with (a + S i)%nat by lia. rewrite Hs.
  repeat case_decide; try lia; [do 3 f_equal; lia | reflexivity].
Qed.

Lemma seg_head_next h a e es nxt :
  seg h a (e :: es) nxt ->
  next_of h a = match es with [] => nxt | _ :: _ => Some (S a) end.
Proof.
  intros Hs. specialize (Hs 0%nat e eq_refl). unfold next_of.
  rewrite Nat.add_0_r in Hs. rewrite Hs. clear Hs. cbn [mbind option_bind op_next].
  destruct es; cbn [length]; case_decide; try lia; [reflexivity|]. f_equal. lia.
Qed.

(** The walk of [finish_internal] through a segment. *)
Lemma finish_internal_seg h a es nxt (fuel : nat) (pos : Z) (buf : Buf) :
  seg h a es nxt -> es <> [] ->
  finish_internal (length es + fuel) h (Some a) pos buf
  = finish_internal fuel h nxt (pos + total_len es)
      (apply_stores (emit_stores pos es) buf).
Proof.
  revert a pos buf. induction es as [|e es IH]; intros a pos buf Hs Hne; [done|].
  cbn [length Nat.add finish_internal].
  pose proof (Hs 0%nat e eq_refl) as H0. rewrite Nat.add_0_r in H0. rewrite H0.
  cbn [op_next op_len op_fn op_val emit_stores]. rewrite apply_stores_app.
  change (total_len (e :: es)) with (snd (fst e) + total_len es). rewrite Z.add_assoc.
  destruct es as [|e' es].
  - rewrite decide_False by (cbn [length]; lia).
    cbn [length Nat.add emit_stores]. unfold total_len. cbn [foldr].
    rewrite Z.add_0_r. reflexivity.
  - rewrite decide_True by (cbn [length]; lia).
    replace (a + 1)%nat with (S a) by lia.
    apply IH; [by apply (seg_tail _ _ e) | done].
Qed.

(** [pushes] in general: the tail is linked to the first new Op, and the
    new Ops are a chain at the end of the heap. *)
Lemma pushes_heap es (w : Writer) :
  (tail w < length (heap w))%nat -> es <> [] ->
  heap (pushes es w)
  = set_next (heap w) (tail w) (Some (length (heap w))) ++ chain (length (heap w)) es
  /\ tail (pushes es w) = (length (heap w) + length es - 1)%nat
  /\ len (pushes es w) = len w + total_len es
  /\ head (pushes es w) = head w
  /\ states (pushes es w) = states w.
Proof.
  intros Ht. induction es as [|e es IH] using rev_ind; [done|]. intros _.
  rewrite pushes_app. change (pushes [e] ?w) with (push_entry w e).
  destruct es as [|e0 es].
  - cbn [pushes foldl app]. unfold push_entry, push. cbn [heap tail len head states].
    unfold set_next. rewrite alter_app_l by done.
    repeat split; cbn [length chain]; try lia.
    unfold total_len. cbn. lia.
  - destruct (IH ltac:(done)) as (Hh & Htl & Hlen & Hhd & Hst).
    set (w' := pushes (e0 :: es) w) in *.
    unfold push_entry, push. cbn [heap tail len head states].
    rewrite Hh, Htl, Hlen, Hhd, Hst, total_len_app.
    assert (Hn : length (set_next (heap w) (tail w) (Some (length (heap w))))
                 = length (heap w)) by (unfold set_next; apply length_alter).
    set (h' := set_next (heap w) (tail w) (Some (length (heap w)))) in *.
    repeat split.
    + rewrite <- app_assoc, length_app, length_chain, Hn. unfold set_next.
      rewrite alter_app_r_alt by (rewrite Hn; cbn [length]; lia).
      f_equal. rewrite <- (chain_snoc _ (e0 :: es) e) by done. unfold set_next.
      rewrite Hn. f_equal. cbn [length]. lia.
    + rewrite !length_app, Hn, length_chain. cbn [length]. lia.
    + unfold total_len. cbn. lia.
Qed.

End segments.

(** ** [fork] and [ldelim] around a frame that is not empty *)

Lemma ldelim_prefix_pushes (id : option Z) (l : Z) (w : Writer) :
  uint32 l (match id with Some id => tag id 2 w | None => w end)
  = pushes (prefix_entries id l) w.
Proof. destruct id; rewrite uint32_push; reflexivity. Qed.

Lemma prefix_entries_nonempty (id : option Z) (l : Z) : prefix_entries id l <> [].
Proof. destruct id; discriminate. Qed.

Lemma emit_stores_sentinel (pos : Z) (es : list Entry) :
  emit_stores pos (sentinel :: es) = emit_stores pos es.
Proof. cbn [emit_stores sentinel fst snd call app]. by rewrite Z.add_0_r. Qed.

Lemma total_len_sentinel (es : list Entry) : total_len (sentinel :: es) = total_len es.
Proof. reflexivity. Qed.

Lemma seg_chain_end (h : list Op) (es : list Entry) :
  seg (h ++ chain (length h) es) (length h) es None.
Proof. pose proof (seg_chain h es []) as H. by rewrite app_nil_r in H. Qed.

(** After [fork(); inner; ldelim(id)] with at least one inner op, the
    queue runs through the outer ops, the tag and length, and the inner
    ops, and the tail is the last inner op. *)
Lemma ldelim_spliced (eb ei : list Entry) (id : option Z) :
  ei <> [] ->
  let et := prefix_entries id (total_len ei) in
  let n0 := S (length eb) in
  let n1 := (n0 + S (length ei))%nat in
  let w := ldelim id (pushes ei (fork (pushes eb Writer_new))) in
  seg (heap w) 0 (sentinel :: eb) (Some n1)
  /\ seg (heap w) n1 et (Some (S n0))
  /\ seg (heap w) n0 (sentinel :: ei) None
  /\ length (heap w) = (n1 + length et)%nat
  /\ head w = 0%nat
  /\ tail w = (n0 + length ei)%nat
  /\ len w = total_len eb + total_len et + total_len ei
  /\ states w = [].
Proof.
  intros Hne. cbv zeta.
  destruct (pushes_on_chain eb _ _ _ _ Writer_new_on_chain)
    as [(Hh1 & Hhd1 & Htl1 & Hlen1) Hst1].
  cbn [app length Nat.add] in Hh1, Hhd1, Htl1, Hlen1. cbn [Writer_new states] in Hst1.
  set (w1 := pushes eb Writer_new) in *.
  assert (Hn1 : length (heap w1) = S (length eb)) by (rewrite Hh1, length_chain; reflexivity).
  destruct (pushes_on_chain ei _ _ _ _ (fork_on_chain w1))
    as [(Hh3 & Hhd3 & Htl3 & Hlen3) Hst3].
  cbn [app] in Hh3, Hlen3, Htl3. cbn [fork states] in Hst3.
  rewrite Hst1, Hhd1, Htl1, Hlen1, Z.add_0_l in Hst3. rewrite Z.add_0_l in Hlen3.
  rewrite Hn1 in Hhd3, Htl3.
  set (w3 := pushes ei (fork w1)) in *.
  assert (Hn3 : length (heap w3) = (S (length eb) + S (length ei))%nat).
  { rewrite Hh3, length_app, length_chain, Hn1. reflexivity. }
  assert (HA3 : seg (heap w3) 0 (sentinel :: eb) None).
  { rewrite Hh3, Hh1. apply (seg_chain [] (sentinel :: eb)). }
  assert (HB3 : seg (heap w3) (S (length eb)) (sentinel :: ei) None).
  { rewrite Hh3, <- Hn1. apply seg_chain_end. }
  unfold ldelim. rewrite ldelim_prefix_pushes.
  assert (Hr : reset w3 = mkWriter (heap w3) (total_len eb) 0%nat (length eb) [])
    by (unfold reset; rewrite Hst3; reflexivity).
  rewrite Hr, Hlen3, Hhd3, Htl3.
  set (et := prefix_entries id (total_len ei)).
  destruct (pushes_heap et (mkWriter (heap w3) (total_len eb) 0%nat (length eb) []))
    as (Hh5 & Htl5 & Hlen5 & Hhd5 & Hst5).
  { cbn [tail heap]. lia. }
  { apply prefix_entries_nonempty. }
  cbn [heap tail len head states] in Hh5, Htl5, Hlen5, Hhd5, Hst5.
  rewrite Hn3 in Hh5, Htl5.
  set (w4 := mkWriter (heap w3) (total_len eb) 0%nat (length eb) []) in *.
  assert (Het : (1 <= length et)%nat)
    by (pose proof (prefix_entries_nonempty id (total_len ei)); fold et in H;
        destruct et; [done | cbn [length]; lia]).
  assert (HA5 : seg (heap (pushes et w4)) 0 (sentinel :: eb)
                  (Some (S (length eb) + S (length ei))%nat)).
  { rewrite Hh5. apply seg_app_heap. eapply seg_set_next_last; [exact HA3|].
    cbn [length]. lia. }
  assert (HB5 : seg (heap (pushes et w4)) (S (length eb)) (sentinel :: ei) None).
  { rewrite Hh5. apply seg_app_heap. apply seg_set_next_other; [exact HB3 | lia]. }
  assert (HC5 : seg (heap (pushes et w4)) (S (length eb) + S (length ei))%nat et None).
  { pose proof (seg_chain_end
                  (set_next (heap w3) (length eb) (Some (S (length eb) + S (length ei))%nat))
                  et) as HC.
    assert (Hl : length (set_next (heap w3) (length eb)
                           (Some (S (length eb) + S (length ei))%nat))
                 = (S (length eb) + S (length ei))%nat)
      by (unfold set_next; rewrite length_alter; exact Hn3).
    rewrite Hl in HC. rewrite Hh5. exact HC. }
  assert (Hnext : next_of (heap (pushes et w4)) (S (length eb)) = Some (S (S (length eb)))).
  { rewrite (seg_head_next _ _ _ _ _ HB5). destruct ei; [done | reflexivity]. }
  assert (Hlen5' : length (heap (pushes et w4))
                   = (S (length eb) + S (length ei) + length et)%nat).
  { rewrite Hh5, length_app, length_chain. unfold set_next. rewrite length_alter, Hn3.
    reflexivity. }
  cbn [heap head tail len states]. rewrite Hnext, Htl5, Hlen5, Hhd5, Hst5.
  repeat split.
  - apply seg_set_next_other; [exact HA5 | cbn [length]; lia].
  - eapply seg_set_next_last; [exact HC5 | lia].
  - apply seg_set_next_other; [exact HB5 | cbn [length]; lia].
  - unfold set_next. rewrite length_alter. exact Hlen5'.
Qed.

Lemma finish_internal_seg_opt (h : list Op) (a : addr) (es : list Entry)
    (nxt : option addr) (fuel : nat) (pos : Z) (buf : Buf) :
  seg h a es nxt ->
  finish_internal (length es + fuel) h
    (match es with [] => nxt | _ :: _ => Some a end) pos buf
  = finish_internal fuel h nxt (pos + total_len es)
      (apply_stores (emit_stores pos es) buf).
Proof.
  intros Hs. destruct es as [|e es].
  - cbn [length Nat.add emit_stores]. unfold total_len. cbn [foldr].
    by rewrite Z.add_0_r.
  - by apply finish_internal_seg.
Qed.

Lemma seg_nil (h : list Op) (a : addr) (nxt : option addr) : seg h a [] nxt.
Proof. intros i e Hi. discriminate Hi. Qed.

(** The queue after [before; fork(); inner; ldelim(id); after], all of
    them pushes and [inner] not empty: four segments, linked in the order
    outer ops, tag and length, inner ops, later ops. *)
Lemma fork_ldelim_segments (eb ei ea : list Entry) (id : option Z) :
  ei <> [] ->
  let et := prefix_entries id (total_len ei) in
  let n0 := S (length eb) in
  let n1 := (n0 + S (length ei))%nat in
  let n2 := (n1 + length et)%nat in
  let w := pushes ea (ldelim id (pushes ei (fork (pushes eb Writer_new)))) in
  seg (heap w) 0 (sentinel :: eb) (Some n1)
  /\ seg (heap w) n1 et (Some (S n0))
  /\ seg (heap w) n0 (sentinel :: ei) (match ea with [] => None | _ :: _ => Some n2 end)
  /\ seg (heap w) n2 ea None
  /\ length (heap w) = (n2 + length ea)%nat
  /\ head w = 0%nat
  /\ len w = total_len eb + total_len et + total_len ei + total_len ea
  /\ states w = [].
Proof.
  intros Hne. cbv zeta.
  destruct (ldelim_spliced eb ei id Hne) as (HA & HC & HB & Hlen & Hhd & Htl & Hl & Hst).
  cbv zeta in *.
  set (w6 := ldelim id (pushes ei (fork (pushes eb Writer_new)))) in *.
  set (et := prefix_entries id (total_len ei)) in *.
  set (n0 := S (length eb)) in *. set (n1 := (n0 + S (length ei))%nat) in *.
  set (n2 := (n1 + length et)%nat) in *.
  destruct (decide (ea = [])) as [-> | Hea].
  - cbn [pushes foldl length]. rewrite Nat.add_0_r.
    repeat split; try done. rewrite Hl. unfold total_len. cbn. lia.
  - destruct (pushes_heap ea w6) as (Hh7 & _ & Hlen7 & Hhd7 & Hst7); [lia | done |].
    rewrite Hlen, Htl in Hh7.
    assert (Hn : length (set_next (heap w6) (n0 + length ei) (Some n2)) = n2)
      by (unfold set_next; by rewrite length_alter).
    rewrite Hh7. repeat split.
    + apply seg_app_heap, seg_set_next_other; [exact HA | cbn [length]; lia].
    + apply seg_app_heap, seg_set_next_other; [exact HC | lia].
    + replace (match ea with [] => None | _ :: _ => Some n2 end) with (Some n2)
        by (by destruct ea).
      apply seg_app_heap. eapply seg_set_next_last; [exact HB | cbn [length]; lia].
    + pose proof (seg_chain_end (set_next (heap w6) (n0 + length ei) (Some n2)) ea) as HD.
      rewrite Hn in HD. exact HD.
    + by rewrite length_app, Hn, length_chain.
    + congruence.
    + rewrite Hlen7, Hl. reflexivity.
    + congruence.
Qed.

(** [finish] on that queue: the stores of the outer ops, of the tag and
    length, of the inner ops and of the later ops, in this order. *)
Lemma finish_fork_ldelim (eb ei ea : list Entry) (id : option Z) :
  ei <> [] ->
  let es := eb ++ prefix_entries id (total_len ei) ++ ei ++ ea in
  fst (finish (pushes ea (ldelim id (pushes ei (fork (pushes eb Writer_new))))))
  = Some (apply_stores (emit_stores 0 es) (new_buf (total_len es))).
Proof.
  intros Hne. cbv zeta.
  destruct (fork_ldelim_segments eb ei ea id Hne)
    as (HA7 & HC7 & HB7 & HD7 & Hlen7 & Hhd7 & Hl7 & Hst7).
  cbv zeta in *.
  set (w7 := pushes ea (ldelim id (pushes ei (fork (pushes eb Writer_new))))) in *.
  set (et := prefix_entries id (total_len ei)) in *.
  set (n0 := S (length eb)) in *. set (n1 := (n0 + S (length ei))%nat) in *.
  set (n2 := (n1 + length et)%nat) in *.
  assert (Het : et <> []) by apply prefix_entries_nonempty.
  unfold finish. cbn [fst]. unfold reset. rewrite Hst7. cbn [heap].
  rewrite Hhd7, (seg_head_next _ _ _ _ _ HA7), Hl7.
  set (hf := heap w7 ++ [mkOp noop (VNum 0) 0 None]).
  set (buf := new_buf (total_len eb + total_len et + total_len ei + total_len ea)).
  assert (HAf : seg hf 1 eb (Some n1)) by (apply seg_app_heap, (seg_tail _ _ sentinel), HA7).
  assert (HCf : seg hf n1 et (Some (S n0))) by (apply seg_app_heap, HC7).
  assert (HBf : seg hf (S n0) ei (match ea with [] => None | _ :: _ => Some n2 end))
    by (apply seg_app_heap, (seg_tail _ _ sentinel), HB7).
  assert (HDf : seg hf n2 ea None) by (apply seg_app_heap, HD7).
  replace (length hf)
    with (length eb + (length et + (length ei + (length ea + 3))))%nat
    by (unfold hf; rewrite length_app, Hlen7; cbn [length]; lia).
  rewrite (finish_internal_seg_opt hf 1 eb (Some n1)) by exact HAf.
  rewrite (finish_internal_seg hf n1 et (Some (S n0)) _ _ _ HCf Het).
  rewrite (finish_internal_seg hf (S n0) ei _ _ _ _ HBf Hne).
  rewrite (finish_internal_seg_opt hf n2 ea None) by exact HDf.
  cbn [finish_internal]. f_equal.
  rewrite !total_len_app, !emit_stores_app, !apply_stores_app, !Z.add_assoc.
  reflexivity.
Qed.

Lemma seg_next_choice (a : addr) (e : Entry) (es : list Entry) (nxt : option addr) :
  (if decide (1 < length (e :: es))%nat then Some (a + 1)%nat else nxt)
  = match es with [] => nxt | _ :: _ => Some (S a) end.
Proof.
  destruct es; cbn [length]; case_decide; try lia; [reflexivity|]. f_equal. lia.
Qed.

(** The sum of the lengths along a segment. *)
Lemma ops_from_seg (h : list Op) (a : addr) (es : list Entry) (nxt : option addr)
    (fuel : nat) :
  seg h a es nxt ->
  (fun ops => foldr (fun o s => op_len o + s) 0 ops)
    <$> ops_from (length es + fuel) h (match es with [] => nxt | _ :: _ => Some a end)
  = (fun ops => total_len es + foldr (fun o s => op_len o + s) 0 ops)
      <$> ops_from fuel h nxt.
Proof.
  revert a. induction es as [|e es IH]; intros a Hs.
  - cbn [length Nat.add]. unfold total_len. cbn [foldr].
    destruct (ops_from fuel h nxt); reflexivity.
  - cbn [length Nat.add ops_from].
    pose proof (Hs 0%nat e eq_refl) as H0. rewrite Nat.add_0_r in H0. rewrite H0.
    cbn [op_next]. specialize (IH (S a) (seg_tail _ _ _ _ _ Hs)).
    rewrite seg_next_choice.
    destruct (ops_from (length es + fuel) h (match es with [] => nxt | _ :: _ => Some (S a) end))
      as [ops|], (ops_from fuel h nxt) as [ops'|]; cbn in IH |- *; try congruence.
    injection IH as IH. f_equal. unfold total_len in *. cbn [foldr op_len]. lia.
Qed.

(** On that queue [len] is the sum of the lengths of the ops reachable
    from [head.next]: with a frame that is not empty, [fork] and [ldelim]
    keep the invariant, and so do the writes that follow. *)
Lemma len_invariant_fork_ldelim (eb ei ea : list Entry) (id : option Z) :
  ei <> [] ->
  len_invariant (pushes ea (ldelim id (pushes ei (fork (pushes eb Writer_new))))).
Proof.
  intros Hne.
  destruct (fork_ldelim_segments eb ei ea id Hne)
    as (HA & HC & HB & HD & Hlen & Hhd & Hl & Hst).
  cbv zeta in *.
  set (w := pushes ea (ldelim id (pushes ei (fork (pushes eb Writer_new))))) in *.
  set (et := prefix_entries id (total_len ei)) in *.
  set (n0 := S (length eb)) in *. set (n1 := (n0 + S (length ei))%nat) in *.
  set (n2 := (n1 + length et)%nat) in *.
  assert (Het : et <> []) by apply prefix_entries_nonempty.
  unfold len_invariant, queue_len, queue.
  rewrite Hhd, (seg_head_next _ _ _ _ _ HA), Hlen, Hl.
  replace (n2 + length ea)%nat
    with (length eb + (length et + (length ei + (length ea + 2))))%nat by lia.
  rewrite (ops_from_seg _ 1 eb (Some n1)) by (apply (seg_tail _ _ sentinel), HA).
  pose proof (ops_from_seg (heap w) n1 et (Some (S n0))
                (length ei + (length ea + 2)) HC) as H1.
  replace (match et with [] => Some (S n0) | _ :: _ => Some n1 end) with (Some n1) in H1
    by (by destruct et).
  pose proof (ops_from_seg (heap w) (S n0) ei _ (length ea + 2)
                (seg_tail _ _ sentinel _ _ HB)) as H2.
  replace (match ei with
           | [] => match ea with [] => None | _ :: _ => Some n2 end
           | _ :: _ => Some (S n0)
           end) with (Some (S n0)) in H2 by (by destruct ei).
  pose proof (ops_from_seg (heap w) n2 ea None 2 HD) as H3.
  cbn [ops_from fmap option_fmap option_map foldr] in H3.
  destruct (ops_from (length et + (length ei + (length ea + 2))) (heap w) (Some n1))
    as [o1|]; destruct (ops_from (length ei + (length ea + 2)) (heap w) (Some (S n0)))
    as [o2|]; destruct (ops_from (length ea + 2) (heap w)
                          match ea with [] => None | _ :: _ => Some n2 end)
    as [o3|]; cbn in H1, H2, H3 |- *; try congruence.
  injection H1 as H1. injection H2 as H2. injection H3 as H3. f_equal. lia.
Qed.

(** The same for calls: scalar writes before, inside and after a
    sub-message, of which at least one inside. *)
Lemma len_invariant_submessage (before inner after : list Cmd) (id : option Z) :
  forallb scalar before = true -> forallb scalar inner = true ->
  forallb scalar after = true -> inner <> [] ->
  len_invariant (run after (ldelim id (run inner (fork (run before Writer_new))))).
Proof.
  intros Hb Hi Ha Hne.
  destruct (scalar_run_pushes before Hb) as (eb & _ & Heb).
  destruct (scalar_run_pushes inner Hi) as (ei & Hnei & Hei).
  destruct (scalar_run_pushes after Ha) as (ea & _ & Hea).
  rewrite Hea, Hei, Heb. apply len_invariant_fork_ldelim. by apply Hnei.
Qed.

(** ** A sub-message through [fork]/[ldelim] and through a buffer *)

Lemma length_new_buf (n : Z) : length (new_buf n) = Z.to_nat n.
Proof. unfold new_buf. apply length_replicate. Qed.

Lemma length_positions (st : Stores) : length (positions st) = length st.
Proof. unfold positions. apply length_map. Qed.

(** Two sequences of stores that put the same bytes at the same
    consecutive positions have the same effect on a buffer that holds the
    positions. *)
Lemma apply_stores_same_region (st1 st2 : Stores) (buf : Buf) (p l : Z) :
  0 <= p -> 0 <= l -> p + l <= Z.of_nat (length buf) ->
  positions st1 = seqZ p l -> positions st2 = seqZ p l ->
  stored st1 = stored st2 ->
  apply_stores st1 buf = apply_stores st2 buf.
Proof.
  intros Hp Hl Hbuf Hp1 Hp2 Hs.
  assert (Hn1 : length st1 = Z.to_nat l)
    by (rewrite <- length_positions, Hp1; apply length_seqZ).
  assert (Hn2 : length st2 = Z.to_nat l)
    by (rewrite <- length_positions, Hp2; apply length_seqZ).
  rewrite <- (take_drop (Z.to_nat p) buf).
  rewrite <- (take_drop (Z.to_nat l) (drop (Z.to_nat p) buf)).
  assert (Hpre : length (take (Z.to_nat p) buf) = Z.to_nat p)
    by (rewrite length_take; lia).
  assert (Hmid : length (take (Z.to_nat l) (drop (Z.to_nat p) buf)) = Z.to_nat l)
    by (rewrite length_take, length_drop; lia).
  rewrite !apply_stores_seq; rewrite ?Hpre, ?Hmid, ?Hn1, ?Hn2, ?Z2Nat.id by lia;
    try done.
  by rewrite Hs.
Qed.

Lemma stored_idempotent (st : Stores) :
  map (fun x => x mod 256) (stored st) = stored st.
Proof.
  unfold stored. rewrite map_map. apply map_ext. intros pv.
  apply Z.mod_mod. lia.
Qed.

(** The buffer of exact ops on a writer of their own: the bytes they
    store. *)
Lemma exact_buffer (es : list Entry) :
  Forall exact es ->
  apply_stores (emit_stores 0 es) (new_buf (total_len es)) = stored (emit_stores 0 es)
  /\ Z.of_nat (length (stored (emit_stores 0 es))) = total_len es.
Proof.
  intros Hes. destruct (emit_stores_exact 0 es Hes) as [Hp _].
  pose proof (total_len_exact es Hes) as Ht.
  assert (Hn : length (emit_stores 0 es) = Z.to_nat (total_len es))
    by (rewrite <- length_positions, Hp; apply length_seqZ).
  split.
  - pose proof (apply_stores_seq (emit_stores 0 es) [] (new_buf (total_len es)) []) as H.
    rewrite !app_nil_r in H. cbn [app length] in H. apply H.
    + rewrite Hn, Z2Nat.id by lia. exact Hp.
    + by rewrite length_new_buf.
  - unfold stored. rewrite length_map, Hn. lia.
Qed.

(** What [bytes(B)] pushes after an optional tag, for a buffer [B] that is
    not empty and shorter than 2^32. *)
Lemma tag_bytes_pushes (id : option Z) (B : list Z) (w : Writer) :
  0 < Z.of_nat (length B) < 2 ^ 32 ->
  bytes B (match id with Some id => tag id 2 w | None => w end)
  = pushes (prefix_entries id (Z.of_nat (length B))
            ++ [(fn_writeBytes, Z.of_nat (length B), VBytes B)]) w.
Proof.
  intros HB. unfold bytes. rewrite shr_0, ToUint32_id by lia.
  rewrite bool_decide_eq_true_2 by lia.
  rewrite pushes_app, <- ldelim_prefix_pushes. reflexivity.
Qed.

(** For scalar writes on arguments in range, with at least one inner
    write and an inner frame shorter than 2^32 bytes, [fork(); inner;
    ldelim(id)] gives the buffer that serializing [inner] on its own and
    writing tag, length and bytes gives. *)
Lemma fork_ldelim_nonempty (before inner after : list Cmd) (id : option Z) :
  forallb scalar before = true -> Forall in_range before ->
  forallb scalar inner = true -> Forall in_range inner ->
  forallb scalar after = true -> Forall in_range after ->
  inner <> [] -> len (run inner Writer_new) < 2 ^ 32 ->
  via_fork before inner after id = via_buffer before inner after id
  /\ is_Some (via_fork before inner after id).
Proof.
  intros Hsb Hrb Hsi Hri Hsa Hra Hne Hsize.
  destruct (scalar_run_exact before Hsb Hrb) as (eb & Heb & Hxb & _).
  destruct (scalar_run_exact inner Hsi Hri) as (ei & Hei & Hxi & Hnei).
  destruct (scalar_run_exact after Hsa Hra) as (ea & Hea & Hxa & _).
  specialize (Hnei Hne).
  destruct (pushes_on_chain ei _ _ _ _ Writer_new_on_chain) as [Hchain _].
  cbn [app] in Hchain.
  assert (Hlen_i : len (pushes ei Writer_new) = total_len ei)
    by (destruct Hchain as (_ & _ & _ & ->); lia).
  rewrite Hei, Hlen_i in Hsize.
  pose proof (total_len_exact _ Hxb) as Htb.
  pose proof (total_len_exact _ Hxi) as Hti.
  pose proof (total_len_exact _ Hxa) as Hta.
  assert (0 < total_len ei) by (destruct ei; [done | cbn [length] in Hti; lia]).
  destruct (exact_buffer ei Hxi) as [HB HBlen].
  set (B := stored (emit_stores 0 ei)) in *.
  set (et := prefix_entries id (total_len ei)).
  assert (Hfork : via_fork before inner after id
                  = Some (apply_stores (emit_stores 0 (eb ++ et ++ ei ++ ea))
                            (new_buf (total_len (eb ++ et ++ ei ++ ea))))).
  { unfold via_fork. rewrite Hea, Hei, Heb. by apply finish_fork_ldelim. }
  assert (Hbuf : via_buffer before inner after id
                 = Some (apply_stores
                           (emit_stores 0 (eb ++ et ++ [(fn_writeBytes, total_len ei, VBytes B)] ++ ea))
                           (new_buf (total_len (eb ++ et ++ [(fn_writeBytes, total_len ei, VBytes B)] ++ ea))))).
  { unfold via_buffer, ldelim_by_buffer. rewrite Hei, Heb.
    destruct Hchain as (Hh & Hhd & _ & Hl).
    rewrite (finish_chain_frame _ [] [] ei) by (rewrite ?app_nil_r; done).
    rewrite HB. rewrite tag_bytes_pushes by (rewrite HBlen; lia).
    rewrite HBlen. fold et. rewrite Hea, <- !pushes_app.
    destruct (pushes_on_chain
                ((eb ++ et ++ [(fn_writeBytes, total_len ei, VBytes B)]) ++ ea)
                _ _ _ _ Writer_new_on_chain) as [(Hh' & Hhd' & _ & Hl') _].
    cbn [app] in Hh', Hl'. rewrite <- !app_assoc in *.
    apply (finish_chain_frame _ [] []); rewrite ?app_nil_r; done. }
  rewrite Hfork, Hbuf. split; [|done]. f_equal.
  assert (Htot : forall x, total_len (eb ++ et ++ x ++ ea)
                           = total_len eb + total_len et + total_len x + total_len ea)
    by (intros x; rewrite !total_len_app; lia).
  rewrite !Htot. change (total_len [(fn_writeBytes, total_len ei, VBytes B)])
    with (total_len ei + 0). rewrite Z.add_0_r.
  rewrite !emit_stores_app, !apply_stores_app.
  change (total_len [(fn_writeBytes, total_len ei, VBytes B)])
    with (total_len ei + 0). rewrite Z.add_0_r.
  f_equal.
  assert (Hxt : Forall exact et).
  { unfold et, prefix_entries. apply Forall_app. split.
    - destruct id; [constructor; [apply exact_writeByte | constructor] | constructor].
    - constructor; [apply exact_uint32 | constructor]. }
  pose proof (total_len_exact _ Hxt) as Htt.
  set (p := 0 + total_len eb + total_len et).
  destruct (emit_stores_exact p ei Hxi) as [Hpi Hsi'].
  apply (apply_stores_same_region _ _ _ p (total_len ei)).
  - unfold p. lia.
  - lia.
  - rewrite !apply_stores_length, length_new_buf. unfold p. lia.
  - exact Hpi.
  - cbn [emit_stores fst snd call]. rewrite app_nil_r.
    rewrite writeBytes_positions, HBlen. reflexivity.
  - cbn [emit_stores fst snd call]. rewrite app_nil_r.
    rewrite writeBytes_stored. unfold B. rewrite stored_idempotent. exact Hsi'.
Qed.

(** [tag(1, 0); uint32(150)] as a sub-message of field 3, then [bool(true)]. *)
Example fork_ldelim_nonempty_example :
  via_fork [CBool false] [CTag 1 0; CUint32 150] [CBool true] (Some 3)
  = Some [0x00; 0x1A; 0x03; 0x08; 0x96; 0x01; 0x01]
  /\ via_buffer [CBool false] [CTag 1 0; CUint32 150] [CBool true] (Some 3)
     = Some [0x00; 0x1A; 0x03; 0x08; 0x96; 0x01; 0x01].
Proof. split; reflexivity. Qed.

(** ** The buffer of scalar writes *)

(** Scalar writes on a fresh writer, arguments in range: [finish] returns
    the bytes the ops store, one after the other, and their number is
    [len]: every byte of the buffer is written, and none outside it. *)
Lemma finish_scalar_exact (cs : list Cmd) :
  forallb scalar cs = true -> Forall in_range cs ->
  exists es,
    run cs Writer_new = pushes es Writer_new
    /\ fst (finish (run cs Writer_new)) = Some (stored (emit_stores 0 es))
    /\ Z.of_nat (length (stored (emit_stores 0 es))) = len (run cs Writer_new)
    /\ len_invariant (run cs Writer_new).
Proof.
  intros Hs Hr. destruct (scalar_run_exact cs Hs Hr) as (es & Hes & Hx & _).
  exists es. rewrite Hes.
  destruct (pushes_on_chain es _ _ _ _ Writer_new_on_chain) as [Hchain _].
  cbn [app] in Hchain. pose proof (len_invariant_on_chain _ _ _ Hchain) as Hinv.
  destruct Hchain as (Hh & Hhd & _ & Hl).
  destruct (exact_buffer es Hx) as [HB HBlen].
  split; [reflexivity|]. split; [|split; [|exact Hinv]].
  - rewrite (finish_chain_frame _ [] [] es) by (rewrite ?app_nil_r; done).
    by rewrite HB.
  - rewrite HBlen, Hl. lia.
Qed.

(** ** Canonical varints *)

Lemma varint_group_range (u : Z) (n k : nat) :
  (if bool_decide (k + 1 < n)%nat then 128 else 0) <= varint_group u n k
  < (if bool_decide (k + 1 < n)%nat then 256 else 128).
Proof.
  unfold varint_group.
  pose proof (Z.mod_pos_bound (u / 2 ^ (7 * Z.of_nat k)) 128 ltac:(lia)).
  case_bool_decide; lia.
Qed.

Lemma varint_stores_snoc (pos u : Z) (n : nat) :
  stored (varint_stores pos u (S n))
  = map (fun k => varint_group u (S n) k) (seq 0 n) ++ [varint_group u (S n) n].
Proof.
  unfold varint_stores, stored. rewrite seq_S, !map_app, map_map. cbn [map fst snd].
  f_equal.
  - apply map_ext_in. intros k Hk. apply in_seq in Hk. cbn [snd].
    pose proof (varint_group_range u (S n) k) as Hr.
    rewrite bool_decide_eq_true_2 in Hr by lia.
    rewrite Z.mod_small; [reflexivity | lia].
  - change (0 + n)%nat with n. f_equal. pose proof (varint_group_range u (S n) n) as Hr.
    rewrite bool_decide_eq_false_2 in Hr by lia.
    rewrite Z.mod_small; [reflexivity | lia].
Qed.

Lemma varint_stores_canonical (pos u : Z) (n : nat) :
  (n <> 0%nat -> 128 ^ Z.of_nat n <= u) -> 0 <= u < 128 * 128 ^ Z.of_nat n ->
  canonical_varint (stored (varint_stores pos u (S n))).
Proof.
  intros Hlo Hhi.
  exists (map (fun k => varint_group u (S n) k) (seq 0 n)), (varint_group u (S n) n).
  split; [apply varint_stores_snoc|].
  split.
  { apply Forall_forall. intros b Hb. apply list_elem_of_In, in_map_iff in Hb.
    destruct Hb as (k & <- & Hk). apply in_seq in Hk.
    pose proof (varint_group_range u (S n) k) as Hr.
    rewrite bool_decide_eq_true_2 in Hr by lia. lia. }
  assert (Hg : varint_group u (S n) n = u / 128 ^ Z.of_nat n).
  { unfold varint_group. rewrite bool_decide_eq_false_2 by lia.
    rewrite Z.pow_mul_r by lia. change (2 ^ 7) with 128.
    rewrite Z.mod_small; [lia|].
    split; [apply Z.div_pos; lia|].
    apply Z.div_lt_upper_bound; lia. }
  split.
  { rewrite Hg. split; [apply Z.div_pos; lia | apply Z.div_lt_upper_bound; lia]. }
  intros Hf. rewrite Hg.
  assert (Hn : n <> 0%nat) by (intros ->; apply Hf; reflexivity).
  specialize (Hlo Hn).
  assert (1 <= u / 128 ^ Z.of_nat n); [|lia].
  apply Z.div_le_lower_bound; lia.
Qed.

(** X1.  [writeVarint64], on any pair of unsigned 32-bit halves, stores the
    canonical varint of the 64-bit value [hi * 2^32 + lo]: between one and
    ten bytes at consecutive positions from [pos], the 7-bit groups least
    significant first, as few of them as the value needs, and they decode
    back to the value. *)
Theorem writeVarint64_canonical (pos lo hi : Z) :
  0 <= lo < 2 ^ 32 -> 0 <= hi < 2 ^ 32 ->
  let u := hi * 2 ^ 32 + lo in
  let st := writeVarint64 pos (LongBits.mk lo hi) in
  exists n : nat,
    (1 <= n <= 10)%nat
    /\ st = varint_stores pos u n
    /\ positions st = seqZ pos (Z.of_nat n)
    /\ u < 128 ^ Z.of_nat n
    /\ (n <> 1%nat -> 128 ^ (Z.of_nat n - 1) <= u)
    /\ canonical_varint (stored st)
    /\ decode_varint (stored st) = u.
Proof.
  intros Hlo Hhi u st.
  assert (Hu : 0 <= u < 2 ^ 64) by (unfold u; lia).
  destruct (varint_groups_exist u ltac:(lia)) as (n & Hn1 & Hn2 & _).
  assert (Hst : st = varint_stores pos u (S n))
    by (apply writeVarint64_groups; assumption).
  exists (S n).
  assert (Hn : (n <= 9)%nat).
  { destruct (decide (n <= 9)%nat) as [|Hgt]; [assumption|].
    assert (128 ^ 10 <= 128 ^ Z.of_nat n) by (apply Z.pow_le_mono_r; lia).
    specialize (Hn1 ltac:(lia)). change (128 ^ 10) with (2 ^ 70) in *. lia. }
  replace (Z.of_nat (S n) - 1) with (Z.of_nat n) by lia.
  replace (128 ^ Z.of_nat (S n)) with (128 * 128 ^ Z.of_nat n)
    by (rewrite Nat2Z.inj_succ, Z.pow_succ_r by lia; reflexivity).
  rewrite Hst.
  split; [lia|]. split; [reflexivity|].
  split; [apply varint_stores_positions|].
  split; [assumption|].
  split; [intros; apply Hn1; lia|].
  split; [apply varint_stores_canonical; [assumption | lia]|].
  apply decode_varint_stores. lia.
Qed.

Lemma writeVarint64_canonical_witness :
  0 <= 0xFFFFFFFF < 2 ^ 32 /\ 0 <= 0x7FFFFFFF < 2 ^ 32
  /\ exists n : nat,
       (1 <= n <= 10)%nat
       /\ decode_varint (stored (writeVarint64 0 (LongBits.mk 0xFFFFFFFF 0x7FFFFFFF)))
          = 0x7FFFFFFF * 2 ^ 32 + 0xFFFFFFFF.
Proof.
  split; [lia|]. split; [lia|].
  destruct (writeVarint64_canonical 0 0xFFFFFFFF 0x7FFFFFFF ltac:(lia) ltac:(lia))
    as (n & Hn & _ & _ & _ & _ & _ & Hd).
  exists n. split; [exact Hn | exact Hd].
Defined.

(** ** The buffer of a known queue *)

(** When calls amount to pushing exact ops on a fresh writer, [finish]
    returns the bytes those ops store, in order. *)
Lemma output_pushes (cs : list Cmd) (es : list Entry) :
  (forall w, run cs w = pushes es w) -> Forall exact es ->
  output cs = Some (stored (emit_stores 0 es)).
Proof.
  intros Hes Hx. unfold output. rewrite Hes.
  destruct (pushes_on_chain es _ _ _ _ Writer_new_on_chain) as [(Hh & Hhd & _ & Hl) _].
  cbn [app] in Hh, Hl.
  rewrite (finish_chain_frame _ [] [] es) by (rewrite ?app_nil_r; done).
  by destruct (exact_buffer es Hx) as [-> _].
Qed.

Lemma varint_size_minimal (u : Z) :
  0 <= u < 2 ^ 32 ->
  exists n : nat,
    Z.to_nat (varint_size u) = S n
    /\ (n <> 0%nat -> 128 ^ Z.of_nat n <= u) /\ u < 128 * 128 ^ Z.of_nat n.
Proof.
  intros Hu. unfold varint_size.
  repeat case_bool_decide;
    [exists 0%nat | exists 1%nat | exists 2%nat | exists 3%nat | exists 4%nat];
    (split; [reflexivity|]); cbn; lia.
Qed.

(** The bytes of the varint [uint32(v)] enqueues. *)
Lemma uint32_entry_stored (v pos : Z) :
  stored (call (fst (fst (uint32_entry v))) pos (snd (uint32_entry v)))
  = stored (varint_stores 0 (ToUint32 v) (Z.to_nat (varint_size (ToUint32 v)))).
Proof.
  unfold uint32_entry. cbn [fst snd].
  rewrite uint32_call by apply ToUint32_range. apply stored_varint_stores.
Qed.

(** X2.  The varint that [uint32] writes is canonical, for every argument:
    each byte but the last carries the continuation bit, the last does not
    and is zero only as the single byte of the value zero.  So a reader
    stops exactly at its last byte, no shorter varint holds the value, and
    the bytes decode back to the argument as an unsigned 32-bit number. *)
Theorem uint32_canonical (v : Z) :
  exists bs,
    output [CUint32 v] = Some bs
    /\ canonical_varint bs
    /\ Z.of_nat (length bs) = varint_size (ToUint32 v)
    /\ (length bs <> 1%nat -> 128 ^ (Z.of_nat (length bs) - 1) <= ToUint32 v)
    /\ ToUint32 v < 128 ^ Z.of_nat (length bs)
    /\ decode_varint bs = ToUint32 v.
Proof.
  pose proof (ToUint32_range v) as Hu.
  destruct (varint_size_minimal _ Hu) as (n & Hn & Hlo & Hhi).
  exists (stored (varint_stores 0 (ToUint32 v) (S n))).
  assert (Hlen : length (stored (varint_stores 0 (ToUint32 v) (S n))) = S n)
    by (unfold stored, varint_stores; rewrite !length_map; apply length_seq).
  rewrite Hlen.
  replace (Z.of_nat (S n) - 1) with (Z.of_nat n) by lia.
  replace (128 ^ Z.of_nat (S n)) with (128 * 128 ^ Z.of_nat n)
    by (rewrite Nat2Z.inj_succ, Z.pow_succ_r by lia; reflexivity).
  split.
  { rewrite (output_pushes [CUint32 v] [uint32_entry v]).
    - cbn [emit_stores]. rewrite app_nil_r, uint32_entry_stored, Hn. reflexivity.
    - intros w. cbn. apply uint32_push.
    - constructor; [apply exact_uint32 | constructor]. }
  split; [apply varint_stores_canonical; [assumption | lia]|].
  split; [pose proof (varint_size_range (ToUint32 v)); lia|].
  split; [intros; apply Hlo; lia|].
  split; [assumption|].
  apply decode_varint_stores. lia.
Qed.

(** ** Fixed-width 32-bit values *)

Lemma writeFixed32_stored (pos x : Z) :
  stored (writeFixed32 pos x) = le32 (ToUint32 x).
Proof.
  unfold writeFixed32, stored, le32. cbn [map snd].
  rewrite !band_255, !shr_div by lia. unfold ToUint32.
  assert (H : forall k, 0 <= k <= 24 ->
            (x mod 2 ^ 32 / 2 ^ k) mod 256 mod 256 = (x mod 2 ^ 32 / 2 ^ k) mod 256)
    by (intros; apply Z.mod_mod; lia).
  rewrite (H 8), (H 16) by lia.
  replace (x mod 256 mod 256) with (x mod 2 ^ 32 mod 256); [reflexivity|].
  rewrite Z.mod_mod by lia.
  apply Z.mod_mod_divide. exists (2 ^ 24). reflexivity.
Qed.

Lemma decode_le32_le32 (x : Z) : 0 <= x < 2 ^ 32 -> decode_le32 (le32 x) = x.
Proof.
  intros Hx. unfold decode_le32, le32. cbn [foldr].
  change (2 ^ 8) with 256. change (2 ^ 16) with (256 * 256).
  change (2 ^ 24) with (256 * 256 * 256). change (2 ^ 32) with (256 * 256 * 256 * 256) in Hx.
  rewrite <- !Z.div_div by lia.
  pose proof (Z.div_mod x 256 ltac:(lia)).
  pose proof (Z.div_mod (x / 256) 256 ltac:(lia)).
  pose proof (Z.div_mod (x / 256 / 256) 256 ltac:(lia)).
  assert (x / 256 / 256 / 256 < 256)
    by (repeat (apply Z.div_lt_upper_bound; [lia|]); lia).
  assert (0 <= x / 256 / 256 / 256) by (repeat (apply Z.div_pos; [|lia]); lia).
  rewrite (Z.mod_small (x / 256 / 256 / 256)) by lia. lia.
Qed.

(** X3.  [fixed32(v)] gives four bytes, the unsigned 32-bit value of [v]
    least significant byte first, for every argument; read back as a
    little-endian number they give [v >>> 0]. *)
Theorem fixed32_little_endian (v : Z) :
  output [CFixed32 v] = Some (le32 (ToUint32 v))
  /\ decode_le32 (le32 (ToUint32 v)) = ToUint32 v
  /\ Forall (fun b => 0 <= b < 256) (le32 (ToUint32 v)).
Proof.
  split; [|split].
  - rewrite (output_pushes [CFixed32 v] [(fn_writeFixed32, 4, VNum (shr v 0))]).
    + cbn [emit_stores fst snd call]. rewrite app_nil_r, writeFixed32_stored.
      rewrite shr_0, ToUint32_id by apply ToUint32_range. reflexivity.
    + intros w. reflexivity.
    + constructor; [apply exact_writeFixed32 | constructor].
  - apply decode_le32_le32, ToUint32_range.
  - unfold le32. repeat constructor; apply Z.mod_pos_bound; lia.
Qed.

(** X4.  [sfixed32(v)], for a signed 32-bit [v], gives four bytes: the
    zig-zag image of [v], least significant byte first.  (The code applies
    the zig-zag map here, as it does for [sint32].)  Reading the four
    bytes little-endian and undoing the zig-zag map gives [v] back. *)
Theorem sfixed32_zigzag_roundtrip (v : Z) :
  - 2 ^ 31 <= v < 2 ^ 31 ->
  let z := if bool_decide (v < 0) then - 2 * v - 1 else 2 * v in
  output [CSfixed32 v] = Some (le32 z)
  /\ zigzag_decode32 (decode_le32 (le32 z)) = v.
Proof.
  intros Hv z.
  assert (Hz : ToUint32 (bxor (shl v 1) (sar v 31)) = z) by (apply zigzag32_value; exact Hv).
  assert (Hr : 0 <= z < 2 ^ 32) by (rewrite <- Hz; apply ToUint32_range).
  split.
  - rewrite (output_pushes [CSfixed32 v]
               [(fn_writeFixed32, 4, VNum (bxor (shl v 1) (sar v 31)))]).
    + cbn [emit_stores fst snd call]. rewrite app_nil_r, writeFixed32_stored, Hz.
      reflexivity.
    + intros w. reflexivity.
    + constructor; [apply exact_writeFixed32 | constructor].
  - rewrite decode_le32_le32 by exact Hr. rewrite <- Hz.
    apply zigzag32_decode_encode. exact Hv.
Qed.

Lemma sfixed32_zigzag_roundtrip_witness :
  - 2 ^ 31 <= -2 < 2 ^ 31
  /\ output [CSfixed32 (-2)] = Some [3; 0; 0; 0]
  /\ zigzag_decode32 (decode_le32 [3; 0; 0; 0]) = -2.
Proof.
  split; [lia|]. exact (sfixed32_zigzag_roundtrip (-2) ltac:(lia)).
Defined.

(** ** Byte arrays *)

(** X5.  [bytes(b)], for an array shorter than 2^32, gives the canonical
    varint of the number of elements, which decodes to that number,
    followed by the elements themselves, each reduced to a byte (the store
    into a [Uint8Array]).  An empty array gives the single byte 00. *)
Theorem bytes_length_prefixed (b : list Z) :
  Z.of_nat (length b) < 2 ^ 32 ->
  exists pre,
    output [CBytes b] = Some (pre ++ map (fun x => x mod 256) b)
    /\ canonical_varint pre
    /\ decode_varint pre = Z.of_nat (length b)
    /\ Z.of_nat (length pre) = varint_size (Z.of_nat (length b))
    /\ (b = [] -> pre = [0]).
Proof.
  intros Hb. set (l := Z.of_nat (length b)).
  assert (Hl : 0 <= l < 2 ^ 32) by (unfold l; lia).
  destruct (varint_size_minimal l Hl) as (n & Hn & Hlo & Hhi).
  exists (stored (varint_stores 0 l (S n))).
  assert (Hlen : length (stored (varint_stores 0 l (S n))) = S n)
    by (unfold stored, varint_stores; rewrite !length_map; apply length_seq).
  split; [|split; [|split; [|split]]].
  - destruct (decide (b = [])) as [->|Hne].
    + rewrite (output_pushes [CBytes []] [(fn_writeByte, 1, VNum 0)]).
      * unfold l in Hn. cbn in Hn. injection Hn as <-. reflexivity.
      * intros w. reflexivity.
      * constructor; [apply exact_writeByte | constructor].
    + assert (0 < l) by (unfold l; destruct b; [done | cbn [length]; lia]).
      rewrite (output_pushes [CBytes b]
                 (prefix_entries None l ++ [(fn_writeBytes, l, VBytes b)])).
      * unfold prefix_entries. cbn [app emit_stores].
        rewrite app_nil_r. unfold stored at 1. rewrite map_app.
        fold (stored (call (fst (fst (uint32_entry l))) 0 (snd (uint32_entry l)))).
        rewrite uint32_entry_stored, ToUint32_id, Hn by exact Hl.
        cbn [fst snd call].
        fold (stored (writeBytes (0 + snd (fst (uint32_entry l))) b)).
        by rewrite writeBytes_stored.
      * intros w. cbn [run foldl step]. apply (tag_bytes_pushes None). fold l. lia.
      * apply Forall_app. split.
        -- constructor; [apply exact_uint32 | constructor].
        -- constructor; [by apply exact_writeBytes | constructor].
  - apply varint_stores_canonical; [assumption | lia].
  - apply decode_varint_stores. lia.
  - rewrite Hlen, <- Hn. pose proof (varint_size_range l). lia.
  - intros ->. unfold l in Hn. cbn in Hn. injection Hn as <-. reflexivity.
Qed.

Lemma bytes_length_prefixed_witness :
  Z.of_nat (length [1; 2; 300]) < 2 ^ 32
  /\ exists pre,
       output [CBytes [1; 2; 300]] = Some (pre ++ [1; 2; 44])
       /\ decode_varint pre = 3.
Proof.
  split; [cbn; lia|].
  destruct (bytes_length_prefixed [1; 2; 300] ltac:(cbn; lia)) as (pre & Ho & _ & Hd & _).
  exists pre. split; [exact Ho | exact Hd].
Defined.

(** ** Strings: UTF-8 *)

Lemma sar_small (c k : Z) : 0 <= k < 32 -> 0 <= c < 2 ^ 31 -> sar c k = c / 2 ^ k.
Proof. intros Hk Hc. rewrite sar_div by lia. rewrite ToInt32_id by lia. reflexivity. Qed.

(** Setting lead bits above a payload that leaves them free. *)
Lemma bor_lead (a m k b : Z) :
  0 <= k -> 0 <= a < 2 ^ k -> 0 <= b -> m = 2 ^ k * b -> a + m < 2 ^ 31 ->
  bor a m = a + m.
Proof.
  intros Hk Ha Hb -> Hs. unfold bor.
  assert (0 < 2 ^ k) by (apply Z.pow_pos_nonneg; lia).
  rewrite !ToInt32_id by nia.
  apply lor_disjoint_add. apply land_low_high; lia.
Qed.

Lemma band_63 (x : Z) : band x 63 = x mod 64.
Proof. apply (band_ones x 6). lia. Qed.

Lemma band_1023 (x : Z) : band x 0x3FF = x mod 1024.
Proof. apply (band_ones x 10). lia. Qed.

(** [c & 0xFC00] on a code unit: the unit without its low ten bits. *)
Lemma band_FC00 (c : Z) : 0 <= c < 65536 -> band c 0xFC00 = 1024 * (c / 1024).
Proof.
  intros Hc. unfold band. rewrite !ToInt32_id by lia.
  apply Z.bits_inj'. intros n Hn. rewrite Z.land_spec.
  change 0xFC00 with (Z.ones 6 * 2 ^ 10). change 1024 with (2 ^ 10).
  rewrite (Z.mul_comm (2 ^ 10)).
  destruct (Z.lt_ge_cases n 10) as [Hlt | Hge].
  - rewrite !Z.mul_pow2_bits_low by lia. apply andb_false_r.
  - rewrite !Z.mul_pow2_bits by lia. rewrite Z.div_pow2_bits by lia.
    replace (n - 10 + 10) with n by lia.
    destruct (Z.lt_ge_cases n 16) as [Hlt | Hge'].
    + rewrite Z.ones_spec_low by lia. apply andb_true_r.
    + rewrite Z.ones_spec_high by lia. rewrite andb_false_r.
      replace c with (c mod 2 ^ 16) by (apply Z.mod_small; lia).
      rewrite Z.mod_pow2_bits_high by lia. reflexivity.
Qed.

Lemma high_surrogate_test (c : Z) :
  0 <= c < 65536 -> (band c 0xFC00 = 0xD800 <-> 0xD800 <= c < 0xDC00).
Proof.
  intros Hc. rewrite band_FC00 by exact Hc.
  pose proof (Z.div_mod c 1024 ltac:(lia)). pose proof (Z.mod_pos_bound c 1024 ltac:(lia)).
  lia.
Qed.

Lemma low_surrogate_test (c : Z) :
  0 <= c < 65536 -> (band c 0xFC00 = 0xDC00 <-> 0xDC00 <= c < 0xE000).
Proof.
  intros Hc. rewrite band_FC00 by exact Hc.
  pose proof (Z.div_mod c 1024 ltac:(lia)). pose proof (Z.mod_pos_bound c 1024 ltac:(lia)).
  lia.
Qed.

(** The bytes of the two-, three- and four-byte forms. *)
Lemma utf8_two_bytes (c : Z) :
  128 <= c < 2048 ->
  bor (sar c 6) 192 mod 256 = 192 + c / 64
  /\ bor (band c 63) 128 mod 256 = 128 + c mod 64
  /\ 2 <= c / 64 < 32.
Proof.
  intros Hc.
  assert (Hq : 2 <= c / 64 < 32)
    by (split; [apply Z.div_le_lower_bound | apply Z.div_lt_upper_bound]; lia).
  pose proof (Z.mod_pos_bound c 64 ltac:(lia)).
  rewrite sar_small by lia. change (2 ^ 6) with 64.
  rewrite (bor_lead (c / 64) 192 6 3) by lia.
  rewrite band_63, bor_128 by lia.
  rewrite (Z.mod_small (_ + 192) 256), (Z.mod_small (_ + 128) 256) by lia. lia.
Qed.

Lemma utf8_three_bytes (c : Z) :
  2048 <= c < 65536 ->
  bor (sar c 12) 224 mod 256 = 224 + c / 4096
  /\ bor (band (sar c 6) 63) 128 mod 256 = 128 + c / 64 mod 64
  /\ bor (band c 63) 128 mod 256 = 128 + c mod 64
  /\ 0 <= c / 4096 < 16.
Proof.
  intros Hc.
  assert (Hq : 0 <= c / 4096 < 16)
    by (split; [apply Z.div_pos | apply Z.div_lt_upper_bound]; lia).
  pose proof (Z.mod_pos_bound c 64 ltac:(lia)).
  pose proof (Z.mod_pos_bound (c / 64) 64 ltac:(lia)).
  rewrite !sar_small by lia. change (2 ^ 6) with 64. change (2 ^ 12) with 4096.
  rewrite (bor_lead (c / 4096) 224 5 7) by lia.
  rewrite !band_63, !bor_128 by lia.
  rewrite (Z.mod_small (_ + 224) 256), !(Z.mod_small (_ + 128) 256) by lia. lia.
Qed.

Lemma utf8_four_bytes (c : Z) :
  0x10000 <= c < 0x110000 ->
  bor (sar c 18) 240 mod 256 = 240 + c / 262144
  /\ bor (band (sar c 12) 63) 128 mod 256 = 128 + c / 4096 mod 64
  /\ bor (band (sar c 6) 63) 128 mod 256 = 128 + c / 64 mod 64
  /\ bor (band c 63) 128 mod 256 = 128 + c mod 64
  /\ 0 <= c / 262144 < 8.
Proof.
  intros Hc.
  assert (Hq : 0 <= c / 262144 < 8)
    by (split; [apply Z.div_pos | apply Z.div_lt_upper_bound]; lia).
  pose proof (Z.mod_pos_bound c 64 ltac:(lia)).
  pose proof (Z.mod_pos_bound (c / 64) 64 ltac:(lia)).
  pose proof (Z.mod_pos_bound (c / 4096) 64 ltac:(lia)).
  rewrite !sar_small by lia.
  change (2 ^ 6) with 64. change (2 ^ 12) with 4096. change (2 ^ 18) with 262144.
  rewrite (bor_lead (c / 262144) 240 4 15) by lia.
  rewrite !band_63, !bor_128 by lia.
  rewrite (Z.mod_small (_ + 240) 256), !(Z.mod_small (_ + 128) 256) by lia. lia.
Qed.

(** A number from its base-64 digits. *)
Lemma base64_digits (c : Z) :
  c / 64 * 64 + c mod 64 = c
  /\ c / 4096 * 4096 + c / 64 mod 64 * 64 + c mod 64 = c
  /\ c / 262144 * 262144 + c / 4096 mod 64 * 4096 + c / 64 mod 64 * 64 + c mod 64 = c.
Proof.
  pose proof (Z.div_mod c 64 ltac:(lia)).
  pose proof (Z.div_mod (c / 64) 64 ltac:(lia)).
  pose proof (Z.div_mod (c / 64 / 64) 64 ltac:(lia)).
  change 4096 with (64 * 64). change 262144 with (64 * 64 * 64).
  rewrite <- !Z.div_div by lia. lia.
Qed.

(** The code points of [s] from index [i] on, one step. *)
Lemma code_points_drop (s : list Z) (i : nat) (c1 : Z) :
  s !! i = Some c1 ->
  code_points (drop i s)
  = match s !! S i with
    | Some c2 =>
        if bool_decide (0xD800 <= c1 < 0xDC00) && bool_decide (0xDC00 <= c2 < 0xE000)
        then 0x10000 + (c1 - 0xD800) * 1024 + (c2 - 0xDC00) :: code_points (drop (S (S i)) s)
        else c1 :: code_points (drop (S i) s)
    | None => c1 :: code_points (drop (S i) s)
    end.
Proof.
  intros Hc1. rewrite (drop_S _ _ _ Hc1).
  destruct (s !! S i) as [c2|] eqn:Hc2.
  - pose proof (drop_S _ _ _ Hc2) as Hd. cbn [code_points]. rewrite Hd. reflexivity.
  - apply lookup_ge_None in Hc2. rewrite drop_ge by lia. reflexivity.
Qed.

Lemma stored_cons (p v : Z) (st : Stores) : stored ((p, v) :: st) = v mod 256 :: stored st.
Proof. reflexivity. Qed.

(** [writeString] stores UTF-8: read back by lead byte, the bytes stored
    from index [i] on are the code points of the string from [i] on. *)
Lemma writeString_loop_decode (fuel : nat) (s : list Z) (i : nat) (pos : Z) :
  Forall (fun c => 0 <= c < 65536) s ->
  (length s < fuel + i)%nat ->
  utf8_decode (stored (writeString_loop fuel s i pos)) = code_points (drop i s).
Proof.
  intros Hs. revert i pos. induction fuel as [|fuel IH]; intros i pos Hf.
  { rewrite drop_ge by lia. reflexivity. }
  cbn [writeString_loop]. cbv zeta. unfold charCodeAt.
  destruct (s !! i) as [c1|] eqn:Hc1.
  2: { apply lookup_ge_None in Hc1. rewrite drop_ge by lia. reflexivity. }
  assert (Hr1 : 0 <= c1 < 65536) by exact (Forall_lookup_1 _ _ _ _ Hs Hc1).
  rewrite (code_points_drop _ _ _ Hc1).
  replace (i + 1)%nat with (S i) by lia.
  destruct (decide (c1 < 128)) as [H1|H1].
  { rewrite (bool_decide_eq_true_2 (c1 < 128)) by exact H1.
    rewrite (bool_decide_eq_false_2 (0xD800 <= c1 < 0xDC00)) by lia. cbn [andb].
    rewrite stored_cons, Z.mod_small by lia. cbn [utf8_decode].
    rewrite (bool_decide_eq_true_2 (c1 < 128)) by exact H1.
    rewrite IH by lia. by destruct (s !! S i). }
  rewrite (bool_decide_eq_false_2 (c1 < 128)) by exact H1.
  destruct (decide (c1 < 2048)) as [H2|H2].
  { rewrite (bool_decide_eq_true_2 (c1 < 2048)) by exact H2.
    rewrite (bool_decide_eq_false_2 (0xD800 <= c1 < 0xDC00)) by lia. cbn [andb].
    destruct (utf8_two_bytes c1 ltac:(lia)) as (E0 & E1 & Hq).
    rewrite !stored_cons, E0, E1. cbn [utf8_decode].
    rewrite (bool_decide_eq_false_2 (192 + c1 / 64 < 128)) by lia.
    rewrite (bool_decide_eq_true_2 (192 + c1 / 64 < 224)) by lia.
    rewrite IH by lia.
    replace ((192 + c1 / 64 - 192) * 64 + (128 + c1 mod 64 - 128)) with c1
      by (pose proof (base64_digits c1); lia).
    by destruct (s !! S i). }
  rewrite (bool_decide_eq_false_2 (c1 < 2048)) by exact H2.
  destruct (s !! S i) as [c2|] eqn:Hc2; cbn [band_nan default from_option]; unfold id.
  - assert (Hr2 : 0 <= c2 < 65536) by exact (Forall_lookup_1 _ _ _ _ Hs Hc2).
    rewrite (bool_decide_ext _ _ (high_surrogate_test c1 Hr1)).
    rewrite (bool_decide_ext _ _ (low_surrogate_test c2 Hr2)).
    destruct (bool_decide (0xD800 <= c1 < 0xDC00)) eqn:Hh; cbn [andb].
    + apply bool_decide_eq_true_1 in Hh.
      destruct (bool_decide (0xDC00 <= c2 < 0xE000)) eqn:Hl.
      * apply bool_decide_eq_true_1 in Hl.
        rewrite band_1023, band_1023.
        pose proof (Z.div_mod c1 1024 ltac:(lia)).
        pose proof (Z.div_mod c2 1024 ltac:(lia)).
        pose proof (Z.mod_pos_bound c1 1024 ltac:(lia)).
        pose proof (Z.mod_pos_bound c2 1024 ltac:(lia)).
        rewrite shl_mul by lia.
        rewrite (ToInt32_id (c1 mod 1024)) by lia.
        rewrite ToInt32_id by (change (2 ^ 10) with 1024; lia).
        change (2 ^ 10) with 1024.
        set (c := 65536 + c1 mod 1024 * 1024 + c2 mod 1024).
        assert (Hc : 0x10000 <= c < 0x110000) by (unfold c; lia).
        destruct (utf8_four_bytes c Hc) as (E0 & E1 & E2 & E3 & Hq).
        rewrite !stored_cons, E0, E1, E2, E3. cbn [utf8_decode].
        rewrite (bool_decide_eq_false_2 (240 + c / 262144 < 128)) by lia.
        rewrite (bool_decide_eq_false_2 (240 + c / 262144 < 224)) by lia.
        rewrite (bool_decide_eq_false_2 (240 + c / 262144 < 240)) by lia.
        replace (S i + 1)%nat with (S (S i)) by lia.
        rewrite IH by lia. f_equal.
        pose proof (base64_digits c) as (_ & _ & Hd). unfold c in *. lia.
      * rewrite <- (IH (S i) (pos + 3)) by lia.
        destruct (utf8_three_bytes c1 ltac:(lia)) as (E0 & E1 & E2 & Hq).
        rewrite !stored_cons, E0, E1, E2. cbn [utf8_decode].
        rewrite (bool_decide_eq_false_2 (224 + c1 / 4096 < 128)) by lia.
        rewrite (bool_decide_eq_false_2 (224 + c1 / 4096 < 224)) by lia.
        rewrite (bool_decide_eq_true_2 (224 + c1 / 4096 < 240)) by lia.
        f_equal. pose proof (base64_digits c1). lia.
    + rewrite <- (IH (S i) (pos + 3)) by lia.
      destruct (utf8_three_bytes c1 ltac:(lia)) as (E0 & E1 & E2 & Hq).
      rewrite !stored_cons, E0, E1, E2. cbn [utf8_decode].
      rewrite (bool_decide_eq_false_2 (224 + c1 / 4096 < 128)) by lia.
      rewrite (bool_decide_eq_false_2 (224 + c1 / 4096 < 224)) by lia.
      rewrite (bool_decide_eq_true_2 (224 + c1 / 4096 < 240)) by lia.
      f_equal. pose proof (base64_digits c1). lia.
  - replace (bool_decide (band 0 0xFC00 = 0xDC00)) with false by reflexivity.
    rewrite andb_false_r.
    rewrite <- (IH (S i) (pos + 3)) by lia.
    destruct (utf8_three_bytes c1 ltac:(lia)) as (E0 & E1 & E2 & Hq).
    rewrite !stored_cons, E0, E1, E2. cbn [utf8_decode].
    rewrite (bool_decide_eq_false_2 (224 + c1 / 4096 < 128)) by lia.
    rewrite (bool_decide_eq_false_2 (224 + c1 / 4096 < 224)) by lia.
    rewrite (bool_decide_eq_true_2 (224 + c1 / 4096 < 240)) by lia.
    f_equal. pose proof (base64_digits c1). lia.
Qed.

Lemma writeString_loop_ascii (fuel : nat) (s : list Z) (i : nat) (pos : Z) :
  Forall (fun c => 0 <= c < 128) s ->
  (length s < fuel + i)%nat ->
  stored (writeString_loop fuel s i pos) = drop i s.
Proof.
  intros Hs. revert i pos. induction fuel as [|fuel IH]; intros i pos Hf.
  { rewrite drop_ge by lia. reflexivity. }
  cbn [writeString_loop]. unfold charCodeAt.
  destruct (s !! i) as [c1|] eqn:Hc1.
  - pose proof (Forall_lookup_1 _ _ _ _ Hs Hc1) as Hr. cbn beta in Hr.
    rewrite (bool_decide_eq_true_2 (c1 < 128)) by lia.
    rewrite (drop_S _ _ _ Hc1), stored_cons, Z.mod_small by lia.
    replace (i + 1)%nat with (S i) by lia. by rewrite IH by lia.
  - apply lookup_ge_None in Hc1. rewrite drop_ge by lia. reflexivity.
Qed.

(** X6.  [writeString] stores UTF-8.  For a string of 16-bit code units,
    reading the stored bytes back by their lead bytes gives the code
    points of the string: a surrogate pair as the one code point above
    [0xFFFF] it stands for, every other unit as itself (a lone surrogate
    too: the writer does not reject it).  A string of ASCII units is stored
    unit for unit. *)
Theorem writeString_utf8_roundtrip (pos : Z) (s : list Z) :
  Forall (fun c => 0 <= c < 65536) s ->
  utf8_decode (stored (writeString pos s)) = code_points s
  /\ (Forall (fun c => 0 <= c < 128) s -> stored (writeString pos s) = s).
Proof.
  intros Hs. unfold writeString. split.
  - rewrite writeString_loop_decode by (exact Hs || lia). by rewrite drop_0.
  - intros Ha. rewrite writeString_loop_ascii by (exact Ha || lia). by rewrite drop_0.
Qed.

Lemma writeString_utf8_roundtrip_witness :
  Forall (fun c => 0 <= c < 65536) [0x41; 0xE9; 0x20AC; 0xD834; 0xDD1E; 0xD800]
  /\ utf8_decode (stored (writeString 0 [0x41; 0xE9; 0x20AC; 0xD834; 0xDD1E; 0xD800]))
     = [0x41; 0xE9; 0x20AC; 0x1D11E; 0xD800].
Proof.
  assert (H : Forall (fun c => 0 <= c < 65536) [0x41; 0xE9; 0x20AC; 0xD834; 0xDD1E; 0xD800])
    by (repeat constructor; lia).
  split; [exact H|].
  exact (proj1 (writeString_utf8_roundtrip 0 _ H)).
Defined.

(** What [byteLength] counts is what [writeString] stores. *)
Lemma byteLength_writeString (s : list Z) (pos : Z) :
  Z.of_nat (length s) < 2 ^ 32 ->
  byteLength s = Z.of_nat (length (writeString pos s)).
Proof.
  intros Hlen. unfold byteLength, writeString. rewrite ToUint32_id by lia.
  rewrite (proj1 (string_loops_in_step _ s 0 pos 0)). lia.
Qed.

Lemma length_stored (st : Stores) : length (stored st) = length st.
Proof. apply length_map. Qed.

(** X7.  [string(s)] gives the canonical varint of the UTF-8 length of
    [s], which decodes to the number of bytes that follow, then the UTF-8
    bytes of [s]; the empty string gives the single byte 00.  The string
    and its UTF-8 form are taken to be shorter than 2^32. *)
Theorem string_length_prefixed (s : list Z) :
  Z.of_nat (length s) < 2 ^ 32 -> byteLength s < 2 ^ 32 ->
  exists pre,
    output [CString s] = Some (pre ++ stored (writeString 0 s))
    /\ canonical_varint pre
    /\ decode_varint pre = Z.of_nat (length (stored (writeString 0 s)))
    /\ Z.of_nat (length (stored (writeString 0 s))) = byteLength s
    /\ Z.of_nat (length pre) = varint_size (byteLength s)
    /\ (s = [] -> pre = [0]).
Proof.
  intros Hs Hbl. set (l := byteLength s) in *.
  assert (Hcount : l = Z.of_nat (length (writeString 0 s)))
    by (apply byteLength_writeString; exact Hs).
  assert (Hl : 0 <= l < 2 ^ 32) by lia.
  destruct (varint_size_minimal l Hl) as (n & Hn & Hlo & Hhi).
  exists (stored (varint_stores 0 l (S n))).
  assert (Hlen : length (stored (varint_stores 0 l (S n))) = S n)
    by (unfold stored, varint_stores; rewrite !length_map; apply length_seq).
  split; [|split; [|split; [|split; [|split]]]].
  - destruct (decide (l = 0)) as [Hz|Hnz].
    + rewrite (output_pushes [CString s] [(fn_writeByte, 1, VNum 0)]).
      * rewrite Hz in Hcount. destruct (writeString 0 s); [|cbn [length] in Hcount; lia].
        rewrite Hz in Hn. cbn in Hn. injection Hn as <-. rewrite Hz. reflexivity.
      * intros w. cbn [run foldl step]. unfold string. fold l.
        by rewrite bool_decide_eq_false_2 by lia.
      * constructor; [apply exact_writeByte | constructor].
    + rewrite (output_pushes [CString s] [uint32_entry l; (fn_writeString, l, VString s)]).
      * cbn [emit_stores]. rewrite app_nil_r. unfold stored at 1. rewrite map_app.
        fold (stored (call (fst (fst (uint32_entry l))) 0 (snd (uint32_entry l)))).
        rewrite uint32_entry_stored, ToUint32_id, Hn by exact Hl.
        cbn [fst snd call].
        fold (stored (writeString (0 + snd (fst (uint32_entry l))) s)).
        unfold writeString. by rewrite writeString_loop_stored.
      * intros w. cbn [run foldl step]. unfold string. fold l.
        rewrite bool_decide_eq_true_2 by exact Hnz. rewrite uint32_push. reflexivity.
      * constructor; [apply exact_uint32|].
        constructor; [by apply exact_writeString | constructor].
  - apply varint_stores_canonical; [assumption | lia].
  - rewrite length_stored, <- Hcount. apply decode_varint_stores. lia.
  - rewrite length_stored. lia.
  - rewrite Hlen, <- Hn. pose proof (varint_size_range l). lia.
  - intros ->. unfold l in Hn. cbn in Hn. injection Hn as <-. reflexivity.
Qed.

Lemma string_length_prefixed_witness :
  Z.of_nat (length [0x74; 0xE9]) < 2 ^ 32 /\ byteLength [0x74; 0xE9] < 2 ^ 32
  /\ exists pre,
       output [CString [0x74; 0xE9]] = Some (pre ++ [0x74; 0xC3; 0xA9])
       /\ decode_varint pre = 3.
Proof.
  split; [cbn; lia|]. split; [vm_compute; reflexivity|].
  destruct (string_length_prefixed [0x74; 0xE9] ltac:(cbn; lia) ltac:(vm_compute; reflexivity))
    as (pre & Ho & _ & Hd & _).
  exists pre. split; [exact Ho | exact Hd].
Defined.

(** The number of stores of [writeString] from index [i] on: at least one
    and at most three for each code unit left. *)
Lemma writeString_loop_length (fuel : nat) (s : list Z) (i : nat) (pos : Z) :
  (length s < fuel + i)%nat ->
  (length s - i <= length (writeString_loop fuel s i pos) <= 3 * (length s - i))%nat.
Proof.
  revert i pos. induction fuel as [|fuel IH]; intros i pos Hf.
  { cbn [writeString_loop length]. lia. }
  cbn [writeString_loop]. cbv zeta. unfold charCodeAt.
  destruct (s !! i) as [c1|] eqn:Hc1.
  2: { apply lookup_ge_None in Hc1. cbn [length]. lia. }
  apply lookup_lt_Some in Hc1.
  destruct (s !! (i + 1)%nat) as [c2|] eqn:Hc2.
  - apply lookup_lt_Some in Hc2.
    repeat match goal with
           | |- context [if ?b then _ else _] => destruct b
           end;
      cbn [length];
      match goal with
      | |- context [writeString_loop fuel s ?j ?p] => specialize (IH j p ltac:(lia))
      end; lia.
  - replace (bool_decide (band_nan None 0xFC00 = 0xDC00)) with false by reflexivity.
    rewrite andb_false_r.
    repeat match goal with
           | |- context [if ?b then _ else _] => destruct b
           end;
      cbn [length];
      match goal with
      | |- context [writeString_loop fuel s ?j ?p] => specialize (IH j p ltac:(lia))
      end; lia.
Qed.

(** X8.  [byteLength(s)] lies between the number of code units of [s] and
    three times that number, and is that number for an ASCII string; so
    the buffer [finish] allocates for a string field is never more than
    three bytes a unit. *)
Theorem byteLength_bounds (s : list Z) :
  Z.of_nat (length s) < 2 ^ 32 ->
  Z.of_nat (length s) <= byteLength s <= 3 * Z.of_nat (length s)
  /\ (Forall (fun c => 0 <= c < 128) s -> byteLength s = Z.of_nat (length s))
  /\ (byteLength s = 0 <-> s = []).
Proof.
  intros Hs. rewrite (byteLength_writeString s 0 Hs).
  pose proof (writeString_loop_length (S (length s)) s 0 0 ltac:(lia)) as Hb.
  fold (writeString 0 s) in Hb.
  split; [lia|]. split.
  - intros Ha. rewrite <- length_stored. unfold writeString.
    rewrite writeString_loop_ascii by (exact Ha || lia). by rewrite drop_0.
  - split.
    + intros Hz. destruct s; [reflexivity | cbn [length] in *; lia].
    + intros ->. reflexivity.
Qed.

Lemma byteLength_bounds_witness :
  Z.of_nat (length [0x41; 0xD834; 0xDD1E; 0x20AC]) < 2 ^ 32
  /\ 4 <= byteLength [0x41; 0xD834; 0xDD1E; 0x20AC] <= 12.
Proof.
  split; [cbn; lia|].
  exact (proj1 (byteLength_bounds [0x41; 0xD834; 0xDD1E; 0x20AC] ltac:(cbn; lia))).
Defined.

(** ** Writes one after the other *)

Lemma stored_app (st1 st2 : Stores) : stored (st1 ++ st2) = stored st1 ++ stored st2.
Proof. apply map_app. Qed.

Lemma stored_emit_app (es1 es2 : list Entry) :
  Forall exact es2 ->
  stored (emit_stores 0 (es1 ++ es2))
  = stored (emit_stores 0 es1) ++ stored (emit_stores 0 es2).
Proof.
  intros H2. rewrite emit_stores_app, stored_app.
  by rewrite (proj2 (emit_stores_exact _ es2 H2)).
Qed.

Lemma run_app (cs1 cs2 : list Cmd) (w : Writer) : run (cs1 ++ cs2) w = run cs2 (run cs1 w).
Proof. apply foldl_app. Qed.

(** Scalar writes in range: the ops they push, and their buffer. *)
Lemma scalar_output (cs : list Cmd) :
  forallb scalar cs = true -> Forall in_range cs ->
  exists es,
    (forall w, run cs w = pushes es w) /\ Forall exact es
    /\ (cs <> [] -> es <> [])
    /\ output cs = Some (stored (emit_stores 0 es))
    /\ Z.of_nat (length (stored (emit_stores 0 es))) = total_len es.
Proof.
  intros Hs Hr. destruct (scalar_run_exact cs Hs Hr) as (es & Hes & Hx & Hne).
  exists es. split; [exact Hes|]. split; [exact Hx|]. split; [exact Hne|].
  split; [by apply output_pushes | by apply exact_buffer].
Qed.

Lemma len_pushes_new (es : list Entry) : len (pushes es Writer_new) = total_len es.
Proof.
  destruct (pushes_on_chain es _ _ _ _ Writer_new_on_chain) as [(_ & _ & _ & Hl) _].
  cbn [app] in Hl. lia.
Qed.

(** X9.  Scalar writes compose by concatenation: for arguments in range,
    the buffer of the calls [cs1] followed by the calls [cs2] is the
    buffer of [cs1] followed by the buffer of [cs2], and [len] is the sum
    of the two lengths.  No write changes what an earlier or a later one
    produces. *)
Theorem output_app (cs1 cs2 : list Cmd) :
  forallb scalar cs1 = true -> Forall in_range cs1 ->
  forallb scalar cs2 = true -> Forall in_range cs2 ->
  exists b1 b2,
    output cs1 = Some b1 /\ output cs2 = Some b2
    /\ output (cs1 ++ cs2) = Some (b1 ++ b2)
    /\ len (run (cs1 ++ cs2) Writer_new) = Z.of_nat (length b1) + Z.of_nat (length b2).
Proof.
  intros Hs1 Hr1 Hs2 Hr2.
  destruct (scalar_output cs1 Hs1 Hr1) as (es1 & He1 & Hx1 & _ & Ho1 & Hl1).
  destruct (scalar_output cs2 Hs2 Hr2) as (es2 & He2 & Hx2 & _ & Ho2 & Hl2).
  exists (stored (emit_stores 0 es1)), (stored (emit_stores 0 es2)).
  split; [exact Ho1|]. split; [exact Ho2|].
  assert (He : forall w, run (cs1 ++ cs2) w = pushes (es1 ++ es2) w)
    by (intros w; by rewrite run_app, pushes_app, He1, He2).
  split.
  - rewrite (output_pushes _ _ He) by (by apply Forall_app).
    by rewrite stored_emit_app.
  - rewrite He, len_pushes_new, total_len_app. lia.
Qed.

Lemma output_app_witness :
  forallb scalar [CTag 1 0; CUint32 150] = true /\ Forall in_range [CTag 1 0; CUint32 150]
  /\ forallb scalar [CTag 2 2; CString [0x41]] = true
  /\ Forall in_range [CTag 2 2; CString [0x41]]
  /\ exists b1 b2,
       output [CTag 1 0; CUint32 150] = Some b1
       /\ output [CTag 2 2; CString [0x41]] = Some b2
       /\ output [CTag 1 0; CUint32 150; CTag 2 2; CString [0x41]] = Some (b1 ++ b2).
Proof.
  assert (H1 : Forall in_range [CTag 1 0; CUint32 150]) by (repeat constructor).
  assert (H2 : Forall in_range [CTag 2 2; CString [0x41]])
    by (repeat constructor; cbn; lia).
  split; [reflexivity|]. split; [exact H1|]. split; [reflexivity|]. split; [exact H2|].
  destruct (output_app [CTag 1 0; CUint32 150] [CTag 2 2; CString [0x41]]
              eq_refl H1 eq_refl H2) as (b1 & b2 & Ho1 & Ho2 & Ho & _).
  exists b1, b2. split; [exact Ho1|]. split; [exact Ho2 | exact Ho].
Defined.

(** ** The size of the buffer *)

Lemma finish_internal_length (fuel : nat) (h : list Op) (hd : option addr)
    (pos : Z) (buf b : Buf) :
  finish_internal fuel h hd pos buf = Some b -> length b = length buf.
Proof.
  revert hd pos buf. induction fuel as [|fuel IH]; intros hd pos buf H.
  - destruct hd; cbn in H; [discriminate | by injection H as <-].
  - destruct hd as [a|]; cbn [finish_internal] in H; [|by injection H as <-].
    destruct (h !! a) as [op|]; [|discriminate].
    apply IH in H. by rewrite H, apply_stores_length.
Qed.

(** X10.  Whatever the state of the writer, a buffer that [finish] returns
    has exactly [len] bytes ([len] is never negative in a writer built by
    calls), and one that [BufferWriter]'s [finish] returns has the length
    of the buffer it allocated: the walk over the queue never grows or
    shrinks the buffer, whatever the ops claim to store. *)
Theorem finish_length (w : Writer) (alloc b : Buf) :
  (fst (finish w) = Some b -> length b = Z.to_nat (len w))
  /\ (fst (finish_buffer alloc w) = Some b -> length b = length alloc).
Proof.
  unfold finish, finish_buffer. cbn [fst]. split; intros H.
  - apply finish_internal_length in H. by rewrite H, length_new_buf.
  - by apply finish_internal_length in H.
Qed.

Lemma finish_length_witness :
  fst (finish (run [CFork; CLdelim (Some 1); CUint32 5] Writer_new)) = Some [10; 0; 0]
  /\ length [10; 0; 0] = Z.to_nat (len (run [CFork; CLdelim (Some 1); CUint32 5] Writer_new)).
Proof.
  split; [reflexivity|].
  exact (proj1 (finish_length (run [CFork; CLdelim (Some 1); CUint32 5] Writer_new)
                  [] [10; 0; 0]) eq_refl).
Defined.

(** ** The writer after [finish] *)

(** X11.  [finish] with no fork open leaves a writer as good as new,
    whatever state it was in: [len] is 0, no state is saved, and scalar
    writes on it give the buffer and the [len] they give on a fresh
    writer.  Nothing of the old queue shows in later output. *)
Theorem finish_leaves_fresh_writer (w : Writer) (cs : list Cmd) :
  states w = [] -> forallb scalar cs = true ->
  let w' := snd (finish w) in
  len w' = 0 /\ states w' = []
  /\ fst (finish (run cs w')) = output cs
  /\ len (run cs w') = len (run cs Writer_new).
Proof.
  intros Hst Hs. cbv zeta.
  assert (Hw' : snd (finish w)
                = mkWriter (heap w ++ [mkOp noop (VNum 0) 0 None]) 0
                    (length (heap w)) (length (heap w)) [])
    by (unfold finish, reset; rewrite Hst; reflexivity).
  rewrite Hw'. set (w' := mkWriter _ _ _ _ _).
  assert (Hc : on_chain w' (heap w) [] 0).
  { unfold on_chain, w'. cbn [heap head tail len chain length total_len foldr].
    repeat split; try lia. }
  split; [reflexivity|]. split; [reflexivity|].
  destruct (scalar_run_pushes cs Hs) as (es & _ & Hes). unfold output. rewrite !Hes.
  destruct (pushes_on_chain es _ _ _ _ Hc) as [(Hh & Hhd & _ & Hl) _].
  destruct (pushes_on_chain es _ _ _ _ Writer_new_on_chain) as [(Hh0 & Hhd0 & _ & Hl0) _].
  cbn [app] in Hh, Hl, Hh0, Hl0. split.
  - rewrite (finish_chain_frame _ (heap w) [] es) by (rewrite ?app_nil_r; done || lia).
    rewrite (finish_chain_frame _ [] [] es) by (rewrite ?app_nil_r; done || lia).
    reflexivity.
  - lia.
Qed.

Lemma finish_leaves_fresh_writer_witness :
  states (run [CFork; CLdelim (Some 1); CUint32 5] Writer_new) = []
  /\ forallb scalar [CUint32 7] = true
  /\ fst (finish (run [CUint32 7]
                    (snd (finish (run [CFork; CLdelim (Some 1); CUint32 5] Writer_new)))))
     = output [CUint32 7]
  /\ output [CUint32 7] = Some [7].
Proof.
  split; [reflexivity|]. split; [reflexivity|]. split; [|reflexivity].
  exact (proj1 (proj2 (proj2
    (finish_leaves_fresh_writer (run [CFork; CLdelim (Some 1); CUint32 5] Writer_new)
       [CUint32 7] eq_refl eq_refl)))).
Defined.

(** ** Frames that are dropped *)

(** The writer after [outer; fork(); inner; reset()], all of them pushes:
    the outer frame again, the inner Ops left behind in the heap. *)
Lemma fork_reset_shape (eo ei : list Entry) :
  let w := reset (pushes ei (fork (pushes eo Writer_new))) in
  w = mkWriter (chain 0 (sentinel :: eo) ++ chain (S (length eo)) (sentinel :: ei))
        (total_len eo) 0%nat (length eo) [].
Proof.
  cbv zeta.
  destruct (pushes_on_chain eo _ _ _ _ Writer_new_on_chain)
    as [(Hh1 & Hhd1 & Htl1 & Hlen1) Hst1].
  cbn [app length Nat.add] in Hh1, Hhd1, Htl1, Hlen1. cbn [Writer_new states] in Hst1.
  set (w1 := pushes eo Writer_new) in *.
  assert (Hn1 : length (heap w1) = S (length eo)) by (rewrite Hh1, length_chain; reflexivity).
  destruct (pushes_on_chain ei _ _ _ _ (fork_on_chain w1)) as [(Hh3 & _) Hst3].
  cbn [fork states] in Hst3. rewrite Hst1, Hhd1, Htl1, Hlen1, Z.add_0_l in Hst3.
  unfold reset. rewrite Hst3, Hh3, Hn1, Hh1. reflexivity.
Qed.

(** X12.  [fork()], scalar writes, then [reset()] drops the inner frame
    whole: with scalar writes [outer] before and [after] behind, [finish]
    returns the buffer of [outer] followed by [after] alone, and [len] is
    theirs; nothing written between [fork] and [reset] is counted or
    emitted. *)
Theorem fork_reset_discards (outer inner after : list Cmd) :
  forallb scalar outer = true -> forallb scalar inner = true ->
  forallb scalar after = true ->
  let w := run after (reset (run inner (fork (run outer Writer_new)))) in
  fst (finish w) = output (outer ++ after)
  /\ len w = len (run (outer ++ after) Writer_new)
  /\ states w = [].
Proof.
  intros Ho Hi Ha. cbv zeta.
  destruct (scalar_run_pushes outer Ho) as (eo & _ & Heo).
  destruct (scalar_run_pushes inner Hi) as (ei & _ & Hei).
  destruct (scalar_run_pushes after Ha) as (ea & _ & Hea).
  unfold output. rewrite run_app, !Hea, Hei, !Heo, <- pushes_app.
  pose proof (fork_reset_shape eo ei) as Hw. cbv zeta in Hw. rewrite Hw. clear Hw.
  set (hi := chain (S (length eo)) (sentinel :: ei)).
  set (w4 := mkWriter (chain 0 (sentinel :: eo) ++ hi) (total_len eo) 0%nat (length eo) []).
  destruct (pushes_on_chain (eo ++ ea) _ _ _ _ Writer_new_on_chain)
    as [(Hh0 & Hhd0 & _ & Hl0) _].
  cbn [app] in Hh0, Hl0.
  rewrite (finish_chain_frame (pushes (eo ++ ea) Writer_new) [] [] (eo ++ ea))
    by (rewrite ?app_nil_r; done || lia).
  rewrite Hl0, Z.add_0_l.
  destruct (decide (ea = [])) as [-> | Hne].
  { cbn [pushes foldl]. rewrite app_nil_r.
    split; [|split; reflexivity].
    apply (finish_chain_frame w4 [] hi eo); reflexivity. }
  assert (Hlh : length (heap w4) = (S (length eo) + S (length ei))%nat)
    by (unfold w4, hi; cbn [heap]; rewrite length_app, !length_chain; reflexivity).
  destruct (pushes_heap ea w4) as (Hh & _ & Hlen & Hhd & Hst);
    [rewrite Hlh; cbn [tail w4]; lia | exact Hne |].
  rewrite Hlh in Hh. cbn [tail len head states w4] in Hh, Hlen, Hhd, Hst.
  set (L := (S (length eo) + S (length ei))%nat) in *.
  split; [|split; [rewrite Hlen, total_len_app; reflexivity | exact Hst]].
  assert (HA0 : seg (heap w4) 0 (sentinel :: eo) None)
    by (apply (seg_chain [] (sentinel :: eo))).
  assert (Hn : length (set_next (heap w4) (length eo) (Some L)) = L)
    by (unfold set_next; by rewrite length_alter).
  assert (HA : seg (heap (pushes ea w4)) 0 (sentinel :: eo) (Some L)).
  { rewrite Hh. apply seg_app_heap. eapply seg_set_next_last; [exact HA0|].
    cbn [length]. lia. }
  assert (HD : seg (heap (pushes ea w4)) L ea None).
  { pose proof (seg_chain_end (set_next (heap w4) (length eo) (Some L)) ea) as HD.
    rewrite Hn in HD. rewrite Hh. exact HD. }
  unfold finish. cbn [fst]. unfold reset. rewrite Hst. cbn [heap].
  rewrite Hhd, (seg_head_next _ _ _ _ _ HA), Hlen.
  set (hf := heap (pushes ea w4) ++ [mkOp noop (VNum 0) 0 None]).
  assert (HAf : seg hf 1 eo (Some L)) by (apply seg_app_heap, (seg_tail _ _ sentinel), HA).
  assert (HDf : seg hf L ea None) by (apply seg_app_heap, HD).
  replace (length hf) with (length eo + (length ea + S (length ei + 2)))%nat
    by (unfold hf; rewrite length_app, Hh, length_app, Hn, length_chain; cbn [length]; lia).
  rewrite (finish_internal_seg_opt hf 1 eo (Some L)) by exact HAf.
  rewrite (finish_internal_seg hf L ea None _ _ _ HDf Hne).
  cbn [finish_internal]. f_equal.
  rewrite total_len_app, emit_stores_app, apply_stores_app. reflexivity.
Qed.

Lemma fork_reset_discards_witness :
  forallb scalar [CUint32 1] = true /\ forallb scalar [CString [0x41]; CBool true] = true
  /\ forallb scalar [CUint32 300] = true
  /\ fst (finish (run [CUint32 300]
                    (reset (run [CString [0x41]; CBool true]
                              (fork (run [CUint32 1] Writer_new))))))
     = output [CUint32 1; CUint32 300]
  /\ output [CUint32 1; CUint32 300] = Some [1; 0xAC; 0x02].
Proof.
  split; [reflexivity|]. split; [reflexivity|]. split; [reflexivity|].
  split; [|reflexivity].
  exact (proj1 (fork_reset_discards [CUint32 1] [CString [0x41]; CBool true] [CUint32 300]
                  eq_refl eq_refl eq_refl)).
Defined.

(** ** Sub-messages *)

(** The bytes of the tag and length that [ldelim] pushes. *)
Lemma prefix_entries_stored (id : option Z) (l : Z) :
  0 <= l < 2 ^ 32 ->
  stored (emit_stores 0 (prefix_entries id l)) = delimiter id l
  /\ Forall exact (prefix_entries id l).
Proof.
  intros Hl. split.
  - unfold prefix_entries, delimiter.
    assert (Hu : stored (emit_stores 0 [uint32_entry l])
                 = stored (varint_stores 0 l (Z.to_nat (varint_size l)))).
    { cbn [emit_stores]. rewrite app_nil_r, uint32_entry_stored.
      by rewrite ToUint32_id by exact Hl. }
    rewrite stored_emit_app by (constructor; [apply exact_uint32 | constructor]).
    rewrite Hu. f_equal. destruct id as [id|]; [|reflexivity].
    cbn [emit_stores fst snd call writeByte app stored map].
    rewrite tag_value_low8. change (2 mod 8) with 2.
    by rewrite Z.mod_mod by lia.
  - unfold prefix_entries. apply Forall_app. split.
    + destruct id; [constructor; [apply exact_writeByte | constructor] | constructor].
    + constructor; [apply exact_uint32 | constructor].
Qed.

(** X13.  A sub-message written with [fork(); inner; ldelim(id)] is framed
    as a length-delimited field: for scalar writes with arguments in
    range, at least one inner write and an inner frame shorter than 2^32,
    [finish] returns the bytes of the writes before, the tag byte of wire
    type 2 (when an id is given), the varint of the number of inner bytes,
    the inner bytes as [inner] gives them on a writer of its own, and the
    bytes of the writes after. *)
Theorem submessage_framing (before inner after : list Cmd) (id : option Z) :
  forallb scalar before = true -> Forall in_range before ->
  forallb scalar inner = true -> Forall in_range inner ->
  forallb scalar after = true -> Forall in_range after ->
  inner <> [] -> len (run inner Writer_new) < 2 ^ 32 ->
  exists bb bi ba,
    output before = Some bb /\ output inner = Some bi /\ output after = Some ba
    /\ via_fork before inner after id
       = Some (bb ++ delimiter id (Z.of_nat (length bi)) ++ bi ++ ba)
    /\ Z.of_nat (length bi) = len (run inner Writer_new)
    /\ 0 < Z.of_nat (length bi).
Proof.
  intros Hsb Hrb Hsi Hri Hsa Hra Hne Hsize.
  destruct (scalar_output before Hsb Hrb) as (eb & Heb & Hxb & _ & Hob & Hlb).
  destruct (scalar_output inner Hsi Hri) as (ei & Hei & Hxi & Hnei & Hoi & Hli).
  destruct (scalar_output after Hsa Hra) as (ea & Hea & Hxa & _ & Hoa & Hla).
  specialize (Hnei Hne).
  rewrite Hei, len_pushes_new in Hsize.
  pose proof (total_len_exact _ Hxi) as Hti.
  assert (Hpos : 0 < total_len ei) by (destruct ei; [done | cbn [length] in Hti; lia]).
  destruct (prefix_entries_stored id (total_len ei) ltac:(lia)) as [Hpre Hxt].
  exists (stored (emit_stores 0 eb)), (stored (emit_stores 0 ei)),
    (stored (emit_stores 0 ea)).
  split; [exact Hob|]. split; [exact Hoi|]. split; [exact Hoa|].
  split; [|split; [rewrite Hei, len_pushes_new; exact Hli | lia]].
  unfold via_fork. rewrite Hea, Hei, Heb.
  rewrite (finish_fork_ldelim eb ei ea id Hnei). cbv zeta.
  set (et := prefix_entries id (total_len ei)) in *.
  assert (Hx : Forall exact (eb ++ et ++ ei ++ ea))
    by (repeat first [assumption | apply Forall_app; split]).
  rewrite (proj1 (exact_buffer _ Hx)).
  rewrite !stored_emit_app
    by (repeat first [assumption | apply Forall_app; split]).
  by rewrite Hpre, Hli.
Qed.

Lemma submessage_framing_witness :
  exists bb bi ba,
    output [CBool false] = Some bb /\ output [CTag 1 0; CUint32 150] = Some bi
    /\ output [CBool true] = Some ba
    /\ via_fork [CBool false] [CTag 1 0; CUint32 150] [CBool true] (Some 3)
       = Some (bb ++ delimiter (Some 3) (Z.of_nat (length bi)) ++ bi ++ ba).
Proof.
  destruct (submessage_framing [CBool false] [CTag 1 0; CUint32 150] [CBool true] (Some 3)
              eq_refl ltac:(repeat constructor) eq_refl ltac:(repeat constructor)
              eq_refl ltac:(repeat constructor) ltac:(discriminate) ltac:(vm_compute; reflexivity))
    as (bb & bi & ba & H1 & H2 & H3 & H4 & _).
  exists bb, bi, ba. repeat split; assumption.
Defined.

(** X14.  The length the writer keeps is the length of its queue: after
    scalar writes on a fresh writer, inside a fork after scalar writes,
    and after a sub-message closed by [ldelim] that holds at least one
    op, [len] is the sum of the lengths of the ops reachable from the
    head of the current frame. *)
Theorem len_is_queue_length (before inner after : list Cmd) (id : option Z) :
  forallb scalar before = true -> forallb scalar inner = true ->
  forallb scalar after = true -> inner <> [] ->
  len_invariant (run before Writer_new)
  /\ len_invariant (run inner (fork (run before Writer_new)))
  /\ len_invariant (ldelim id (run inner (fork (run before Writer_new))))
  /\ len_invariant (run after (ldelim id (run inner (fork (run before Writer_new))))).
Proof.
  intros Hb Hi Ha Hne.
  split; [apply (len_invariant_scalar before Writer_new Hb)|].
  split; [apply (len_invariant_scalar inner _ Hi)|].
  split.
  - apply (len_invariant_submessage before inner [] id); done.
  - by apply len_invariant_submessage.
Qed.

Lemma len_is_queue_length_witness :
  queue_len (run [CBool true] (ldelim (Some 3)
               (run [CTag 1 0; CUint32 150] (fork (run [CUint32 7] Writer_new)))))
  = Some 7.
Proof.
  exact (proj2 (proj2 (proj2
    (len_is_queue_length [CUint32 7] [CTag 1 0; CUint32 150] [CBool true] (Some 3)
       eq_refl eq_refl eq_refl ltac:(discriminate))))).
Defined.

(** ** The buffer of a [BufferWriter] *)

(** [BufferWriter]'s [finish] on a frame that is a chain somewhere in the
    heap. *)
Lemma finish_buffer_chain (w : Writer) (h h1 : list Op) (es : list Entry) (alloc : Buf) :
  heap w = h ++ chain (length h) (sentinel :: es) ++ h1 ->
  head w = length h ->
  fst (finish_buffer alloc w) = Some (apply_stores (emit_stores 0 es) alloc).
Proof.
  intros Hh Hhd. unfold finish_buffer. cbn [fst].
  assert (Hnext : next_of (heap w) (head w)
                  = match es with [] => None | _ :: _ => Some (length h + 1)%nat end).
  { unfold next_of. rewrite Hh, Hhd, lookup_app_r by lia.
    rewrite Nat.sub_diag. destruct es; cbn; [reflexivity|]. f_equal. lia. }
  assert (Hheap : exists h2, heap (reset w) = h ++ chain (length h) ([sentinel] ++ es) ++ h2).
  { unfold reset. destruct (states w); cbn [heap].
    - eexists. rewrite Hh, <- !app_assoc. reflexivity.
    - exists h1. rewrite Hh. reflexivity. }
  destruct Hheap as [h2 Hheap]. rewrite Hnext, Hheap.
  apply (finish_internal_chain h [sentinel] es h2).
  rewrite !length_app, length_chain, length_app. cbn [length]. lia.
Qed.

Lemma inherited_scalar (cs : list Cmd) :
  forallb inherited cs = true -> forallb scalar cs = true.
Proof.
  induction cs as [|c cs IH]; [reflexivity|]. cbn [forallb]. unfold inherited at 1.
  intros H. apply andb_prop in H as [H1 H2]. apply andb_prop in H1 as [H1 _].
  by rewrite H1, IH.
Qed.

(** Exact ops overwrite a buffer of their total length whole. *)
Lemma exact_overwrites (es : list Entry) (alloc : Buf) :
  Forall exact es -> Z.of_nat (length alloc) = total_len es ->
  apply_stores (emit_stores 0 es) alloc = stored (emit_stores 0 es).
Proof.
  intros Hx Hl. destruct (emit_stores_exact 0 es Hx) as [Hp _].
  assert (Hn : length (emit_stores 0 es) = Z.to_nat (total_len es))
    by (rewrite <- length_positions, Hp; apply length_seqZ).
  pose proof (apply_stores_seq (emit_stores 0 es) [] alloc []) as H.
  rewrite !app_nil_r in H. cbn [app length] in H. apply H.
  - rewrite Hn, <- Hl, Nat2Z.id, Hl. exact Hp.
  - lia.
Qed.

(** X15.  What the uncleared buffer of [Buffer.allocUnsafe] held never
    shows in the output of a [BufferWriter] for the scalar writes it
    inherits from [Writer] (all but [string]), arguments in range:
    whatever the allocated buffer of [len] bytes contains, [finish]
    returns the bytes the plain writer returns, every one overwritten. *)
Theorem finish_buffer_ignores_alloc (cs : list Cmd) (alloc : Buf) :
  forallb inherited cs = true -> Forall in_range cs ->
  Z.of_nat (length alloc) = len (run cs Writer_new) ->
  fst (finish_buffer alloc (run cs Writer_new)) = output cs
  /\ is_Some (output cs).
Proof.
  intros Hi Hr Hl. apply inherited_scalar in Hi.
  destruct (scalar_output cs Hi Hr) as (es & Hes & Hx & _ & Ho & _).
  rewrite Ho, Hes in *. rewrite len_pushes_new in Hl. split; [|done].
  destruct (pushes_on_chain es _ _ _ _ Writer_new_on_chain) as [(Hh & Hhd & _) _].
  cbn [app] in Hh.
  rewrite (finish_buffer_chain _ [] [] es) by (rewrite ?app_nil_r; done).
  by rewrite exact_overwrites.
Qed.

Lemma finish_buffer_ignores_alloc_witness :
  forallb inherited [CTag 1 0; CUint32 150] = true
  /\ Forall in_range [CTag 1 0; CUint32 150]
  /\ Z.of_nat (length [0xAA; 0xBB; 0xCC]) = len (run [CTag 1 0; CUint32 150] Writer_new)
  /\ fst (finish_buffer [0xAA; 0xBB; 0xCC] (run [CTag 1 0; CUint32 150] Writer_new))
     = Some [0x08; 0x96; 0x01].
Proof.
  assert (H : Forall in_range [CTag 1 0; CUint32 150]) by (repeat constructor).
  split; [reflexivity|]. split; [exact H|]. split; [reflexivity|].
  exact (proj1 (finish_buffer_ignores_alloc [CTag 1 0; CUint32 150] [0xAA; 0xBB; 0xCC]
                  eq_refl H eq_refl)).
Defined.

(** ** An empty sub-message *)

(** After [fork(); ldelim(id)] with nothing in between, the queue runs
    through the outer ops and the tag and length and ends there, and the
    tail is the head of the inner frame, which the queue does not reach. *)
Lemma ldelim_empty_shape (eb : list Entry) (id : option Z) :
  let et := prefix_entries id 0 in
  let n0 := S (length eb) in
  let w := ldelim id (fork (pushes eb Writer_new)) in
  seg (heap w) 0 (sentinel :: eb) (Some (S n0))
  /\ seg (heap w) (S n0) et None
  /\ length (heap w) = (S n0 + length et)%nat
  /\ head w = 0%nat
  /\ tail w = n0
  /\ len w = total_len eb + total_len et
  /\ states w = [].
Proof.
  cbv zeta.
  destruct (pushes_on_chain eb _ _ _ _ Writer_new_on_chain)
    as [(Hh1 & Hhd1 & Htl1 & Hlen1) Hst1].
  cbn [app length Nat.add] in Hh1, Hhd1, Htl1, Hlen1. cbn [Writer_new states] in Hst1.
  set (w1 := pushes eb Writer_new) in *.
  assert (Hn1 : length (heap w1) = S (length eb)) by (rewrite Hh1, length_chain; reflexivity).
  unfold ldelim. rewrite ldelim_prefix_pushes.
  assert (Hr : reset (fork w1)
               = mkWriter (heap w1 ++ [mkOp noop (VNum 0) 0 None]) (total_len eb)
                   0%nat (length eb) []).
  { unfold reset. cbn [fork states heap st_len st_head st_tail].
    rewrite Hst1, Hhd1, Htl1, Hlen1. reflexivity. }
  rewrite Hr. cbn [fork len head tail]. rewrite Hn1.
  set (et := prefix_entries id 0).
  set (w4 := mkWriter (heap w1 ++ [mkOp noop (VNum 0) 0 None]) (total_len eb)
               0%nat (length eb) []).
  assert (Hn4 : length (heap w4) = S (S (length eb)))
    by (unfold w4; cbn [heap]; rewrite length_app, Hn1; cbn [length]; lia).
  destruct (pushes_heap et w4) as (Hh5 & Htl5 & Hlen5 & Hhd5 & Hst5).
  { rewrite Hn4. cbn [tail w4]. lia. }
  { apply prefix_entries_nonempty. }
  rewrite Hn4 in Hh5, Htl5. cbn [tail len head states w4] in Hh5, Htl5, Hlen5, Hhd5, Hst5.
  assert (Het : (1 <= length et)%nat)
    by (pose proof (prefix_entries_nonempty id 0); fold et in H;
        destruct et; [done | cbn [length]; lia]).
  assert (HA4 : seg (heap w4) 0 (sentinel :: eb) None).
  { unfold w4. cbn [heap]. rewrite Hh1. apply (seg_chain [] (sentinel :: eb)). }
  assert (HB4 : seg (heap w4) (S (length eb)) [sentinel] None).
  { unfold w4. cbn [heap]. rewrite <- Hn1. apply (seg_chain_end (heap w1) [sentinel]). }
  assert (Hl : length (set_next (heap w4) (length eb) (Some (S (S (length eb)))))
               = S (S (length eb)))
    by (unfold set_next; rewrite length_alter; exact Hn4).
  assert (HA5 : seg (heap (pushes et w4)) 0 (sentinel :: eb) (Some (S (S (length eb))))).
  { rewrite Hh5. apply seg_app_heap. eapply seg_set_next_last; [exact HA4|].
    cbn [length]. lia. }
  assert (HB5 : seg (heap (pushes et w4)) (S (length eb)) [sentinel] None).
  { rewrite Hh5. apply seg_app_heap. apply seg_set_next_other; [exact HB4 | lia]. }
  assert (HC5 : seg (heap (pushes et w4)) (S (S (length eb))) et None).
  { pose proof (seg_chain_end
                  (set_next (heap w4) (length eb) (Some (S (S (length eb))))) et) as HC.
    rewrite Hl in HC. rewrite Hh5. exact HC. }
  assert (Hnext : next_of (heap (pushes et w4)) (S (length eb)) = None)
    by (rewrite (seg_head_next _ _ _ _ _ HB5); reflexivity).
  assert (Hlen5' : length (heap (pushes et w4)) = (S (S (length eb)) + length et)%nat)
    by (rewrite Hh5, length_app, length_chain, Hl; reflexivity).
  cbn [heap head tail len states]. rewrite Hnext, Htl5, Hlen5, Hhd5, Hst5.
  repeat split.
  - apply seg_set_next_other; [exact HA5 | cbn [length]; lia].
  - eapply seg_set_next_last; [exact HC5 | lia].
  - unfold set_next. rewrite length_alter. exact Hlen5'.
  - lia.
Qed.

(** [finish] on a queue of two segments, whatever else the heap holds:
    the stores of the two, on a buffer of [len] bytes. *)
Lemma finish_two_segments (w : Writer) (eb et : list Entry) (n1 : addr) :
  et <> [] ->
  seg (heap w) 0 (sentinel :: eb) (Some n1) -> seg (heap w) n1 et None ->
  head w = 0%nat -> states w = [] ->
  (S (length eb) + length et <= length (heap w))%nat ->
  fst (finish w) = Some (apply_stores (emit_stores 0 (eb ++ et)) (new_buf (len w))).
Proof.
  intros Het HA HC Hhd Hst Hlen.
  unfold finish. cbn [fst]. unfold reset. rewrite Hst. cbn [heap].
  rewrite Hhd, (seg_head_next _ _ _ _ _ HA).
  set (hf := heap w ++ [mkOp noop (VNum 0) 0 None]).
  assert (HAf : seg hf 1 eb (Some n1)) by (apply seg_app_heap, (seg_tail _ _ sentinel), HA).
  assert (HCf : seg hf n1 et None) by (apply seg_app_heap, HC).
  replace (length hf)
    with (length eb + (length et + S (length (heap w) - length eb - length et)))%nat
    by (unfold hf; rewrite length_app; cbn [length]; lia).
  rewrite (finish_internal_seg_opt hf 1 eb (Some n1)) by exact HAf.
  rewrite (finish_internal_seg hf n1 et None _ _ _ HCf Het).
  cbn [finish_internal]. f_equal.
  rewrite emit_stores_app, apply_stores_app. reflexivity.
Qed.

Lemma new_buf_add (a b : Z) : 0 <= a -> 0 <= b -> new_buf (a + b) = new_buf a ++ new_buf b.
Proof.
  intros Ha Hb. unfold new_buf. rewrite Z2Nat.inj_add by lia. apply replicate_add.
Qed.

(** X16.  What the code does with an empty sub-message: after [fork();
    ldelim(id)] with nothing in between, scalar writes that follow are
    counted in [len] but never reach the buffer.  For scalar writes
    [before] and [after] with arguments in range, [finish] returns the
    bytes of [before], the tag and the length byte 00, and then as many
    zero bytes as [after] would have written. *)
Theorem empty_submessage_drops_later_writes (before after : list Cmd) (id : option Z) :
  forallb scalar before = true -> Forall in_range before ->
  forallb scalar after = true -> Forall in_range after ->
  exists bb ba,
    output before = Some bb /\ output after = Some ba
    /\ via_fork before [] after id
       = Some (bb ++ delimiter id 0 ++ replicate (length ba) 0)
    /\ len (run after (ldelim id (fork (run before Writer_new))))
       = Z.of_nat (length (bb ++ delimiter id 0 ++ ba)).
Proof.
  intros Hsb Hrb Hsa Hra.
  destruct (scalar_output before Hsb Hrb) as (eb & Heb & Hxb & _ & Hob & Hlb).
  destruct (scalar_output after Hsa Hra) as (ea & Hea & Hxa & _ & Hoa & Hla).
  destruct (prefix_entries_stored id 0 ltac:(lia)) as [Hpre Hxt].
  exists (stored (emit_stores 0 eb)), (stored (emit_stores 0 ea)).
  split; [exact Hob|]. split; [exact Hoa|].
  unfold via_fork. cbn [run foldl]. fold (run after). rewrite Hea, Heb.
  destruct (ldelim_empty_shape eb id) as (HA & HC & Hlen & Hhd & Htl & Hl & Hst).
  cbv zeta in *.
  set (w6 := ldelim id (fork (pushes eb Writer_new))) in *.
  set (et := prefix_entries id 0) in *.
  assert (Het : et <> []) by apply prefix_entries_nonempty.
  assert (Hx : Forall exact (eb ++ et)) by (apply Forall_app; by split).
  assert (Hw : seg (heap (pushes ea w6)) 0 (sentinel :: eb) (Some (S (S (length eb))))
               /\ seg (heap (pushes ea w6)) (S (S (length eb))) et None
               /\ head (pushes ea w6) = 0%nat /\ states (pushes ea w6) = []
               /\ (S (length eb) + length et <= length (heap (pushes ea w6)))%nat
               /\ len (pushes ea w6) = total_len (eb ++ et) + total_len ea).
  { destruct (decide (ea = [])) as [-> | Hne].
    - cbn [pushes foldl]. rewrite total_len_app. unfold total_len at 3. cbn [foldr].
      repeat split; try done; lia.
    - destruct (pushes_heap ea w6) as (Hh7 & _ & Hlen7 & Hhd7 & Hst7); [lia | done |].
      rewrite Htl in Hh7. rewrite Hh7.
      split; [apply seg_app_heap, seg_set_next_other; [exact HA | cbn [length]; lia]|].
      split; [apply seg_app_heap, seg_set_next_other; [exact HC | lia]|].
      split; [congruence|]. split; [congruence|].
      split; [|rewrite Hlen7, Hl, total_len_app; lia].
      rewrite length_app. unfold set_next. rewrite length_alter. lia. }
  destruct Hw as (HA' & HC' & Hhd' & Hst' & Hlen' & Hl').
  pose proof (total_len_exact _ Hx) as Ht. pose proof (total_len_exact _ Hxa) as Hta.
  destruct (exact_buffer _ Hx) as [Hbuf Hblen].
  split.
  - rewrite (finish_two_segments _ eb et _ Het HA' HC' Hhd' Hst' Hlen'), Hl'.
    f_equal. rewrite new_buf_add by lia.
    pose proof (apply_stores_seq (emit_stores 0 (eb ++ et)) []
                  (new_buf (total_len (eb ++ et))) (new_buf (total_len ea))) as H.
    cbn [app length] in H. rewrite H.
    + rewrite stored_emit_app, Hpre by exact Hxt. rewrite <- app_assoc. do 2 f_equal.
      unfold new_buf. f_equal. rewrite length_stored in *. lia.
    + destruct (emit_stores_exact 0 _ Hx) as [Hp _]. rewrite Hp. f_equal.
      rewrite <- Hblen, length_stored. reflexivity.
    + rewrite length_new_buf, <- Hblen, length_stored. lia.
  - rewrite Hl', !length_app, total_len_app.
    rewrite <- Hpre. pose proof (proj2 (exact_buffer _ Hxb)).
    pose proof (proj2 (exact_buffer _ Hxt)). lia.
Qed.

Lemma empty_submessage_drops_later_writes_witness :
  exists bb ba,
    output [CUint32 7] = Some bb /\ output [CUint32 300; CBool true] = Some ba
    /\ via_fork [CUint32 7] [] [CUint32 300; CBool true] (Some 1)
       = Some (bb ++ delimiter (Some 1) 0 ++ replicate (length ba) 0)
    /\ via_fork [CUint32 7] [] [CUint32 300; CBool true] (Some 1) = Some [7; 10; 0; 0; 0; 0].
Proof.
  destruct (empty_submessage_drops_later_writes [CUint32 7] [CUint32 300; CBool true] (Some 1)
              eq_refl ltac:(repeat constructor) eq_refl ltac:(repeat constructor))
    as (bb & ba & H1 & H2 & H3 & _).
  exists bb, ba.
  split; [exact H1|]. split; [exact H2|]. split; [exact H3 | reflexivity].
Defined.

(** ** Frames as linked lists *)

Lemma last_cons {A : Type} (b d : A) (l : list A) : List.last (b :: l) d = List.last l b.
Proof.
  revert b d. induction l as [|c l IH]; intros b d; [reflexivity|].
  change (List.last (b :: c :: l) d) with (List.last (c :: l) d).
  by rewrite !IH.
Qed.

Lemma last_addr_cons (a b : addr) (e : Entry) (r : Nodes) :
  last_addr a ((b, e) :: r) = last_addr b r.
Proof. unfold last_addr. cbn [map fst]. apply last_cons. Qed.

Lemma last_addr_in (a : addr) (ns : Nodes) : last_addr a ns ∈ a :: map fst ns.
Proof.
  revert a. induction ns as [|[b e] r IH]; intros a.
  - apply list_elem_of_here.
  - rewrite last_addr_cons. cbn [map fst]. apply list_elem_of_further, IH.
Qed.

Lemma last_addr_app (a b : addr) (e : Entry) (ns1 r : Nodes) :
  last_addr a (ns1 ++ (b, e) :: r) = last_addr b r.
Proof.
  revert a. induction ns1 as [|[c e1] ns1 IH]; intros a; cbn [app].
  - apply last_addr_cons.
  - rewrite last_addr_cons. apply IH.
Qed.

Lemma set_next_lookup_ne (h : list Op) (t j : addr) (n : option addr) :
  t <> j -> set_next h t n !! j = h !! j.
Proof. apply list_lookup_alter_ne. Qed.

Lemma set_next_lookup_eq (h : list Op) (t : addr) (n : option addr) (o : Op) :
  h !! t = Some o -> set_next h t n !! t = Some (mkOp (op_fn o) (op_val o) (op_len o) n).
Proof. intros H. unfold set_next. by rewrite list_lookup_alter_eq, H. Qed.

Lemma set_next_payload (h : list Op) (t b : addr) (n' : option addr)
    (f : Fn) (v : Value) (l : Z) (n : option addr) :
  h !! b = Some (mkOp f v l n) -> exists n2, set_next h t n' !! b = Some (mkOp f v l n2).
Proof.
  intros H. destruct (decide (t = b)) as [->|Hne].
  - exists n'. by rewrite (set_next_lookup_eq _ _ _ _ H).
  - exists n. by rewrite set_next_lookup_ne.
Qed.

Lemma lseg_bound (h : list Op) (a : addr) (ns : Nodes) (nxt : option addr) :
  lseg h a ns nxt -> Forall (fun x => (x < length h)%nat) (a :: map fst ns).
Proof.
  revert a. induction ns as [|[b e] r IH]; intros a H; cbn [lseg] in H.
  - destruct H as (o & Ho & _). apply lookup_lt_Some in Ho. by constructor.
  - destruct H as ((o & Ho & _) & _ & Hr). apply lookup_lt_Some in Ho.
    constructor; [exact Ho | apply IH, Hr].
Qed.

Lemma lseg_app_heap (h h' : list Op) (a : addr) (ns : Nodes) (nxt : option addr) :
  lseg h a ns nxt -> lseg (h ++ h') a ns nxt.
Proof.
  revert a. induction ns as [|[b e] r IH]; intros a H; cbn [lseg] in *.
  - destruct H as (o & Ho & Hn). exists o. split; [by apply lookup_app_l_Some | exact Hn].
  - destruct H as ((o & Ho & Hn) & (n & Hb) & Hr).
    split; [exists o; split; [by apply lookup_app_l_Some | exact Hn]|].
    split; [exists n; by apply lookup_app_l_Some | apply IH, Hr].
Qed.

(** Writing the [next] of an Op outside a frame leaves the frame alone. *)
Lemma lseg_set_other (h : list Op) (a : addr) (ns : Nodes) (nxt n' : option addr) (t : addr) :
  lseg h a ns nxt -> t ∉ a :: map fst ns -> lseg (set_next h t n') a ns nxt.
Proof.
  revert a. induction ns as [|[b e] r IH]; intros a H Ht; cbn [lseg] in *.
  - destruct H as (o & Ho & Hn). exists o. split; [|exact Hn].
    rewrite set_next_lookup_ne; [exact Ho|]. intros ->. apply Ht, list_elem_of_here.
  - destruct H as ((o & Ho & Hn) & (n & Hb) & Hr).
    apply not_elem_of_cons in Ht as [Hta Ht]. cbn [map fst] in Ht.
    split; [exists o; split; [by rewrite set_next_lookup_ne | exact Hn]|].
    split; [|by apply IH].
    exists n. rewrite set_next_lookup_ne; [exact Hb|].
    intros ->. apply Ht, list_elem_of_here.
Qed.

(** Writing the [next] of the last Op of a frame. *)
Lemma lseg_set_last (h : list Op) (a : addr) (ns : Nodes) (nxt n' : option addr) :
  lseg h a ns nxt -> NoDup (a :: map fst ns) ->
  lseg (set_next h (last_addr a ns) n') a ns n'.
Proof.
  revert a. induction ns as [|[b e] r IH]; intros a H Hnd; cbn [lseg] in *.
  - destruct H as (o & Ho & _). eexists. split; [by apply set_next_lookup_eq|reflexivity].
  - destruct H as ((o & Ho & Hn) & (n & Hb) & Hr).
    rewrite last_addr_cons. cbn [map fst] in Hnd.
    apply NoDup_cons in Hnd as [Ha Hnd].
    pose proof (last_addr_in b r) as Hin.
    split; [|split; [by eapply set_next_payload | by apply IH]].
    exists o. split; [|exact Hn]. rewrite set_next_lookup_ne; [exact Ho|].
    intros Heq. apply Ha. by rewrite <- Heq.
Qed.

Lemma lseg_app (h : list Op) (a b : addr) (e : Entry) (ns1 r : Nodes) (nxt : option addr) :
  lseg h a ns1 (Some b) ->
  (exists n, h !! b = Some (mkOp (fst (fst e)) (snd e) (snd (fst e)) n)) ->
  lseg h b r nxt ->
  lseg h a (ns1 ++ (b, e) :: r) nxt.
Proof.
  revert a. induction ns1 as [|[c e1] ns1 IH]; intros a H1 Hb Hr; cbn [lseg app] in *.
  - done.
  - destruct H1 as (Ha & Hc & H1). split; [exact Ha|]. split; [exact Hc|]. by apply IH.
Qed.

Lemma lseg_next (h : list Op) (a : addr) (ns : Nodes) (nxt : option addr) :
  lseg h a ns nxt ->
  next_of h a = match ns with [] => nxt | (b, _) :: _ => Some b end.
Proof.
  unfold next_of. destruct ns as [|[b e] r]; cbn [lseg].
  - intros (o & -> & Hn). exact Hn.
  - intros ((o & -> & Hn) & _). exact Hn.
Qed.

(** The walk of [finish] over a frame. *)
Lemma finish_internal_lseg (h : list Op) (a : addr) (ns : Nodes) (fuel : nat)
    (pos : Z) (buf : Buf) :
  lseg h a ns None -> (length ns <= fuel)%nat ->
  finish_internal fuel h (next_of h a) pos buf
  = Some (apply_stores (emit_stores pos (map snd ns)) buf).
Proof.
  revert a fuel pos buf. induction ns as [|[b e] r IH]; intros a fuel pos buf H Hf.
  - rewrite (lseg_next _ _ _ _ H). by destruct fuel.
  - rewrite (lseg_next _ _ _ _ H). cbn [lseg] in H. destruct H as (_ & (n & Hb) & Hr).
    destruct fuel as [|fuel]; [cbn [length] in Hf; lia|].
    cbn [finish_internal]. rewrite Hb. cbn [op_next op_len op_fn op_val].
    replace n with (next_of h b) by (unfold next_of; by rewrite Hb).
    rewrite IH by (done || cbn [length] in Hf; lia).
    cbn [map snd emit_stores]. by rewrite apply_stores_app.
Qed.

(** The sum of the lengths of the ops [finish] would walk over. *)
Lemma ops_from_lseg (h : list Op) (a : addr) (ns : Nodes) (fuel : nat) :
  lseg h a ns None -> (length ns <= fuel)%nat ->
  (fun ops => foldr (fun o s => op_len o + s) 0 ops) <$> ops_from fuel h (next_of h a)
  = Some (total_len (map snd ns)).
Proof.
  revert a fuel. induction ns as [|[b e] r IH]; intros a fuel H Hf.
  - rewrite (lseg_next _ _ _ _ H). by destruct fuel.
  - rewrite (lseg_next _ _ _ _ H). cbn [lseg] in H. destruct H as (_ & (n & Hb) & Hr).
    destruct fuel as [|fuel]; [cbn [length] in Hf; lia|].
    cbn [ops_from]. rewrite Hb. cbn [op_next].
    replace n with (next_of h b) by (unfold next_of; by rewrite Hb).
    specialize (IH b fuel Hr ltac:(cbn [length] in Hf; lia)).
    destruct (ops_from fuel h (next_of h b)) as [ops|]; [|discriminate].
    cbn in IH. injection IH as IH. cbn. rewrite IH. reflexivity.
Qed.

(** No more distinct addresses than the heap has cells. *)
Lemma addrs_count (l : list addr) (n : nat) :
  NoDup l -> Forall (fun x => (x < n)%nat) l -> (length l <= n)%nat.
Proof.
  intros Hnd Hlt. rewrite <- (length_seq n 0).
  apply submseteq_length, NoDup_submseteq; [exact Hnd|].
  intros x Hx. apply elem_of_seq. rewrite Forall_forall in Hlt. specialize (Hlt x Hx). lia.
Qed.

(** ** The heap under the calls *)

Lemma all_addrs_cons (f : Frame) (fs : list Frame) :
  all_addrs (f :: fs) = (fst f :: map fst (snd f)) ++ all_addrs fs.
Proof. reflexivity. Qed.

Lemma heap_ok_bound (h : list Op) (fs : list Frame) :
  heap_ok h fs -> Forall (fun x => (x < length h)%nat) (all_addrs fs).
Proof.
  intros [Hl _]. induction Hl as [|f fs Hf _ IH]; [constructor|].
  rewrite all_addrs_cons. apply Forall_app. split; [|exact IH].
  by eapply lseg_bound.
Qed.

Lemma heap_ok_tail (h : list Op) (f : Frame) (fs : list Frame) :
  heap_ok h (f :: fs) -> heap_ok h fs.
Proof.
  intros [Hl Hnd]. split; [by inversion Hl|].
  rewrite all_addrs_cons in Hnd. by apply NoDup_app in Hnd as (_ & _ & Hnd).
Qed.

Lemma heap_ok_head (h : list Op) (f : Frame) (fs : list Frame) :
  heap_ok h (f :: fs) ->
  lseg h (fst f) (snd f) None /\ NoDup (fst f :: map fst (snd f))
  /\ (forall x, x ∈ fst f :: map fst (snd f) -> x ∉ all_addrs fs).
Proof.
  intros [Hl Hnd]. rewrite all_addrs_cons in Hnd.
  apply NoDup_app in Hnd as (H1 & H2 & _). split; [by inversion Hl | by split].
Qed.

(** The frames other than the first keep their lists when the [next] of an
    Op of the first is written, and when the heap grows. *)
Lemma others_kept (h h' : list Op) (f : Frame) (fs : list Frame) (t : addr)
    (n : option addr) :
  heap_ok h (f :: fs) -> t ∈ fst f :: map fst (snd f) ->
  Forall (fun g => lseg (set_next (h ++ h') t n) (fst g) (snd g) None) fs.
Proof.
  intros Hok Ht. destruct (heap_ok_head _ _ _ Hok) as (_ & _ & Hdis).
  specialize (Hdis t Ht). destruct Hok as [Hl _]. inversion Hl as [|? ? _ Hfs]; subst.
  clear Hl. induction Hfs as [|g fs Hg _ IH]; [constructor|].
  rewrite all_addrs_cons in Hdis. apply not_elem_of_app in Hdis as [Hg' Hrest].
  constructor; [|by apply IH].
  apply lseg_set_other; [by apply lseg_app_heap | exact Hg'].
Qed.

(** [push] on the first frame. *)
Lemma heap_ok_push (h : list Op) (hd : addr) (ns : Nodes) (fs : list Frame) (e : Entry) :
  heap_ok h ((hd, ns) :: fs) ->
  heap_ok (set_next (h ++ [mkOp (fst (fst e)) (snd e) (snd (fst e)) None])
             (last_addr hd ns) (Some (length h)))
    ((hd, ns ++ [(length h, e)]) :: fs).
Proof.
  intros Hok. pose proof (heap_ok_bound _ _ Hok) as Hb.
  destruct (heap_ok_head _ _ _ Hok) as (Hl & Hnd & Hdis). cbn [fst snd] in *.
  pose proof (last_addr_in hd ns) as Hin.
  assert (Hfresh : length h ∉ all_addrs ((hd, ns) :: fs)).
  { intros Hx. rewrite Forall_forall in Hb. specialize (Hb _ Hx). lia. }
  assert (Ht : last_addr hd ns <> length h).
  { intros Heq. apply Hfresh. rewrite all_addrs_cons. apply elem_of_app. left.
    cbn [fst snd]. by rewrite <- Heq. }
  split.
  - constructor; [|by eapply others_kept]. cbn [fst snd].
    apply lseg_app.
    + apply (lseg_set_last _ _ _ None); [by apply lseg_app_heap | exact Hnd].
    + exists None. rewrite set_next_lookup_ne by exact Ht.
      rewrite lookup_app_r by lia. by rewrite Nat.sub_diag.
    + cbn [lseg]. exists (mkOp (fst (fst e)) (snd e) (snd (fst e)) None).
      split; [|reflexivity].
      rewrite set_next_lookup_ne by exact Ht.
      rewrite lookup_app_r by lia. by rewrite Nat.sub_diag.
  - destruct Hok as [_ Hall]. rewrite all_addrs_cons in *. cbn [fst snd] in *.
    rewrite map_app. cbn [map fst].
    assert (Hp : (hd :: map fst ns ++ [length h]) ++ all_addrs fs
                 ≡ₚ length h :: (hd :: map fst ns) ++ all_addrs fs).
    { rewrite app_comm_cons, <- app_assoc. cbn [app].
      symmetry. apply (Permutation_middle (hd :: map fst ns)). }
    rewrite Hp. apply NoDup_cons. split; [exact Hfresh | exact Hall].
Qed.

(** [fork], and [reset] with no state saved: a new head. *)
Lemma heap_ok_new_head (h : list Op) (fs : list Frame) :
  heap_ok h fs -> heap_ok (h ++ [mkOp noop (VNum 0) 0 None]) ((length h, []) :: fs).
Proof.
  intros Hok. pose proof (heap_ok_bound _ _ Hok) as Hb. destruct Hok as [Hl Hnd].
  split.
  - constructor.
    + cbn [lseg fst snd]. exists (mkOp noop (VNum 0) 0 None). split; [|reflexivity].
      rewrite lookup_app_r by lia. by rewrite Nat.sub_diag.
    + eapply Forall_impl; [exact Hl|]. intros g Hg. by apply lseg_app_heap.
  - rewrite all_addrs_cons. cbn [fst snd map app]. apply NoDup_cons. split; [|exact Hnd].
    intros Hx. rewrite Forall_forall in Hb. specialize (Hb _ Hx). lia.
Qed.

(** The splice of [ldelim]: the ops of the inner frame behind those of the
    outer one. *)
Lemma heap_ok_splice (h : list Op) (ho hi b : addr) (e : Entry) (no r : Nodes)
    (fs : list Frame) :
  heap_ok h ((ho, no) :: (hi, (b, e) :: r) :: fs) ->
  heap_ok (set_next h (last_addr ho no) (Some b)) ((ho, no ++ (b, e) :: r) :: fs).
Proof.
  intros Hok.
  destruct (heap_ok_head _ _ _ Hok) as (Hlo & Hndo & Hdis). cbn [fst snd] in *.
  destruct (heap_ok_head _ _ _ (heap_ok_tail _ _ _ Hok)) as (Hli & Hndi & Hdisi).
  cbn [fst snd] in *.
  pose proof (last_addr_in ho no) as Hin. specialize (Hdis _ Hin).
  rewrite all_addrs_cons in Hdis. cbn [fst snd map] in Hdis.
  apply not_elem_of_app in Hdis as [Hti Htr].
  apply not_elem_of_cons in Hti as [_ Hti].
  cbn [lseg] in Hli. destruct Hli as (_ & (n & Hb) & Hr).
  split.
  - constructor; cbn [fst snd].
    + apply lseg_app.
      * by apply (lseg_set_last _ _ _ None).
      * by eapply set_next_payload.
      * by apply lseg_set_other.
    + destruct Hok as [Hl _]. inversion Hl as [|? ? _ Hl1]; subst.
      inversion Hl1 as [|? ? _ Hfs]; subst. clear Hl Hl1 Hdisi.
      induction Hfs as [|g fs Hg _ IH]; [constructor|].
      rewrite all_addrs_cons in Htr. apply not_elem_of_app in Htr as [Hg' Hrest].
      constructor; [by apply lseg_set_other | by apply IH].
  - destruct Hok as [_ Hall]. rewrite !all_addrs_cons in *. cbn [fst snd] in *.
    rewrite map_app. cbn [map fst].
    assert (Hp : (ho :: map fst no) ++ (hi :: b :: map fst r) ++ all_addrs fs
                 ≡ₚ hi :: (ho :: map fst no ++ b :: map fst r) ++ all_addrs fs).
    { rewrite (app_comm_cons (map fst no)), <- (app_assoc (ho :: map fst no)).
      cbn [app]. symmetry. apply (Permutation_middle (ho :: map fst no)). }
    rewrite Hp in Hall. by apply NoDup_cons in Hall as [_ ?].
Qed.

Lemma heap_ok_swap (h : list Op) (f g : Frame) (fs : list Frame) :
  heap_ok h (f :: g :: fs) -> heap_ok h (g :: f :: fs).
Proof.
  intros [Hl Hnd]. split.
  - inversion Hl as [|? ? Hf Hl1]; subst. inversion Hl1 as [|? ? Hg Hfs]; subst.
    by repeat constructor.
  - rewrite !all_addrs_cons in *. rewrite app_assoc in *.
    by rewrite (Permutation_app_comm (fst g :: _)).
Qed.

(** ** The writer under the calls *)

Lemma last_addr_snoc (a b : addr) (e : Entry) (ns : Nodes) :
  last_addr a (ns ++ [(b, e)]) = b.
Proof. by rewrite last_addr_app. Qed.

Lemma push_frame (w : Writer) (hd : addr) (ns : Nodes) (fs : list Frame) (e : Entry) :
  current w (hd, ns) -> heap_ok (heap w) ((hd, ns) :: fs) ->
  current (push_entry w e) (hd, ns ++ [(length (heap w), e)])
  /\ heap_ok (heap (push_entry w e)) ((hd, ns ++ [(length (heap w), e)]) :: fs)
  /\ states (push_entry w e) = states w.
Proof.
  intros (Hhd & Htl & Hlen) Hok. cbn [fst snd] in *.
  unfold push_entry, push. cbn [heap head tail len states].
  split; [|split; [|reflexivity]].
  - unfold current, frame_entries. cbn [fst snd head tail len].
    split; [exact Hhd|]. split; [by rewrite last_addr_snoc|].
    rewrite Hlen, map_app, total_len_app. unfold frame_entries, total_len. cbn. lia.
  - rewrite Htl. by apply heap_ok_push.
Qed.

Lemma pushes_frame (es : list Entry) (w : Writer) (hd : addr) (ns : Nodes)
    (fs : list Frame) :
  current w (hd, ns) -> heap_ok (heap w) ((hd, ns) :: fs) ->
  exists ns',
    current (pushes es w) (hd, ns')
    /\ heap_ok (heap (pushes es w)) ((hd, ns') :: fs)
    /\ states (pushes es w) = states w
    /\ map snd ns' = map snd ns ++ es.
Proof.
  revert w ns. induction es as [|e es IH]; intros w ns Hc Hok.
  - exists ns. by rewrite app_nil_r.
  - destruct (push_frame w hd ns fs e Hc Hok) as (Hc1 & Hok1 & Hst1).
    destruct (IH _ _ Hc1 Hok1) as (ns' & Hc2 & Hok2 & Hst2 & Hm).
    exists ns'. cbn [pushes foldl]. fold (pushes es (push_entry w e)).
    split; [exact Hc2|]. split; [exact Hok2|]. split; [congruence|].
    rewrite Hm, map_app, <- app_assoc. reflexivity.
Qed.

Lemma holds_new : holds Writer_new [(0%nat, [])].
Proof.
  split; [by repeat split|]. split; [reflexivity|]. split.
  - constructor; [|constructor]. cbn. by eexists.
  - cbn. apply NoDup_singleton.
Qed.

Lemma holds_fork (w : Writer) (fs : list Frame) :
  holds w fs -> holds (fork w) ((length (heap w), []) :: fs).
Proof.
  destruct fs as [|f rest]; [done|]. intros ((Hhd & Htl & Hlen) & Hst & Hok).
  split; [by repeat split|]. split.
  - cbn [fork states map]. unfold saved at 1. by rewrite Hhd, Htl, Hlen, Hst.
  - by apply heap_ok_new_head.
Qed.

Lemma holds_reset (w : Writer) (f : Frame) (fs : list Frame) :
  holds w (f :: fs) ->
  holds (reset w) (match fs with [] => [(length (heap w), [])] | _ :: _ => fs end).
Proof.
  intros (_ & Hst & Hok). unfold reset. rewrite Hst. destruct fs as [|g rest]; cbn [map].
  - split; [by repeat split|]. split; [reflexivity|].
    apply heap_ok_new_head. by apply heap_ok_tail in Hok.
  - split; [by repeat split|]. split; [reflexivity|]. by apply heap_ok_tail in Hok.
Qed.

(** [ldelim] on a frame that holds at least one op. *)
Lemma holds_ldelim (w : Writer) (hi ho : addr) (ni no : Nodes) (rest : list Frame)
    (id : option Z) :
  holds w ((hi, ni) :: (ho, no) :: rest) -> ni <> [] ->
  exists no',
    holds (ldelim id w) ((ho, no') :: rest)
    /\ map snd no' = map snd no ++ prefix_entries id (total_len (map snd ni)) ++ map snd ni.
Proof.
  intros ((Hhd & Htl & Hlen) & Hst & Hok) Hne. cbn [fst snd map] in *.
  unfold frame_entries in Hlen. cbn [snd] in Hlen.
  destruct ni as [|[b e] r]; [done|]. clear Hne.
  unfold ldelim. rewrite ldelim_prefix_pushes.
  assert (Hr : reset w = mkWriter (heap w) (total_len (map snd no)) ho (last_addr ho no)
                           (map saved rest))
    by (unfold reset; rewrite Hst; reflexivity).
  rewrite Hr.
  set (w1 := mkWriter (heap w) (total_len (map snd no)) ho (last_addr ho no)
               (map saved rest)).
  destruct (pushes_frame (prefix_entries id (len w)) w1 ho no ((hi, (b, e) :: r) :: rest))
    as (no1 & (Hhd2 & Htl2 & Hlen2) & Hok2 & Hst2 & Hm2).
  { unfold current, frame_entries, w1. cbn [fst snd head tail len]. done. }
  { by apply heap_ok_swap. }
  cbn [fst snd] in *. set (w2 := pushes (prefix_entries id (len w)) w1) in *.
  destruct (heap_ok_head _ _ _ (heap_ok_tail _ _ _ Hok2)) as (Hli & _).
  cbn [fst snd] in Hli.
  exists (no1 ++ (b, e) :: r). split.
  - split; [|split].
    + unfold current, frame_entries. cbn [fst snd head tail len].
      split; [exact Hhd2|]. split; [by rewrite Htl, last_addr_app, last_addr_cons|].
      unfold frame_entries in Hlen2. cbn [snd] in Hlen2.
      rewrite Hlen2, Hlen, map_app, total_len_app. reflexivity.
    + cbn [states]. rewrite Hst2. reflexivity.
    + cbn [heap]. rewrite Hhd, (lseg_next _ _ _ _ Hli), Htl2.
      by apply (heap_ok_splice _ _ hi).
  - rewrite map_app, Hm2, Hlen, <- app_assoc. reflexivity.
Qed.

(** [finish] returns the stores of the current frame, and [len] is the
    length of its queue. *)
Lemma holds_finish (w : Writer) (f : Frame) (fs : list Frame) :
  holds w (f :: fs) ->
  fst (finish w)
  = Some (apply_stores (emit_stores 0 (frame_entries f))
            (new_buf (total_len (frame_entries f))))
  /\ len w = total_len (frame_entries f)
  /\ len_invariant w.
Proof.
  intros ((Hhd & Htl & Hlen) & Hst & Hok).
  destruct (heap_ok_head _ _ _ Hok) as (Hl & Hnd & _).
  pose proof (addrs_count _ _ Hnd (lseg_bound _ _ _ _ Hl)) as Hcount.
  cbn [length] in Hcount. rewrite length_map in Hcount.
  split; [|split; [exact Hlen|]].
  - unfold finish. cbn [fst]. rewrite Hhd, Hlen.
    assert (Hh : exists h2, heap (reset w) = heap w ++ h2).
    { unfold reset. destruct (states w); cbn [heap]; [by eexists|].
      exists []. by rewrite app_nil_r. }
    destruct Hh as [h2 Hh]. rewrite Hh.
    pose proof (lseg_app_heap _ h2 _ _ _ Hl) as Hl2.
    replace (next_of (heap w) (fst f)) with (next_of (heap w ++ h2) (fst f))
      by (by rewrite (lseg_next _ _ _ _ Hl), (lseg_next _ _ _ _ Hl2)).
    apply finish_internal_lseg; [exact Hl2|]. rewrite length_app. lia.
  - unfold len_invariant, queue_len, queue. rewrite Hhd, Hlen.
    apply ops_from_lseg; [exact Hl | lia].
Qed.

(** ** Nested sub-messages *)

Lemma ref_step_scalar (c : Cmd) (bs : list (list Z)) :
  scalar c = true ->
  ref_step c bs
  = match bs, output [c] with
    | cur :: rest, Some b => Some ((cur ++ b) :: rest)
    | _, _ => None
    end.
Proof. destruct c; (discriminate || reflexivity). Qed.

Lemma frames_store_nonempty (f : Frame) (b : list Z) :
  stored (emit_stores 0 (frame_entries f)) = b -> b <> [] -> snd f <> [].
Proof.
  intros Hb Hne Hs. apply Hne. rewrite <- Hb. unfold frame_entries. by rewrite Hs.
Qed.

(** One call keeps the writer and the byte strings in step. *)
Lemma ref_step_sound (c : Cmd) (w : Writer) (fs : list Frame) (bs bs' : list (list Z)) :
  in_range c -> holds w fs -> frames_store fs bs -> ref_step c bs = Some bs' ->
  exists fs', holds (step c w) fs' /\ frames_store fs' bs'.
Proof.
  intros Hr Hw Hfs Hstep.
  destruct (scalar c) eqn:Hsc.
  { rewrite (ref_step_scalar c bs Hsc) in Hstep.
    destruct Hfs as [|f b fs bs [Hx Hb] Hrest]; [done|].
    destruct (output [c]) as [bc|] eqn:Ho; [|done]. injection Hstep as <-.
    destruct (scalar_step_exact c Hsc Hr) as (es & Hes & Hxe & _).
    assert (Ho' : output [c] = Some (stored (emit_stores 0 es)))
      by (apply output_pushes; [intros w0; apply Hes | exact Hxe]).
    rewrite Ho in Ho'. injection Ho' as ->.
    destruct f as [hd ns]. destruct Hw as (Hc & Hst & Hok).
    destruct (pushes_frame es w hd ns fs Hc Hok) as (ns' & Hc' & Hok' & Hst' & Hm).
    exists ((hd, ns') :: fs). rewrite Hes. split.
    - split; [exact Hc'|]. split; [congruence | exact Hok'].
    - constructor; [|exact Hrest]. unfold frame_entries in *. cbn [snd] in *.
      rewrite Hm. split; [by apply Forall_app|].
      by rewrite stored_emit_app, Hb. }
  destruct c; try discriminate Hsc; cbn [step ref_step] in *.
  - (* fork *)
    injection Hstep as <-. exists ((length (heap w), []) :: fs).
    split; [by apply holds_fork|]. constructor; [|exact Hfs]. by split.
  - (* reset *)
    destruct Hfs as [|f b fs bs Hf Hrest]; [done|].
    pose proof (holds_reset w f fs Hw) as Hw'.
    destruct Hrest as [|g b2 fs bs Hg Hrest].
    + injection Hstep as <-. eexists. split; [exact Hw'|].
      constructor; [by split | constructor].
    + injection Hstep as <-. eexists. split; [exact Hw'|]. by constructor.
  - (* ldelim *)
    destruct Hfs as [|[hi ni] bi fs bs [Hxi Hbi] Hrest]; [done|].
    destruct Hrest as [|[ho no] bo fs bs [Hxo Hbo] Hrest]; [done|].
    case_bool_decide as Hc; [|done]. destruct Hc as [Hne Hsize]. injection Hstep as <-.
    unfold frame_entries in *. cbn [snd] in *.
    destruct (exact_buffer _ Hxi) as [_ Hlen]. rewrite Hbi in Hlen.
    destruct (holds_ldelim w hi ho ni no fs id Hw) as (no' & Hw' & Hm).
    { apply (frames_store_nonempty (hi, ni) bi); assumption. }
    destruct (prefix_entries_stored id (total_len (map snd ni)) ltac:(lia)) as [Hpre Hxt].
    exists ((ho, no') :: fs). split; [exact Hw'|].
    constructor; [|exact Hrest]. unfold frame_entries. cbn [snd]. rewrite Hm. split.
    + repeat first [assumption | apply Forall_app; split].
    + rewrite !stored_emit_app by (repeat first [assumption | apply Forall_app; split]).
      by rewrite Hpre, Hbo, Hbi, Hlen.
Qed.

Lemma ref_run_sound (cs : list Cmd) (w : Writer) (fs : list Frame) (bs bs' : list (list Z)) :
  Forall in_range cs -> holds w fs -> frames_store fs bs -> ref_run cs bs = Some bs' ->
  exists fs', holds (run cs w) fs' /\ frames_store fs' bs'.
Proof.
  revert w fs bs. induction cs as [|c cs IH]; intros w fs bs Hr Hw Hfs Hrun.
  - injection Hrun as <-. by exists fs.
  - cbn [ref_run] in Hrun. destruct (ref_step c bs) as [bs1|] eqn:Hstep; [|done].
    apply Forall_cons in Hr as [Hrc Hr].
    destruct (ref_step_sound c w fs bs bs1 Hrc Hw Hfs Hstep) as (fs1 & Hw1 & Hfs1).
    exact (IH _ _ _ Hr Hw1 Hfs1 Hrun).
Qed.

(** X17.  Nested sub-messages.  For any sequence of scalar writes with
    arguments in range, [fork], [reset] and [ldelim] in which every
    [ldelim] closes an open fork whose frame holds at least one byte and
    fewer than 2^32, at any depth of nesting: [finish] returns the bytes
    of the current frame as the length-delimited encoding defines them
    (a closed sub-message is its tag, the varint of its length and its
    bytes, in the frame that was forked); [len] is their number and the
    length of the queue; and as many states are saved as forks are
    open. *)
Theorem nested_submessages (cs : list Cmd) (bs : list Z) (rest : list (list Z)) :
  Forall in_range cs ->
  ref_run cs [[]] = Some (bs :: rest) ->
  output cs = Some bs
  /\ len (run cs Writer_new) = Z.of_nat (length bs)
  /\ len_invariant (run cs Writer_new)
  /\ length (states (run cs Writer_new)) = length rest.
Proof.
  intros Hr Hrun.
  destruct (ref_run_sound cs Writer_new [(0%nat, [])] [[]] (bs :: rest) Hr holds_new)
    as (fs & Hw & Hfs); [by repeat constructor | exact Hrun |].
  inversion Hfs as [|f b fs' bs' [Hx Hb] Hrest]; subst.
  destruct (holds_finish _ _ _ Hw) as (Hfin & Hlen & Hinv).
  destruct (exact_buffer _ Hx) as [Hbuf Hblen].
  unfold output. rewrite Hfin, Hbuf. split; [reflexivity|].
  split; [rewrite Hlen, <- Hblen; reflexivity|]. split; [exact Hinv|].
  destruct Hw as (_ & -> & _). rewrite length_map. by eapply Forall2_length.
Qed.

Lemma nested_submessages_witness :
  Forall in_range [CTag 1 0; CUint32 7; CFork; CTag 1 2; CString [0x41]; CFork;
                   CTag 1 0; CUint32 150; CLdelim (Some 2); CLdelim (Some 3); CBool true]
  /\ output [CTag 1 0; CUint32 7; CFork; CTag 1 2; CString [0x41]; CFork;
             CTag 1 0; CUint32 150; CLdelim (Some 2); CLdelim (Some 3); CBool true]
     = Some [0x08; 0x07; 0x1A; 0x08; 0x0A; 0x01; 0x41; 0x12; 0x03; 0x08; 0x96; 0x01; 0x01].
Proof.
  assert (H : Forall in_range
                [CTag 1 0; CUint32 7; CFork; CTag 1 2; CString [0x41]; CFork;
                 CTag 1 0; CUint32 150; CLdelim (Some 2); CLdelim (Some 3); CBool true])
    by (repeat constructor; cbn; lia).
  split; [exact H|].
  exact (proj1 (nested_submessages _ _ [] H eq_refl)).
Defined.

(** ** Enqueueing one op *)

(** [finish] behind pushes of exact ops on a fresh writer. *)
Lemma finish_pushes (es : list Entry) :
  Forall exact es ->
  fst (finish (pushes es Writer_new)) = Some (stored (emit_stores 0 es)).
Proof.
  intros Hx.
  destruct (pushes_on_chain es _ _ _ _ Writer_new_on_chain) as [(Hh & Hhd & _ & Hl) _].
  cbn [app] in Hh, Hl.
  rewrite (finish_chain_frame _ [] [] es) by (rewrite ?app_nil_r; done).
  by destruct (exact_buffer es Hx) as [-> _].
Qed.

(** [push] of an op that stores exactly its length enqueues that op. *)
Lemma push_enqueues_one (e : Entry) :
  exact e -> enqueues_one (fun w => push_entry w e) e.
Proof.
  intros He. split; [|split].
  - intros w hd ns fs (Hc & Hst & Hok).
    destruct (push_frame w hd ns fs e Hc Hok) as (Hc' & Hok' & Hst').
    split; [exact Hc'|]. split; [congruence | exact Hok'].
  - destruct e as [[f l] v]. reflexivity.
  - intros cs b Hs Hr Ho.
    destruct (scalar_output cs Hs Hr) as (es & Hes & Hx & _ & Ho' & Hl).
    rewrite Ho in Ho'. injection Ho' as ->. rewrite Hes.
    change (push_entry (pushes es Writer_new) e) with (pushes [e] (pushes es Writer_new)).
    rewrite <- pushes_app.
    assert (Hxe : Forall exact [e]) by (constructor; [exact He | constructor]).
    split.
    + rewrite finish_pushes by (by apply Forall_app).
      rewrite stored_emit_app by exact Hxe. cbn [emit_stores]. by rewrite app_nil_r.
    + rewrite len_pushes_new, total_len_app, Hl. unfold total_len. cbn [foldr]. lia.
Qed.

Lemma enqueues_one_ext (k k' : Writer -> Writer) (e : Entry) :
  (forall w, k w = k' w) -> enqueues_one k' e -> enqueues_one k e.
Proof.
  intros Hk (H1 & H2 & H3). split; [|split].
  - intros w hd ns fs Hw. rewrite Hk. by apply H1.
  - by rewrite Hk.
  - intros cs b Hs Hr Ho. rewrite Hk. by apply H3.
Qed.

(** On a fresh writer: [finish] returns the bytes of the one op. *)
Lemma enqueues_one_fresh (k : Writer -> Writer) (e : Entry) :
  enqueues_one k e ->
  fst (finish (k Writer_new)) = Some (stored (call (fst (fst e)) 0 (snd e)))
  /\ len (k Writer_new) = snd (fst e).
Proof.
  intros (_ & _ & H3). destruct (H3 [] [] eq_refl ltac:(constructor) eq_refl) as [Hf Hl].
  cbn [run foldl app length] in Hf, Hl. split; [exact Hf | lia].
Qed.

Lemma uint32_enqueues_one (v : Z) : enqueues_one (uint32 v) (uint32_entry v).
Proof.
  apply (enqueues_one_ext _ (fun w => push_entry w (uint32_entry v))).
  - intros w. apply uint32_push.
  - apply push_enqueues_one, exact_uint32.
Qed.

Lemma length_stored_varint (pos u : Z) (n : nat) :
  length (stored (varint_stores pos u n)) = n.
Proof. unfold stored, varint_stores. rewrite !length_map. apply length_seq. Qed.

(** C10: [tag(id, wt)] enqueues exactly one op, of length 1: in whatever
    state the writer is, the current frame gets that op as its new last
    op and nothing else changes; on a fresh writer the queue is that op
    alone and [finish] returns its one byte; behind other writes [finish]
    returns their bytes and then that byte.  The byte is the low eight
    bits of [(id << 3) | (wt & 7)], for every id and wire type, so an id
    of 16 or more is cut to one byte and never becomes a longer varint;
    for [id < 16] and [wt < 8] the byte is [(id << 3) | wt] itself. *)
Theorem tag_single_byte (w : Writer) (id wt pos : Z) :
  let v := bor (shl id 3) (band wt 7) in
  let b := (id * 8 + wt mod 8) mod 256 in
  tag id wt w = push fn_writeByte 1 (VNum v) w
  /\ len (tag id wt w) = len w + 1
  /\ length (heap (tag id wt w)) = S (length (heap w))
  /\ call fn_writeByte pos (VNum v) = [(pos, b)]
  /\ stored (call fn_writeByte pos (VNum v)) = [b]
  /\ (0 <= id < 16 -> 0 <= wt < 8 -> b = Z.lor (Z.shiftl id 3) wt)
  /\ enqueues_one (tag id wt) (fn_writeByte, 1, VNum v)
  /\ queue (tag id wt Writer_new) = Some [mkOp fn_writeByte (VNum v) 1 None]
  /\ fst (finish (tag id wt Writer_new)) = Some [b]
  /\ (forall cs bs,
        forallb scalar cs = true -> Forall in_range cs -> output cs = Some bs ->
        fst (finish (tag id wt (run cs Writer_new))) = Some (bs ++ [b])).
Proof.
  cbv zeta.
  destruct (tag_push_byte w id wt pos) as (H1 & H2 & H3 & H4 & H5 & H6). cbv zeta in *.
  assert (He : enqueues_one (tag id wt) (fn_writeByte, 1, VNum (bor (shl id 3) (band wt 7))))
    by (apply (push_enqueues_one (fn_writeByte, 1, VNum _)), exact_writeByte).
  assert (Hb : stored (call fn_writeByte 0 (VNum (bor (shl id 3) (band wt 7))))
               = [(id * 8 + wt mod 8) mod 256])
    by (by destruct (tag_push_byte w id wt 0) as (_ & _ & _ & _ & ? & _)).
  do 6 (split; [assumption|]).
  split; [exact He|]. split; [reflexivity|].
  split.
  - rewrite (proj1 (enqueues_one_fresh _ _ He)). cbn [fst snd]. by rewrite Hb.
  - intros cs bs Hs Hr Ho. destruct He as (_ & _ & He).
    rewrite (proj1 (He cs bs Hs Hr Ho)). cbn [fst snd]. by rewrite Hb.
Qed.

(** Field id 1 with wire type 2: the tag byte is [0A], alone and behind
    [uint32(150)]. *)
Lemma tag_single_byte_witness :
  0 <= 1 < 16 /\ 0 <= 2 < 8
  /\ (1 * 8 + 2 mod 8) mod 256 = Z.lor (Z.shiftl 1 3) 2
  /\ stored (call fn_writeByte 0 (VNum (bor (shl 1 3) (band 2 7)))) = [10]
  /\ fst (finish (tag 1 2 Writer_new)) = Some [10]
  /\ forallb scalar [CUint32 150] = true /\ Forall in_range [CUint32 150]
  /\ output [CUint32 150] = Some [0x96; 0x01]
  /\ fst (finish (tag 1 2 (run [CUint32 150] Writer_new))) = Some [0x96; 0x01; 0x0A].
Proof.
  pose proof (tag_single_byte Writer_new 1 2 0) as H. cbv zeta in H.
  destruct H as (_ & _ & _ & _ & Hs & Hb & _ & _ & Hf & Hc).
  assert (Hr : Forall in_range [CUint32 150]) by (repeat constructor).
  split; [lia|]. split; [lia|]. split; [apply Hb; lia|]. split; [exact Hs|].
  split; [exact Hf|]. split; [reflexivity|]. split; [exact Hr|]. split; [reflexivity|].
  exact (Hc [CUint32 150] [0x96; 0x01] eq_refl Hr eq_refl).
Defined.

(** C7: [uint32(v)] coerces [v] to the unsigned 32-bit [u] and enqueues
    exactly one op, whose length is 1, 2, 3, 4 or 5 by the magnitude of
    [u]: in whatever state the writer is, the current frame gets that op
    as its new last op; on a fresh writer the queue is that op alone.
    The function of that op ([writeByte] below 128, [writeVarint32]
    above) stores exactly that many bytes at consecutive positions: the
    7-bit groups of [u], least significant first, each with the
    continuation bit except the last; and those are the bytes [finish]
    returns, alone on a fresh writer and behind the bytes of earlier
    writes otherwise. *)
Theorem uint32_varint (w : Writer) (v pos : Z) :
  let u := ToUint32 v in
  let n := varint_size u in
  let f := if bool_decide (u < 128) then fn_writeByte else fn_writeVarint32 in
  n = (if bool_decide (u < 128) then 1
       else if bool_decide (u < 2 ^ 14) then 2
       else if bool_decide (u < 2 ^ 21) then 3
       else if bool_decide (u < 2 ^ 28) then 4 else 5)
  /\ uint32 v w = push f n (VNum u) w
  /\ len (uint32 v w) = len w + n
  /\ call f pos (VNum u) = varint_stores pos u (Z.to_nat n)
  /\ Z.of_nat (length (call f pos (VNum u))) = n
  /\ positions (call f pos (VNum u)) = seqZ pos n
  /\ decode_varint (stored (call f pos (VNum u))) = u
  /\ enqueues_one (uint32 v) (f, n, VNum u)
  /\ queue (uint32 v Writer_new) = Some [mkOp f (VNum u) n None]
  /\ fst (finish (uint32 v Writer_new)) = Some (stored (varint_stores 0 u (Z.to_nat n)))
  /\ Z.of_nat (length (stored (varint_stores 0 u (Z.to_nat n)))) = n
  /\ (forall cs bs,
        forallb scalar cs = true -> Forall in_range cs -> output cs = Some bs ->
        fst (finish (uint32 v (run cs Writer_new)))
        = Some (bs ++ stored (varint_stores 0 u (Z.to_nat n)))).
Proof.
  cbv zeta.
  destruct (uint32_push_stores w v pos) as (H1 & H2 & H3 & H4 & H5 & H6 & H7).
  cbv zeta in *.
  pose proof (uint32_enqueues_one v) as He. unfold uint32_entry in He.
  pose proof (uint32_entry_stored v 0) as Hb. unfold uint32_entry in Hb. cbn [fst snd] in Hb.
  pose proof (varint_size_range (ToUint32 v)) as Hn.
  do 7 (split; [assumption|]).
  split; [exact He|]. split; [exact (proj1 (proj2 He))|].
  split; [|split].
  - rewrite (proj1 (enqueues_one_fresh _ _ He)). cbn [fst snd]. by rewrite Hb.
  - rewrite length_stored_varint. lia.
  - intros cs bs Hs Hr Ho. destruct He as (_ & _ & He).
    rewrite (proj1 (He cs bs Hs Hr Ho)). cbn [fst snd]. by rewrite Hb.
Qed.

(** [uint32(300)] behind [tag(1, 0)]: the bytes [08 AC 02]. *)
Lemma uint32_varint_witness :
  forallb scalar [CTag 1 0] = true /\ Forall in_range [CTag 1 0]
  /\ output [CTag 1 0] = Some [0x08]
  /\ fst (finish (uint32 300 (run [CTag 1 0] Writer_new))) = Some [0x08; 0xAC; 0x02]
  /\ fst (finish (uint32 300 Writer_new)) = Some [0xAC; 0x02].
Proof.
  pose proof (uint32_varint Writer_new 300 0) as H. cbv zeta in H.
  destruct H as (_ & _ & _ & _ & _ & _ & _ & _ & _ & Hf & _ & Hc).
  assert (Hr : Forall in_range [CTag 1 0]) by (repeat constructor).
  split; [reflexivity|]. split; [exact Hr|]. split; [reflexivity|].
  split; [exact (Hc [CTag 1 0] [0x08] eq_refl Hr eq_refl) | exact Hf].
Defined.

(** C8: [sint32(v)] enqueues exactly one op, through [uint32]: the varint
    of the unsigned 32-bit zig-zag value [(v << 1) ^ (v >> 31)]; the bytes
    of that varint are what [finish] returns, alone on a fresh writer and
    behind the bytes of earlier writes otherwise; decoding them and
    undoing the zig-zag map gives [v] back; and the map is onto the
    unsigned 32-bit values, the inverse map being its inverse on that
    side too. *)
Theorem sint32_zigzag_roundtrip (w : Writer) (v pos : Z) :
  - 2 ^ 31 <= v < 2 ^ 31 ->
  let z := ToUint32 (bxor (shl v 1) (sar v 31)) in
  let f := if bool_decide (z < 128) then fn_writeByte else fn_writeVarint32 in
  sint32 v w = uint32 (bxor (shl v 1) (sar v 31)) w
  /\ sint32 v w = push f (varint_size z) (VNum z) w
  /\ call f pos (VNum z) = varint_stores pos z (Z.to_nat (varint_size z))
  /\ decode_varint (stored (call f pos (VNum z))) = z
  /\ zigzag_decode32 z = v
  /\ zigzag_decode32 (decode_varint (stored (call f pos (VNum z)))) = v
  /\ (forall u, 0 <= u < 2 ^ 32 ->
        - 2 ^ 31 <= zigzag_decode32 u < 2 ^ 31
        /\ ToUint32 (bxor (shl (zigzag_decode32 u) 1) (sar (zigzag_decode32 u) 31)) = u)
  /\ enqueues_one (sint32 v) (f, varint_size z, VNum z)
  /\ queue (sint32 v Writer_new) = Some [mkOp f (VNum z) (varint_size z) None]
  /\ (exists bs,
        fst (finish (sint32 v Writer_new)) = Some bs
        /\ bs = stored (varint_stores 0 z (Z.to_nat (varint_size z)))
        /\ decode_varint bs = z
        /\ zigzag_decode32 (decode_varint bs) = v
        /\ forall cs bs0,
             forallb scalar cs = true -> Forall in_range cs -> output cs = Some bs0 ->
             fst (finish (sint32 v (run cs Writer_new))) = Some (bs0 ++ bs)).
Proof.
  intros Hv. cbv zeta.
  destruct (sint32_push_stores w v pos Hv) as (H1 & H2 & H3 & H4 & H5 & H6 & H7).
  cbv zeta in *.
  set (x := bxor (shl v 1) (sar v 31)) in *.
  assert (He : enqueues_one (sint32 v) (uint32_entry x))
    by (apply (enqueues_one_ext _ (uint32 x)); [reflexivity | apply uint32_enqueues_one]).
  unfold uint32_entry in He.
  pose proof (uint32_entry_stored x 0) as Hb. unfold uint32_entry in Hb. cbn [fst snd] in Hb.
  destruct (sint32_push_stores w v 0 Hv) as (_ & _ & H3' & H4' & _ & H6' & _).
  cbv zeta in H3', H4', H6'. fold x in H3', H4', H6'.
  do 7 (split; [assumption|]).
  split; [exact He|]. split; [exact (proj1 (proj2 He))|].
  exists (stored (varint_stores 0 (ToUint32 x) (Z.to_nat (varint_size (ToUint32 x))))).
  split; [rewrite (proj1 (enqueues_one_fresh _ _ He)); cbn [fst snd]; by rewrite Hb|].
  split; [reflexivity|].
  rewrite <- H3'. split; [exact H4'|]. split; [exact H6'|].
  intros cs bs0 Hs Hr Ho. destruct He as (_ & _ & He).
  rewrite (proj1 (He cs bs0 Hs Hr Ho)). cbn [fst snd]. reflexivity.
Qed.

(** The round trip at [v = -1]: [sint32(-1)] gives the byte [01]. *)
Lemma sint32_zigzag_roundtrip_witness :
  - 2 ^ 31 <= -1 < 2 ^ 31
  /\ zigzag_decode32 (ToUint32 (bxor (shl (-1) 1) (sar (-1) 31))) = -1
  /\ exists bs,
       fst (finish (sint32 (-1) Writer_new)) = Some bs
       /\ bs = [1]
       /\ zigzag_decode32 (decode_varint bs) = -1.
Proof.
  split; [lia|].
  destruct (sint32_zigzag_roundtrip Writer_new (-1) 0 ltac:(lia))
    as (_ & _ & _ & _ & Hz & _ & _ & _ & _ & bs & Hf & Hbs & _ & Hd & _).
  split; [exact Hz|]. exists bs. split; [exact Hf|]. split; [exact Hbs | exact Hd].
Defined.

(** C6: for a signed 32-bit [v], [int32(v)] is [uint32(v)] when [v >= 0],
    on every writer, and so enqueues the op and gives the bytes that
    [uint32(v)] does; when [v < 0] it enqueues exactly one op, of length
    10, holding the sign-extended LongBits of [v]: in whatever state the
    writer is, the current frame gets that op as its new last op; on a
    fresh writer the queue is that op alone; [writeVarint64] on that
    value stores exactly 10 bytes, at consecutive positions, the ten
    groups of the 64-bit two's complement of [v]; and those ten bytes are
    what [finish] returns, alone on a fresh writer and behind the bytes
    of earlier writes otherwise. *)
Theorem int32_varint (w : Writer) (v pos : Z) :
  - 2 ^ 31 <= v < 2 ^ 31 ->
  (0 <= v ->
   int32 v w = uint32 v w
   /\ enqueues_one (int32 v) (uint32_entry v)
   /\ fst (finish (int32 v Writer_new))
      = Some (stored (varint_stores 0 v (Z.to_nat (varint_size v)))))
  /\ (v < 0 ->
      let bits := LongBits.fromNumber v in
      int32 v w = push fn_writeVarint64 10 (VLong bits) w
      /\ len (int32 v w) = len w + 10
      /\ bits = LongBits.mk (v + 2 ^ 32) (2 ^ 32 - 1)
      /\ call fn_writeVarint64 pos (VLong bits) = varint_stores pos (v + 2 ^ 64) 10
      /\ length (call fn_writeVarint64 pos (VLong bits)) = 10%nat
      /\ positions (call fn_writeVarint64 pos (VLong bits)) = seqZ pos 10
      /\ decode_varint (stored (call fn_writeVarint64 pos (VLong bits))) = v + 2 ^ 64
      /\ enqueues_one (int32 v) (fn_writeVarint64, 10, VLong bits)
      /\ queue (int32 v Writer_new) = Some [mkOp fn_writeVarint64 (VLong bits) 10 None]
      /\ fst (finish (int32 v Writer_new)) = Some (stored (varint_stores 0 (v + 2 ^ 64) 10))
      /\ length (stored (varint_stores 0 (v + 2 ^ 64) 10)) = 10%nat
      /\ (forall cs bs,
            forallb scalar cs = true -> Forall in_range cs -> output cs = Some bs ->
            fst (finish (int32 v (run cs Writer_new)))
            = Some (bs ++ stored (varint_stores 0 (v + 2 ^ 64) 10))
            /\ len (int32 v (run cs Writer_new)) = Z.of_nat (length bs) + 10)).
Proof.
  intros Hv. destruct (int32_push_stores w v pos Hv) as [Hpos Hneg]. split.
  - intros Hv0. specialize (Hpos Hv0).
    assert (Hk : forall w0, int32 v w0 = uint32 v w0)
      by (intros w0; unfold int32; by rewrite bool_decide_eq_false_2 by lia).
    assert (He : enqueues_one (int32 v) (uint32_entry v))
      by (apply (enqueues_one_ext _ (uint32 v)); [exact Hk | apply uint32_enqueues_one]).
    split; [exact Hpos|]. split; [exact He|].
    rewrite (proj1 (enqueues_one_fresh _ _ He)), uint32_entry_stored.
    by rewrite ToUint32_id by lia.
  - intros Hv0. specialize (Hneg Hv0). cbv zeta in *.
    destruct Hneg as (H1 & H2 & H3 & H4 & H5 & H6 & H7).
    assert (Hk : forall w0, int32 v w0
                            = push_entry w0 (fn_writeVarint64, 10, VLong (LongBits.fromNumber v)))
      by (intros w0; unfold int32; by rewrite bool_decide_eq_true_2 by lia).
    assert (He : enqueues_one (int32 v) (fn_writeVarint64, 10, VLong (LongBits.fromNumber v))).
    { apply (enqueues_one_ext _ _ _ Hk), push_enqueues_one, exact_int32_negative. lia. }
    assert (Hb : stored (call fn_writeVarint64 0 (VLong (LongBits.fromNumber v)))
                 = stored (varint_stores 0 (v + 2 ^ 64) 10)).
    { destruct (int32_push_stores w v 0 Hv) as [_ Hn]. specialize (Hn Hv0). cbv zeta in Hn.
      by destruct Hn as (_ & _ & _ & -> & _). }
    do 7 (split; [assumption|]).
    split; [exact He|]. split; [exact (proj1 (proj2 He))|].
    split; [|split].
    + rewrite (proj1 (enqueues_one_fresh _ _ He)). cbn [fst snd]. by rewrite Hb.
    + apply length_stored_varint.
    + intros cs bs Hs Hr Ho. destruct He as (_ & _ & He).
      destruct (He cs bs Hs Hr Ho) as [Hf Hl]. cbn [fst snd] in Hf, Hl.
      rewrite Hf, Hb. split; [reflexivity | exact Hl].
Qed.

(** [int32(-1)]: ten bytes, nine of [FF] and [01]; [int32(1)]: the byte
    [01]. *)
Lemma int32_varint_witness :
  - 2 ^ 31 <= -1 < 2 ^ 31
  /\ length (call fn_writeVarint64 0 (VLong (LongBits.fromNumber (-1)))) = 10%nat
  /\ fst (finish (int32 (-1) Writer_new))
     = Some [0xFF; 0xFF; 0xFF; 0xFF; 0xFF; 0xFF; 0xFF; 0xFF; 0xFF; 0x01]
  /\ fst (finish (int32 1 Writer_new)) = Some [1].
Proof.
  split; [lia|].
  destruct (int32_varint Writer_new (-1) 0 ltac:(lia)) as [_ H].
  destruct (H ltac:(lia)) as (_ & _ & _ & _ & Hl & _ & _ & _ & _ & Hf & _).
  destruct (int32_varint Writer_new 1 0 ltac:(lia)) as [H1 _].
  destruct (H1 ltac:(lia)) as (_ & _ & Hf1).
  split; [exact Hl|]. split; [exact Hf | exact Hf1].
Defined.
